(** * Form-filling engine of the job-apply browser extension

    A shallow embedding of the page-resident engine (content script), of
    the popup (memory handlers and job queue) and of the background
    worker, followed by the properties of the engine that the design
    document states and by further properties of the code.

    Conventions of the embedding.
    - A JavaScript string is a [string] (a sequence of bytes); case folding
      and trimming act on the ASCII letters and ASCII white space, and
      the length of a text is its number of bytes. On ASCII texts this
      is what the host does; a theorem whose statement would not hold of
      the code on other texts is stated for ASCII texts
      ([Props.ascii_text]).
    - The DOM is a record [Page]; a form control is referred to by its index
      in [elements], which plays the role of the object reference held by
      a field descriptor.
    - A control stores the text assigned to it and a dropdown the value
      of the option selected; the sanitization that the host applies to
      inputs of special types (number, date, ...) is not embedded, and a
      theorem that depends on the text read back is stated for the
      controls that keep it ([Props.takes]).
    - A container of the panel search is an HTML element, whose
      [innerText] is a string.
    - [chrome.storage.local] is a record [Storage]; a write may be refused
      by the host (quota), in which case the awaited promise rejects.
      The memory maps questions to answers that are strings, as the
      engine and the popup store them, and its keys are its own: the
      names that a lookup finds on [Object.prototype] are kept out by
      hypothesis where they matter ([Props.own_key]).
    - An asynchronous function is a state transformer over [World] that
      either returns a value or throws.
    - The human is the list of replies given to the successive prompts.
    - The panel loop and the apply and submit controllers run against a
      page that reacts to clicks, events and the passing of time; during
      the standard fill pass the page's own scripts are taken not to
      write to the form controls.
    - The job queue of the popup is a record [Queue.State] of the script's
      globals, of what the storage holds of them and of the address the
      active tab was sent to; the background worker acts on the same
      record. A handler of the queue returns or ends in a rejection. *)

From Stdlib Require Import ZArith Ascii String List Bool Lia.
From stdpp Require Import base option list gmap strings fin_maps pretty.

Local Open Scope string_scope.

(* ===================================================================== *)
(** ** JavaScript strings *)
(* ===================================================================== *)

Module JS.

(** [String.prototype.toLowerCase], on the ASCII letters. *)
Definition lower_ascii (c : ascii) : ascii :=
  let n := N_of_ascii c in
  if ((65 <=? n) && (n <=? 90))%N then ascii_of_N (n + 32) else c.

Fixpoint toLowerCase (s : string) : string :=
  match s with
  | EmptyString => EmptyString
  | String c t => String (lower_ascii c) (toLowerCase t)
  end.

(** White space removed by [String.prototype.trim] (ASCII part):
    TAB, LF, VT, FF, CR and SPACE. *)
Definition is_space (c : ascii) : bool :=
  let n := N_of_ascii c in
  (((9 <=? n) && (n <=? 13)) || (n =? 32))%N.

Fixpoint trimStart (s : string) : string :=
  match s with
  | EmptyString => EmptyString
  | String c t => if is_space c then trimStart t else s
  end.

Fixpoint trimEnd (s : string) : string :=
  match s with
  | EmptyString => EmptyString
  | String c t =>
      match trimEnd t with
      | EmptyString => if is_space c then EmptyString else String c EmptyString
      | t' => String c t'
      end
  end.

Definition trim (s : string) : string := trimEnd (trimStart s).

(** [hay.includes(needle)]. *)
Fixpoint includes (hay needle : string) : bool :=
  String.prefix needle hay ||
  match hay with
  | EmptyString => false
  | String _ t => includes t needle
  end.

(** Truthiness of a string value: every string but the empty one. *)
Definition truthy (s : string) : bool :=
  match s with EmptyString => false | _ => true end.

(** [a || b] on strings. *)
Definition or_else (a b : string) : string := if truthy a then a else b.

(** [s.split('\n')]. *)
Fixpoint split_lines_aux (cur : string) (s : string) : list string :=
  match s with
  | EmptyString => [String.rev cur]
  | String c t =>
      if Ascii.eqb c "010"%char then String.rev cur :: split_lines_aux EmptyString t
      else split_lines_aux (String c cur) t
  end.

Definition split_lines (s : string) : list string := split_lines_aux EmptyString s.

End JS.

(* ===================================================================== *)
(** ** The page *)
(* ===================================================================== *)

Module Dom.

(** The three kinds of element matched by ['input, textarea, select']. *)
Inductive Tag := INPUT | TEXTAREA | SELECT.

(** [el.tagName] *)
Definition tag_name (t : Tag) : string :=
  match t with INPUT => "INPUT" | TEXTAREA => "TEXTAREA" | SELECT => "SELECT" end.

(** An [<option>] of a select control. *)
Record OptionEl := { opt_text : string; opt_value : string }.

(** A form control. [el_value] and [el_files] are its mutable state;
    [el_rejects] says that the host environment refuses a programmatic
    assignment to the control (the assignment throws). *)
Record Element := {
  tagName : Tag;
  el_type : string;
  el_name : string;
  el_id : string;
  el_placeholder : string;
  el_labels : list string;
  el_required_prop : bool;
  el_required_attr : bool;
  rect_width : Z;
  rect_height : Z;
  style_display : string;
  style_visibility : string;
  el_options : list OptionEl;
  el_rejects : bool;
  el_value : string;
  el_files : list string
}.

Definition with_value (e : Element) (v : string) : Element :=
  {| tagName := tagName e; el_type := el_type e; el_name := el_name e;
     el_id := el_id e; el_placeholder := el_placeholder e;
     el_labels := el_labels e; el_required_prop := el_required_prop e;
     el_required_attr := el_required_attr e; rect_width := rect_width e;
     rect_height := rect_height e; style_display := style_display e;
     style_visibility := style_visibility e; el_options := el_options e;
     el_rejects := el_rejects e;
     el_value := v; el_files := el_files e |}.

Definition with_files (e : Element) (fs : list string) (v : string) : Element :=
  {| tagName := tagName e; el_type := el_type e; el_name := el_name e;
     el_id := el_id e; el_placeholder := el_placeholder e;
     el_labels := el_labels e; el_required_prop := el_required_prop e;
     el_required_attr := el_required_attr e; rect_width := rect_width e;
     rect_height := rect_height e; style_display := style_display e;
     style_visibility := style_visibility e; el_options := el_options e;
     el_rejects := el_rejects e;
     el_value := v; el_files := fs |}.

(** The [value] setter. On a select control it selects the first option
    carrying that value, and the control reads back the empty string
    when there is none; on the other controls the value is stored as it
    is, which is what a textarea and the inputs of type text, search,
    tel and password do with a text of one line. *)
Definition has_option_value (e : Element) (v : string) : bool :=
  existsb (fun o => String.eqb (opt_value o) v) (el_options e).

Definition assigned_value (e : Element) (v : string) : string :=
  match tagName e with
  | SELECT => if has_option_value e v then v else EmptyString
  | _ => v
  end.

(** The [files] setter of a file control: the control then reads back
    the fake path of the first file. *)
Definition fakepath (name : string) : string := "C:\fakepath\" ++ name.

(** A clickable control. *)
Inductive ButtonKind := BUTTON | ANCHOR | INPUT_BUTTON | INPUT_SUBMIT.

Record Button := {
  b_kind : ButtonKind;
  b_innerText : string;
  b_value : string;
  b_offsetParent : bool;   (* offsetParent !== null *)
  b_disabled : bool
}.

(** A candidate container (dialog, drawer, sidebar or div) with its
    bounding box, its rendered text and the controls and buttons below
    it, by index. The container is an HTML element: an element of
    another kind that the selector matches has no [innerText]. *)
Record Container := {
  c_width : Z;
  c_height : Z;
  c_innerText : string;
  c_controls : list nat;
  c_buttons : list nat
}.

Record Page := {
  elements : list Element;
  for_labels : list (string * string);   (* label[for=id], innerText *)
  buttons : list Button;
  containers : list Container;
  innerWidth : Z;
  body_innerText : string
}.

Definition with_elements (p : Page) (es : list Element) : Page :=
  {| elements := es; for_labels := for_labels p; buttons := buttons p;
     containers := containers p; innerWidth := innerWidth p;
     body_innerText := body_innerText p |}.

End Dom.

(* ===================================================================== *)
(** ** Persistent storage and the world an operation runs in *)
(* ===================================================================== *)

Module Store.

(** A stored file asset (resume or cover letter). *)
Record Asset := {
  a_name : string;
  a_data : string;
  a_type : string;
  a_size : Z
}.

(** [chrome.storage.local], restricted to the keys the engine uses. Every
    reader defaults an absent [qaMemory] to the empty object, so it is
    kept as a map that starts empty. Keys are own properties and answers
    are strings. *)
Record Storage := {
  qaMemory : gmap string string;
  resume : option Asset;
  coverLetter : option Asset
}.

Definition with_qaMemory (s : Storage) (m : gmap string string) : Storage :=
  {| qaMemory := m; resume := resume s; coverLetter := coverLetter s |}.

Definition with_resume (s : Storage) (a : Asset) : Storage :=
  {| qaMemory := qaMemory s; resume := Some a; coverLetter := coverLetter s |}.

Definition with_coverLetter (s : Storage) (a : Asset) : Storage :=
  {| qaMemory := qaMemory s; resume := resume s; coverLetter := Some a |}.

(** [qaMemory[key]] used as a condition: present and non-empty. The
    lookup is among the own keys of the memory; for the keys
    [constructor] and [__proto__] the host finds a value on the
    prototype instead. *)
Definition recall (m : gmap string string) (key : string) : option string :=
  match m !! key with
  | Some v => if JS.truthy v then Some v else None
  | None => None
  end.

End Store.

Module Run.
Import Dom Store.

(** What the engine does to its environment, in order. *)
Inductive Event :=
| EvDispatch (target : nat) (kind : string)
| EvFocus (target : nat)
| EvClickControl (target : nat)
| EvClickButton (button : nat)
| EvSleep (ms : Z)
| EvPrompt (message : string)
| EvAlert (message : string)
| EvStorageSet (key : string)
| EvConsoleError (message : string).

(** [answers] is the human's reply to each successive prompt: [None] is a
    cancelled dialog; when the list is used up every dialog is cancelled.
    [log] has the latest event first. *)
Record World := {
  page : Page;
  storage : Storage;
  answers : list (option string);
  log : list Event
}.

Definition with_page (w : World) (p : Page) : World :=
  {| page := p; storage := storage w; answers := answers w; log := log w |}.

Definition with_storage (w : World) (s : Storage) : World :=
  {| page := page w; storage := s; answers := answers w; log := log w |}.

Definition with_answers (w : World) (a : list (option string)) : World :=
  {| page := page w; storage := storage w; answers := a; log := log w |}.

Definition with_log (w : World) (l : list Event) : World :=
  {| page := page w; storage := storage w; answers := answers w; log := l |}.

(** How a call completes. *)
Inductive Completion (A : Type) :=
| Normal (a : A)
| Throw (err : string).
Arguments Normal {A} a.
Arguments Throw {A} err.

Definition M (A : Type) : Type := World -> Completion A * World.

Definition ret {A} (a : A) : M A := fun w => (Normal a, w).

Definition bind {A B} (m : M A) (k : A -> M B) : M B :=
  fun w =>
    match m w with
    | (Normal a, w') => k a w'
    | (Throw e, w') => (Throw e, w')
    end.

#[global] Instance M_ret : MRet M := @ret.
#[global] Instance M_bind : MBind M := fun A B k m => bind m k.

Definition throw {A} (e : string) : M A := fun w => (Throw e, w).

(** [try { m } catch (err) { h err }]. *)
Definition try_catch {A} (m : M A) (h : string -> M A) : M A :=
  fun w =>
    match m w with
    | (Normal a, w') => (Normal a, w')
    | (Throw e, w') => h e w'
    end.

(** [for (const x of xs) { s = body(x, s) }], without [break]. *)
Fixpoint for_of {A S} (xs : list A) (body : A -> S -> M S) (s : S) : M S :=
  match xs with
  | [] => ret s
  | x :: rest => bind (body x s) (for_of rest body)
  end.

Definition note (ev : Event) : M unit :=
  fun w => (Normal tt, with_log w (ev :: log w)).

Definition alert (message : string) : M unit := note (EvAlert message).

Definition prompt (message : string) : M (option string) :=
  fun w =>
    let w' := with_log w (EvPrompt message :: log w) in
    match answers w with
    | [] => (Normal None, w')
    | a :: rest => (Normal a, with_answers w' rest)
    end.

(** A reply counts when it is a non-empty string. *)
Definition supplied (a : option string) : option string :=
  match a with
  | Some s => if JS.truthy s then Some s else None
  | None => None
  end.

(** Reading through the element reference. *)
Definition element_at (i : nat) : M (option Element) :=
  fun w => (Normal (elements (page w) !! i), w).

(** [el.value = v]; the control then reads back [assigned_value]. *)
Definition set_value (i : nat) (v : string) : M unit :=
  fun w =>
    match elements (page w) !! i with
    | None => (Normal tt, w)
    | Some e =>
        if el_rejects e then (Throw "InvalidStateError", w)
        else (Normal tt,
              with_page w (with_elements (page w)
                (<[i := with_value e (assigned_value e v)]> (elements (page w)))))
    end.

(** [el.files = dataTransfer.files] with a single file of that name. *)
Definition set_files (i : nat) (name : string) : M unit :=
  fun w =>
    match elements (page w) !! i with
    | None => (Normal tt, w)
    | Some e =>
        if el_rejects e then (Throw "NotAllowedError", w)
        else (Normal tt,
              with_page w (with_elements (page w)
                (<[i := with_files e [name] (fakepath name)]> (elements (page w)))))
    end.

(** [await chrome.storage.local.get(...)] *)
Definition get_storage : M Storage := fun w => (Normal (storage w), w).

Definition dispatchEvent (i : nat) (kind : string) : M unit :=
  note (EvDispatch i kind).

(** [await chrome.storage.local.set({ key: ... })]: the host accepts the
    write when [quota] holds of the storage it would leave, and the
    promise rejects otherwise. *)
Definition storage_set (quota : Storage -> bool) (key : string)
    (update : Storage -> Storage) : M unit :=
  fun w =>
    let s := update (storage w) in
    if quota s then (Normal tt, with_log (with_storage w s) (EvStorageSet key :: log w))
    else (Throw "QUOTA_BYTES quota exceeded", w).

End Run.

(* ===================================================================== *)
(** ** The content script *)
(* ===================================================================== *)

Module Content.
Import Dom Store Run.

(** A field descriptor, as built by [findAllFields]; [f_element] is the
    reference to the live control. *)
Record Field := {
  f_element : nat;
  f_tag : string;
  f_type : string;
  f_name : string;
  f_id : string;
  f_label : string;
  f_placeholder : string;
  f_required : bool
}.

Definition visible (el : Element) : bool :=
  (0 <? rect_width el)%Z && (0 <? rect_height el)%Z &&
  negb (String.eqb (style_display el) "none") &&
  negb (String.eqb (style_visibility el) "hidden") &&
  negb (String.eqb (el_type el) "hidden") &&
  negb (String.eqb (el_type el) "submit") &&
  negb (String.eqb (el_type el) "button") &&
  negb (String.eqb (el_type el) "image").

(** The label of a control: its first associated label or else, for a
    control with an id, the first [label[for=id]] of the document. The
    id is one that the selector can quote. *)
Definition label_of (p : Page) (el : Element) : string :=
  match el_labels el with
  | l :: _ => JS.trim l
  | [] =>
      if JS.truthy (el_id el) then
        match List.find (fun lf => String.eqb (fst lf) (el_id el)) (for_labels p) with
        | Some lf => JS.trim (snd lf)
        | None => EmptyString
        end
      else EmptyString
  end.

Definition describe (p : Page) (i : nat) (el : Element) : Field :=
  {| f_element := i;
     f_tag := JS.toLowerCase (tag_name (tagName el));
     f_type := JS.or_else (el_type el) "text";
     f_name := el_name el;
     f_id := el_id el;
     f_label := label_of p el;
     f_placeholder := el_placeholder el;
     f_required := el_required_prop el || el_required_attr el |}.

Fixpoint collect_fields (p : Page) (i : nat) (els : list Element) : list Field :=
  match els with
  | [] => []
  | el :: rest =>
      if visible el then describe p i el :: collect_fields p (S i) rest
      else collect_fields p (S i) rest
  end.

Definition findAllFields (p : Page) : list Field :=
  collect_fields p 0 (elements p).

(** *** Option matcher *)

Definition exact_match (answer : string) (opt : OptionEl) : bool :=
  String.eqb (JS.toLowerCase (opt_text opt)) (JS.toLowerCase answer).

Definition partial_match (answer : string) (opt : OptionEl) : bool :=
  JS.includes (JS.toLowerCase (opt_text opt)) (JS.toLowerCase answer) ||
  JS.includes (JS.toLowerCase answer) (JS.toLowerCase (opt_text opt)).

(** One [for (const opt of options) { if (test) { ...; return true } }]
    loop: the option at which it returns, if any. *)
Fixpoint first_option (test : OptionEl -> bool) (options : list OptionEl)
  : option OptionEl :=
  match options with
  | [] => None
  | opt :: rest => if test opt then Some opt else first_option test rest
  end.

Definition choose (i : nat) (opt : OptionEl) : M bool :=
  set_value i (opt_value opt);;
  dispatchEvent i "change";;
  mret true.

Definition selectBestOption (i : nat) (answer : string) : M bool :=
  oe ← element_at i;
  match oe with
  | None => mret false
  | Some selectElement =>
      let options := el_options selectElement in
      match first_option (exact_match answer) options with
      | Some opt => choose i opt
      | None =>
          match first_option (partial_match answer) options with
          | Some opt => choose i opt
          | None => mret false
          end
      end
  end.

(** *** Standard fill pass *)

Record FillResult := {
  success : bool;
  filledCount : nat;
  askedCount : nat;
  totalFields : nat
}.

(** The locals of [fillFormWithMemory] that the loop updates. *)
Record Locals := {
  l_qaMemory : gmap string string;
  l_filledCount : nat;
  l_askedCount : nat
}.

Definition filled (st : Locals) : Locals :=
  {| l_qaMemory := l_qaMemory st;
     l_filledCount := S (l_filledCount st);
     l_askedCount := l_askedCount st |}.

Definition question_of (field : Field) : string :=
  JS.trim (JS.toLowerCase
    (JS.or_else (f_label field)
       (JS.or_else (f_placeholder field) (JS.or_else (f_name field) EmptyString)))).

Definition fill_text (i : nat) (v : string) : M unit :=
  set_value i v;;
  dispatchEvent i "input";;
  dispatchEvent i "change".

Definition attach (i : nat) (a : Asset) : M unit :=
  set_files i (a_name a);;
  dispatchEvent i "change".

Section Host.
(** Whether the host accepts a write that leaves the storage so. *)
Variable quota : Storage -> bool.

(** [await chrome.storage.local.set({ qaMemory })]. *)
Definition storage_set_qaMemory (m : gmap string string) : M unit :=
  storage_set quota "qaMemory" (fun s => with_qaMemory s m).

(** The body of the loop over the fields; [continue] is the end of the
    body. *)
Definition fill_field (resume coverLetter : option Asset)
    (field : Field) (st : Locals) : M Locals :=
  let i := f_element field in
  oe ← element_at i;
  match oe with
  | None => mret st
  | Some el =>
  if JS.truthy (el_value el) then mret st else
  let question := question_of field in
  if negb (JS.truthy question) then mret st else
  if String.eqb (f_type field) "file" then
    let isResume := JS.includes question "resume" || JS.includes question "cv" in
    let isCoverLetter := JS.includes question "cover" || JS.includes question "letter" in
    match (if isResume then resume else None) with
    | Some r =>
        try_catch
          (attach i r;; mret (filled st))
          (fun err =>
             note (EvConsoleError "Resume upload failed");;
             alert ("Auto-upload failed for: " ++ question ++
                    " Please upload manually: " ++ a_name r);;
             mret st)
    | None =>
        match (if isCoverLetter then coverLetter else None) with
        | Some c =>
            try_catch
              (attach i c;; mret (filled st))
              (fun err =>
                 note (EvConsoleError "Cover letter upload failed");;
                 alert ("Auto-upload failed for: " ++ question ++
                        " Please upload manually: " ++ a_name c);;
                 mret st)
        | None =>
            (if f_required field then
               alert ("Please upload file manually: " ++
                      JS.or_else (f_label field)
                        (JS.or_else (f_placeholder field) "File upload"))
             else mret tt);;
            mret st
        end
    end
  else
    let remembered := recall (l_qaMemory st) question in
    let resumeText :=
      if JS.includes question "resume" || JS.includes question "cv"
      then (match resume with Some _ => remembered | None => None end)
      else None in
    match resumeText with
    | Some v => fill_text i v;; mret (filled st)
    | None =>
    let coverText :=
      if JS.includes question "cover" && JS.includes question "letter"
      then (match coverLetter with Some _ => remembered | None => None end)
      else None in
    match coverText with
    | Some v => fill_text i v;; mret (filled st)
    | None =>
    match remembered with
    | Some answer =>
        if String.eqb (f_tag field) "select" then
          matched ← selectBestOption i answer;
          mret (if matched : bool then filled st else st)
        else
          fill_text i answer;; mret (filled st)
    | None =>
        if f_required field then
          reply ← prompt ("Required: " ++
                    JS.or_else (f_label field)
                      (JS.or_else (f_placeholder field) (f_name field)));
          match supplied reply with
          | Some answer =>
              (if String.eqb (f_tag field) "select"
               then selectBestOption i answer;; mret tt
               else fill_text i answer);;
              let qaMemory' := <[question := answer]> (l_qaMemory st) in
              storage_set_qaMemory qaMemory';;
              mret {| l_qaMemory := qaMemory';
                      l_filledCount := S (l_filledCount st);
                      l_askedCount := S (l_askedCount st) |}
          | None => mret st
          end
        else mret st
    end
    end
    end
  end.

Definition fillFormWithMemory : M FillResult :=
  fun w =>
    let qaMemory0 := qaMemory (storage w) in
    let resume0 := resume (storage w) in
    let coverLetter0 := coverLetter (storage w) in
    let fields := findAllFields (page w) in
    (st ← for_of fields (fill_field resume0 coverLetter0)
           {| l_qaMemory := qaMemory0; l_filledCount := 0; l_askedCount := 0 |};
     mret {| success := true;
             filledCount := l_filledCount st;
             askedCount := l_askedCount st;
             totalFields := length fields |}) w.

End Host.

(** *** Controls that react

    [react] is what the page's own scripts do when the engine clicks,
    dispatches an event or sleeps. *)

Record SubmitResult := { s_success : bool; s_clicked : bool }.

Record ApplyResult := { a_success : bool; a_text : option string }.

(** The panel snapshot returned by [findNaukriSidebar]. *)
Record InputRef := { i_element : nat; i_type : string }.

Record SidebarData := {
  found : bool;
  questions : list string;
  inputs : list InputRef
}.

(** The way the panel loop was left. The function itself returns
    nothing; the embedding returns this together with the final value
    of [attempt]. *)
Inductive Exit :=
| NoPanel
| NoQuestionOrInput
| UserDeclined
| FillFailed
| NoSaveButton
| MaxAttemptsReached.

Definition get_world : M World := fun w => (Normal w, w).

Definition button_text (btn : Button) : string :=
  JS.toLowerCase (JS.or_else (b_innerText btn) (JS.or_else (b_value btn) EmptyString)).

(** The index at which a [for (const btn of buttons)] loop returns. *)
Fixpoint first_button (test : Button -> bool) (i : nat) (btns : list Button)
  : option nat :=
  match btns with
  | [] => None
  | btn :: rest => if test btn then Some i else first_button test (S i) rest
  end.

(** ['button, input[type="submit"]'] *)
Definition submit_capable (btn : Button) : bool :=
  match b_kind btn with
  | BUTTON | INPUT_SUBMIT => true
  | _ => false
  end.

Definition is_submit_control (btn : Button) : bool :=
  submit_capable btn &&
  (let text := button_text btn in
   (JS.includes text "submit" || JS.includes text "apply" || JS.includes text "send") &&
   b_offsetParent btn && negb (b_disabled btn)).

Definition is_apply_control (btn : Button) : bool :=
  let text := button_text btn in
  JS.includes text "apply" && negb (JS.includes text "applied") &&
  b_offsetParent btn && negb (b_disabled btn).

Definition completion_text (bodyText : string) : bool :=
  JS.includes bodyText "thank" || JS.includes bodyText "success" ||
  JS.includes bodyText "submitted" || JS.includes bodyText "received".

(** Question lines of a container's text, added to those found so far;
    the length of a line is taken in bytes. *)
Definition add_question (qs : list string) (line : string) : list string :=
  let line := JS.trim line in
  if JS.includes line "?" && (10 <? String.length line)%nat &&
     (String.length line <? 300)%nat && negb (JS.includes line "http")
  then (if existsb (String.eqb line) qs then qs else (qs ++ [line])%list)
  else qs.

(** ['input:not([type="hidden"]), textarea'] *)
Definition is_panel_input (el : Element) : bool :=
  match tagName el with
  | INPUT => negb (String.eqb (el_type el) "hidden")
  | TEXTAREA => true
  | SELECT => false
  end.

Definition fillable (el : Element) : bool :=
  (0 <? rect_width el)%Z && (0 <? rect_height el)%Z && negb (JS.truthy (el_value el)).

Definition panel_inputs (p : Page) (c : Container) : list InputRef :=
  omap (fun i =>
          match elements p !! i with
          | Some el =>
              if is_panel_input el && fillable el
              then Some {| i_element := i; i_type := JS.or_else (el_type el) "text" |}
              else None
          | None => None
          end) (c_controls c).

Fixpoint scan_containers (p : Page) (cs : list Container) (data : SidebarData)
  : SidebarData :=
  match cs with
  | [] => data
  | container :: rest =>
      if ((300 <? c_width container) && (c_width container <? innerWidth p) &&
          (200 <? c_height container))%Z
      then
        let qs := fold_left add_question (JS.split_lines (c_innerText container))
                    (questions data) in
        let ins := (inputs data ++ panel_inputs p container)%list in
        if (0 <? length qs)%nat || (0 <? length ins)%nat
        then {| found := true; questions := qs; inputs := ins |}
        else scan_containers p rest {| found := found data; questions := qs; inputs := ins |}
      else scan_containers p rest data
  end.

Definition findNaukriSidebar (p : Page) : SidebarData :=
  scan_containers p (containers p) {| found := false; questions := []; inputs := [] |}.

Definition is_save_button (btn : Button) : bool :=
  match b_kind btn with
  | BUTTON =>
      let text := JS.toLowerCase (JS.or_else (b_innerText btn) EmptyString) in
      (JS.includes text "save" || JS.includes text "submit" ||
       JS.includes text "next" || JS.includes text "continue") &&
      b_offsetParent btn && negb (b_disabled btn)
  | _ => false
  end.

Fixpoint first_save_in (p : Page) (btns : list nat) : option nat :=
  match btns with
  | [] => None
  | b :: rest =>
      match buttons p !! b with
      | Some btn => if is_save_button btn then Some b else first_save_in p rest
      | None => first_save_in p rest
      end
  end.

Fixpoint find_save_button (p : Page) (cs : list Container) : option nat :=
  match cs with
  | [] => None
  | container :: rest =>
      if (300 <? c_width container)%Z then
        match first_save_in p (c_buttons container) with
        | Some b => Some b
        | None => find_save_button p rest
        end
      else find_save_button p rest
  end.

Definition maxAttempts : nat := 20.

Section Reactive.
Variable quota : Storage -> bool.
Variable react : Event -> Page -> Page.

Definition emit (ev : Event) : M unit :=
  fun w => (Normal tt, with_log (with_page w (react ev (page w))) (ev :: log w)).

Definition sleep (ms : Z) : M unit := emit (EvSleep ms).

Definition submitForm : M SubmitResult :=
  w ← get_world;
  match first_button is_submit_control 0 (buttons (page w)) with
  | Some b =>
      emit (EvClickButton b);;
      sleep 3000;;
      w' ← get_world;
      let bodyText := JS.toLowerCase (body_innerText (page w')) in
      mret {| s_success := completion_text bodyText; s_clicked := true |}
  | None => mret {| s_success := false; s_clicked := false |}
  end.

Definition clickApplyButton : M ApplyResult :=
  w ← get_world;
  match first_button is_apply_control 0 (buttons (page w)) with
  | Some b =>
      emit (EvClickButton b);;
      sleep 2000;;
      w' ← get_world;
      mret {| a_success := true;
              a_text := (fun btn => JS.or_else (b_innerText btn) (b_value btn))
                          <$> buttons (page w') !! b |}
  | None => mret {| a_success := false; a_text := None |}
  end.

(** The inner loop of [fillNaukriInput] over the inputs of a container;
    [true] is the early [return true]. *)
Fixpoint fill_first_input (answer : string) (ins : list nat) : M bool :=
  match ins with
  | [] => mret false
  | i :: rest =>
      oe ← element_at i;
      match oe with
      | Some inp =>
          if is_panel_input inp && fillable inp then
            done ← try_catch
              (emit (EvFocus i);;
               emit (EvClickControl i);;
               sleep 300;;
               set_value i answer;;
               emit (EvDispatch i "input");;
               emit (EvDispatch i "change");;
               mret true)
              (fun err => note (EvConsoleError "Fill error");; mret false);
            if done : bool then mret true else fill_first_input answer rest
          else fill_first_input answer rest
      | None => fill_first_input answer rest
      end
  end.

Fixpoint fill_in_containers (answer : string) (cs : list nat) : M bool :=
  match cs with
  | [] => mret false
  | k :: rest =>
      w ← get_world;
      match containers (page w) !! k with
      | Some container =>
          if ((300 <? c_width container) && (200 <? c_height container))%Z then
            done ← fill_first_input answer (c_controls container);
            if done : bool then mret true else fill_in_containers answer rest
          else fill_in_containers answer rest
      | None => fill_in_containers answer rest
      end
  end.

Definition fillNaukriInput (answer : string) : M bool :=
  w ← get_world;
  fill_in_containers answer (seq 0 (length (containers (page w)))).

Definition clickNaukriSaveButton : M bool :=
  w ← get_world;
  match find_save_button (page w) (containers (page w)) with
  | Some b => emit (EvClickButton b);; mret true
  | None => mret false
  end.

(** The [while (attempt < maxAttempts)] loop; [remaining] is
    [maxAttempts - attempt]. *)
Fixpoint sidebar_loop (remaining attempt : nat) (qaMemory : gmap string string)
  : M (Exit * nat) :=
  match remaining with
  | O => mret (MaxAttemptsReached, attempt)
  | S remaining' =>
      let attempt := S attempt in
      sleep 1000;;
      w ← get_world;
      let sidebarData := findNaukriSidebar (page w) in
      if negb (found sidebarData) then mret (NoPanel, attempt) else
      match questions sidebarData, inputs sidebarData with
      | [], _ | _, [] => mret (NoQuestionOrInput, attempt)
      | question :: _, _ :: _ =>
          let questionLower := JS.trim (JS.toLowerCase question) in
          resolved ←
            match recall qaMemory questionLower with
            | Some answer => mret (Some (answer, qaMemory))
            | None =>
                reply ← prompt ("Naukri Question: " ++ question);
                match supplied reply with
                | None => mret None
                | Some answer =>
                    let qaMemory' := <[questionLower := answer]> qaMemory in
                    storage_set_qaMemory quota qaMemory';;
                    mret (Some (answer, qaMemory'))
                end
            end;
          match resolved with
          | None => mret (UserDeclined, attempt)
          | Some (answer, qaMemory') =>
              filled ← fillNaukriInput answer;
              if negb filled then mret (FillFailed, attempt) else
              clicked ← clickNaukriSaveButton;
              if negb clicked then mret (NoSaveButton, attempt) else
              sleep 2000;;
              sidebar_loop remaining' attempt qaMemory'
          end
      end
  end.

Definition handleNaukriSidebar : M (Exit * nat) :=
  w ← get_world;
  sidebar_loop maxAttempts 0 (qaMemory (storage w)).

End Reactive.

End Content.

(* ===================================================================== *)
(** ** The popup: export, import and file upload *)
(* ===================================================================== *)

Module Popup.
Import Dom Store Run.

Definition resumeKeys : list string :=
  [ "resume"; "resume *"; "cv"; "cv *"; "upload resume"; "upload cv";
    "attach resume"; "attach cv"; "resume/cv"; "resume / cv"; "resumecv";
    "resume file"; "cv file"; "resume (pdf)"; "cv (pdf)"; "resume *";
    "cv *"; "attach resume *"; "attach cv *" ].

Definition coverLetterKeys : list string :=
  [ "cover letter"; "cover letter *"; "coverletter"; "upload cover letter";
    "attach cover letter"; "cover letter file"; "cover letter (pdf)";
    "attach cover letter *" ].

(** [keys.forEach(key => { qaMemory[key] = value })] *)
Definition assign_all (keys : list string) (value : string)
    (qaMemory : gmap string string) : gmap string string :=
  fold_left (fun m key => <[key := value]> m) keys qaMemory.

(** [{ ...qaMemory, ...imported }]: the later spread wins. *)
Definition spread_merge (qaMemory imported : gmap string string)
  : gmap string string :=
  imported ∪ qaMemory.

Definition asset_of (name data type : string) (size : Z) : Asset :=
  {| a_name := name; a_data := data; a_type := type; a_size := size |}.

Section Host.
Variable quota : Storage -> bool.

(** [JSON.stringify(_, null, 2)] and [JSON.parse] of the host, on
    question-to-answer objects; [None] is a thrown [SyntaxError]. A
    text that parses to another value ([null], a number, an array, an
    object with values that are no strings) is outside the embedding. *)
Variable JSON_stringify : gmap string string -> string.
Variable JSON_parse : string -> option (gmap string string).

(** The export handler; the result is the content of the downloaded
    file [qa_memory.json]. *)
Definition exportMemory : M string :=
  w ← get_storage;
  let json := JSON_stringify (qaMemory w) in
  alert "Memory exported!";;
  mret json.

(** The import handler, once the user has picked a file with that
    content. *)
Definition importMemory (text : string) : M unit :=
  try_catch
    (match JSON_parse text with
     | None => throw "SyntaxError"
     | Some imported =>
         s ← get_storage;
         let merged := spread_merge (qaMemory s) imported in
         storage_set quota "qaMemory" (fun s => with_qaMemory s merged);;
         alert "Imported items"
     end)
    (fun err => alert ("Error importing: " ++ err)).

(** [reader.onload] of the resume upload, for a chosen file. *)
Definition uploadResume (name data type : string) (size : Z) : M unit :=
  storage_set quota "resume" (fun s => with_resume s (asset_of name data type size));;
  s ← get_storage;
  let qaMemory' := assign_all resumeKeys name (qaMemory s) in
  storage_set quota "qaMemory" (fun s => with_qaMemory s qaMemory');;
  alert ("Resume uploaded: " ++ name).

Definition uploadCoverLetter (name data type : string) (size : Z) : M unit :=
  storage_set quota "coverLetter"
    (fun s => with_coverLetter s (asset_of name data type size));;
  s ← get_storage;
  let qaMemory' := assign_all coverLetterKeys name (qaMemory s) in
  storage_set quota "qaMemory" (fun s => with_qaMemory s qaMemory');;
  alert ("Cover Letter uploaded: " ++ name).

End Host.

End Popup.

(* ===================================================================== *)
(** ** An instance of the host's JSON functions *)
(* ===================================================================== *)

(** [JSON.stringify(_, null, 2)] and [JSON.parse] restricted to objects
    whose members are strings, which is what a question-to-answer memory
    is. They instantiate the host functions the popup is written against. *)
Module Json.

Definition dquote : ascii := "034"%char.
Definition backslash : ascii := "092"%char.
Definition newline : ascii := "010"%char.

Definition hex_digit (n : N) : ascii :=
  if (n <? 10)%N then ascii_of_N (48 + n) else ascii_of_N (87 + n).

Definition two (a b : ascii) : string := String a (String b EmptyString).

Definition escape (c : ascii) : string :=
  let n := N_of_ascii c in
  if (n =? 34)%N then two backslash dquote
  else if (n =? 92)%N then two backslash backslash
  else if (n =? 8)%N then "\b"
  else if (n =? 9)%N then "\t"
  else if (n =? 10)%N then "\n"
  else if (n =? 12)%N then "\f"
  else if (n =? 13)%N then "\r"
  else if (n <? 32)%N then
    "\u00" ++ two (hex_digit (n / 16)) (hex_digit (n mod 16))
  else String c EmptyString.

Fixpoint quote_body (s : string) : string :=
  match s with
  | EmptyString => String dquote EmptyString
  | String c t => escape c ++ quote_body t
  end.

Definition quote (s : string) : string := String dquote (quote_body s).

Definition member (kv : string * string) : string :=
  "  " ++ quote (fst kv) ++ ": " ++ quote (snd kv).

Fixpoint members (l : list (string * string)) : string :=
  match l with
  | [] => EmptyString
  | [kv] => member kv ++ String newline EmptyString
  | kv :: rest => member kv ++ String "," (String newline (members rest))
  end.

Definition stringify_entries (l : list (string * string)) : string :=
  match l with
  | [] => "{}"
  | _ => String "{" (String newline (members l)) ++ "}"
  end.

Definition stringify (m : gmap string string) : string :=
  stringify_entries (map_to_list m).

(** The parser is a machine reading one character at a time. *)
Inductive Mode :=
| AtStart | AfterOpen | InString | InEscape | InHex (digits : nat) (code : N)
| AfterKey | AfterColon | AfterValue | AfterComma | AtEnd.

Record PState := {
  mode : Mode;
  in_value : bool;
  key : string;
  cur : string;              (* characters of the string being read, reversed *)
  acc : gmap string string
}.

Definition goto (st : PState) (m : Mode) : PState :=
  {| mode := m; in_value := in_value st; key := key st; cur := cur st; acc := acc st |}.

Definition push (st : PState) (c : ascii) : PState :=
  {| mode := InString; in_value := in_value st; key := key st;
     cur := String c (cur st); acc := acc st |}.

Definition open_string (st : PState) (value : bool) : PState :=
  {| mode := InString; in_value := value; key := key st;
     cur := EmptyString; acc := acc st |}.

Definition close_string (st : PState) : PState :=
  let text := String.rev (cur st) in
  if in_value st
  then {| mode := AfterValue; in_value := false; key := EmptyString;
          cur := EmptyString; acc := <[key st := text]> (acc st) |}
  else {| mode := AfterKey; in_value := false; key := text;
          cur := EmptyString; acc := acc st |}.

Definition is_ws (c : ascii) : bool :=
  let n := N_of_ascii c in
  ((n =? 32) || (n =? 9) || (n =? 10) || (n =? 13))%N.

Definition hex_value (c : ascii) : option N :=
  let n := N_of_ascii c in
  if ((48 <=? n) && (n <=? 57))%N then Some (n - 48)%N
  else if ((97 <=? n) && (n <=? 102))%N then Some (n - 87)%N
  else if ((65 <=? n) && (n <=? 70))%N then Some (n - 55)%N
  else None.

Definition unescape (c : ascii) : option ascii :=
  let n := N_of_ascii c in
  if (n =? 34)%N then Some dquote
  else if (n =? 92)%N then Some backslash
  else if (n =? 47)%N then Some "/"%char
  else if (n =? 98)%N then Some "008"%char
  else if (n =? 102)%N then Some "012"%char
  else if (n =? 110)%N then Some "010"%char
  else if (n =? 114)%N then Some "013"%char
  else if (n =? 116)%N then Some "009"%char
  else None.

Definition step (st : PState) (c : ascii) : option PState :=
  let n := N_of_ascii c in
  match mode st with
  | AtStart =>
      if is_ws c then Some st
      else if (n =? 123)%N then Some (goto st AfterOpen) else None
  | AfterOpen =>
      if is_ws c then Some st
      else if (n =? 34)%N then Some (open_string st false)
      else if (n =? 125)%N then Some (goto st AtEnd) else None
  | InString =>
      if (n =? 34)%N then Some (close_string st)
      else if (n =? 92)%N then Some (goto st InEscape)
      else if (n <? 32)%N then None
      else Some (push st c)
  | InEscape =>
      if (n =? 117)%N then Some (goto st (InHex 4 0))
      else match unescape c with
           | Some d => Some (push st d)
           | None => None
           end
  | InHex digits code =>
      match hex_value c with
      | None => None
      | Some h =>
          let code := (code * 16 + h)%N in
          match digits with
          | 1 => if (code <? 256)%N then Some (push st (ascii_of_N code)) else None
          | S digits' => Some (goto st (InHex digits' code))
          | O => None
          end
      end
  | AfterKey =>
      if is_ws c then Some st
      else if (n =? 58)%N then Some (goto st AfterColon) else None
  | AfterColon =>
      if is_ws c then Some st
      else if (n =? 34)%N then Some (open_string st true) else None
  | AfterValue =>
      if is_ws c then Some st
      else if (n =? 44)%N then Some (goto st AfterComma)
      else if (n =? 125)%N then Some (goto st AtEnd) else None
  | AfterComma =>
      if is_ws c then Some st
      else if (n =? 34)%N then Some (open_string st false) else None
  | AtEnd => if is_ws c then Some st else None
  end.

Fixpoint run (st : PState) (text : string) : option (gmap string string) :=
  match text with
  | EmptyString =>
      match mode st with
      | AtEnd => Some (acc st)
      | _ => None
      end
  | String c rest =>
      match step st c with
      | Some st' => run st' rest
      | None => None
      end
  end.

(** The state after a piece of the text, used to follow the machine
    through a printed object. *)
Fixpoint feed (st : PState) (text : string) : option PState :=
  match text with
  | EmptyString => Some st
  | String c rest =>
      match step st c with
      | Some st' => feed st' rest
      | None => None
      end
  end.

Definition reading (value : bool) (k cu : string) (ac : gmap string string) : PState :=
  {| mode := InString; in_value := value; key := k; cur := cu; acc := ac |}.

Definition read_value (ac : gmap string string) : PState :=
  {| mode := AfterValue; in_value := false; key := EmptyString;
     cur := EmptyString; acc := ac |}.

Definition put (m : gmap string string) (kv : string * string) : gmap string string :=
  <[fst kv := snd kv]> m.

Definition parse (text : string) : option (gmap string string) :=
  run {| mode := AtStart; in_value := false; key := EmptyString;
         cur := EmptyString; acc := ∅ |} text.

End Json.

(* ===================================================================== *)
(** ** Vocabulary of the stated properties *)
(* ===================================================================== *)

Module Spec.
Import Dom Store Run Content.

(** Case-insensitive equality and containment of display texts. *)
Definition same_ignoring_case (a b : string) : Prop :=
  JS.toLowerCase a = JS.toLowerCase b.

Definition contains_ignoring_case (hay needle : string) : Prop :=
  exists before after,
    JS.toLowerCase hay = before ++ JS.toLowerCase needle ++ after.

Definition matches_exactly (answer : string) (opt : OptionEl) : Prop :=
  same_ignoring_case (opt_text opt) answer.

Definition matches_partially (answer : string) (opt : OptionEl) : Prop :=
  contains_ignoring_case (opt_text opt) answer \/
  contains_ignoring_case answer (opt_text opt).

(** The world after control [i] (which was [sel]) took the value of
    [opt] and a change notification was emitted. *)
Definition chosen (w : World) (i : nat) (sel : Element) (opt : OptionEl) : World :=
  with_log
    (with_page w (with_elements (page w)
       (<[i := with_value sel (opt_value opt)]> (elements (page w)))))
    (EvDispatch i "change" :: log w).

Definition mkOption (text value : string) : OptionEl :=
  {| opt_text := text; opt_value := value |}.

(** A visible control with nothing set, used to build examples. *)
Definition blank (tag : Tag) (type : string) : Element :=
  {| tagName := tag; el_type := type; el_name := EmptyString;
     el_id := EmptyString; el_placeholder := EmptyString; el_labels := [];
     el_required_prop := false; el_required_attr := false;
     rect_width := 200; rect_height := 24;
     style_display := "block"; style_visibility := "visible";
     el_options := []; el_rejects := false;
     el_value := EmptyString; el_files := [] |}.

Definition labelled (el : Element) (label : string) : Element :=
  {| tagName := tagName el; el_type := el_type el; el_name := el_name el;
     el_id := el_id el; el_placeholder := el_placeholder el;
     el_labels := [label]; el_required_prop := el_required_prop el;
     el_required_attr := el_required_attr el; rect_width := rect_width el;
     rect_height := rect_height el; style_display := style_display el;
     style_visibility := style_visibility el; el_options := el_options el;
     el_rejects := el_rejects el;
     el_value := el_value el; el_files := el_files el |}.

Definition required (el : Element) : Element :=
  {| tagName := tagName el; el_type := el_type el; el_name := el_name el;
     el_id := el_id el; el_placeholder := el_placeholder el;
     el_labels := el_labels el; el_required_prop := true;
     el_required_attr := true; rect_width := rect_width el;
     rect_height := rect_height el; style_display := style_display el;
     style_visibility := style_visibility el; el_options := el_options el;
     el_rejects := el_rejects el;
     el_value := el_value el; el_files := el_files el |}.

Definition with_options (el : Element) (opts : list OptionEl) : Element :=
  {| tagName := tagName el; el_type := el_type el; el_name := el_name el;
     el_id := el_id el; el_placeholder := el_placeholder el;
     el_labels := el_labels el; el_required_prop := el_required_prop el;
     el_required_attr := el_required_attr el; rect_width := rect_width el;
     rect_height := rect_height el; style_display := style_display el;
     style_visibility := style_visibility el; el_options := opts;
     el_rejects := el_rejects el;
     el_value := el_value el; el_files := el_files el |}.

Definition form_page (els : list Element) : Page :=
  {| elements := els; for_labels := []; buttons := []; containers := [];
     innerWidth := 1280; body_innerText := EmptyString |}.

Definition empty_storage : Storage :=
  {| qaMemory := ∅; resume := None; coverLetter := None |}.

Definition world_of (p : Page) (s : Storage) (replies : list (option string)) : World :=
  {| page := p; storage := s; answers := replies; log := [] |}.

(** The experience dropdown of the design document. *)
Definition experience_options : list OptionEl :=
  [ mkOption "0-1 years" "a"; mkOption "1-2 years" "b"; mkOption "2-3 years" "c" ].

Definition experience_select : Element :=
  with_options (blank SELECT "select-one") experience_options.

Definition experience_world : World :=
  world_of (form_page [experience_select]) empty_storage [].

(** The reading of the empty-answer case under which the control always
    ends on its first option. *)
Definition empty_answer_selects_first_option : Prop :=
  forall (w : World) (i : nat) (sel : Element) (first : OptionEl) (rest : list OptionEl),
    elements (page w) !! i = Some sel ->
    el_rejects sel = false ->
    el_options sel = first :: rest ->
    selectBestOption i EmptyString w = (Normal true, chosen w i sel first).

(** A dropdown whose placeholder option, with no text, comes last. *)
Definition trailing_blank_options : list OptionEl :=
  [ mkOption "Yes" "yes"; mkOption EmptyString "none" ].

Definition trailing_blank_select : Element :=
  with_options (blank SELECT "select-one") trailing_blank_options.

Definition trailing_blank_world : World :=
  world_of (form_page [trailing_blank_select]) empty_storage [].

(** The completion tokens looked for after a submit. *)
Definition completion_tokens : list string :=
  [ "thank"; "success"; "submitted"; "received" ].

(** The tokens that make a control a submit control, and the text of a
    control as the scan reads it. *)
Definition submit_tokens : list string := [ "submit"; "apply"; "send" ].

Definition shown_text (btn : Button) : string :=
  JS.or_else (b_innerText btn) (b_value btn).

(** The world after button [b] was activated and the settle delay
    elapsed, under the page's reaction [react]. *)
Definition after_click (react : Event -> Page -> Page) (ms : Z) (b : nat)
    (w : World) : World :=
  with_log
    (with_page w (react (EvSleep ms) (react (EvClickButton b) (page w))))
    (EvSleep ms :: EvClickButton b :: log w).

(** A page with one submit button that shows a thank-you text once the
    button was activated. *)
Definition submit_button : Button :=
  {| b_kind := BUTTON; b_innerText := "Submit Application"; b_value := EmptyString;
     b_offsetParent := true; b_disabled := false |}.

Definition hidden_submit_button : Button :=
  {| b_kind := BUTTON; b_innerText := "Submit"; b_value := EmptyString;
     b_offsetParent := false; b_disabled := false |}.

Definition submit_page : Page :=
  {| elements := []; for_labels := []; buttons := [hidden_submit_button; submit_button];
     containers := []; innerWidth := 1280; body_innerText := "Apply for this job" |}.

Definition thanks_after_click (ev : Event) (p : Page) : Page :=
  match ev with
  | EvClickButton _ =>
      {| elements := elements p; for_labels := for_labels p; buttons := buttons p;
         containers := containers p; innerWidth := innerWidth p;
         body_innerText := "Thank you for applying to Acme." |}
  | _ => p
  end.

Definition submit_world : World := world_of submit_page empty_storage [].

(** A host that never refuses a write, and one that refuses every write. *)
Definition unlimited (s : Storage) : bool := true.
Definition exhausted (s : Storage) : bool := false.

(** A memory with an answer and an earlier resume name. *)
Definition sample_memory : gmap string string :=
  <["phone" := "9998887777"]> (<["resume" := "old.pdf"]> (<["notice period" := "0"]> ∅)).

Definition sample_storage : Storage :=
  {| qaMemory := sample_memory; resume := None; coverLetter := None |}.

Definition popup_world (s : Storage) : World :=
  {| page := form_page []; storage := s; answers := []; log := [] |}.

(** Two states of one control: everything but the value and the chosen
    files is the same. *)
Definition same_control (e e' : Element) : Prop :=
  e' = with_files e (el_files e') (el_value e').

(** [p'] differs from [p] at most in the state of control [i]. *)
Definition modifies_only (i : nat) (p p' : Page) : Prop :=
  exists els,
    p' = with_elements p els /\
    length els = length (elements p) /\
    (forall j, j <> i -> els !! j = elements p !! j) /\
    (forall e, elements p !! i = Some e ->
               exists e', els !! i = Some e' /\ same_control e e').

(** Every control that held a value in [p] is the same in [p']. *)
Definition preserves_filled (p p' : Page) : Prop :=
  forall i e,
    elements p !! i = Some e -> el_value e <> EmptyString ->
    elements p' !! i = Some e.

(** No prompt is answered: every reply is a cancel or the empty text. *)
Definition all_declined (replies : list (option string)) : Prop :=
  Forall (fun reply => supplied reply = None) replies.

(** Controls and worlds of the scenarios. *)
Definition phone_field : Element :=
  required (labelled (blank INPUT "text") "Phone").

Definition email_field : Element :=
  required (labelled (blank INPUT "email") "Email").

Definition phone_world (reply : option string) : World :=
  world_of (form_page [phone_field]) empty_storage [reply].

Definition phone_memory (answer : string) : gmap string string :=
  <["phone" := answer]> ∅.

Definition fill_result (filled asked total : nat) : FillResult :=
  {| success := true; filledCount := filled; askedCount := asked;
     totalFields := total |}.

(** A control on which the host refuses programmatic assignment. *)
Definition rejecting (el : Element) : Element :=
  {| tagName := tagName el; el_type := el_type el; el_name := el_name el;
     el_id := el_id el; el_placeholder := el_placeholder el;
     el_labels := el_labels el; el_required_prop := el_required_prop el;
     el_required_attr := el_required_attr el; rect_width := rect_width el;
     rect_height := rect_height el; style_display := style_display el;
     style_visibility := style_visibility el; el_options := el_options el;
     el_rejects := true;
     el_value := el_value el; el_files := el_files el |}.

(** Two required text fields and a human who answers both prompts. *)
Definition two_field_world : World :=
  world_of (form_page [phone_field; email_field]) empty_storage
    [Some "9998887777"; Some "me@example.org"].

(** A remembered answer for a field the host will not let be assigned,
    followed by a field the human is ready to answer. *)
Definition email_memory : gmap string string := <["email" := "me@example.org"]> ∅.

Definition rejected_text_world : World :=
  world_of (form_page [rejecting email_field; phone_field])
    {| qaMemory := email_memory; resume := None; coverLetter := None |}
    [Some "9998887777"].

(** A file field the host will not let be assigned, with a stored
    resume, followed by the same phone field. *)
Definition resume_field : Element :=
  rejecting (required (labelled (blank INPUT "file") "Resume")).

Definition stored_resume : Asset :=
  {| a_name := "cv-2024.pdf"; a_data := "data:application/pdf;base64,JVBERi0=";
     a_type := "application/pdf"; a_size := 9 |}.

Definition rejected_file_world : World :=
  world_of (form_page [resume_field; phone_field])
    {| qaMemory := ∅; resume := Some stored_resume; coverLetter := None |}
    [Some "9998887777"].

(** What the loop body of the standard pass is about to do to the
    control it visits when no prompt is answered. *)
Inductive Intent :=
| Leave
| Attach (name : string)
| Assign (v : string).

(** The option the matcher settles on. *)
Definition pick (options : list OptionEl) (answer : string) : option OptionEl :=
  match first_option (exact_match answer) options with
  | Some opt => Some opt
  | None => first_option (partial_match answer) options
  end.

Definition intent (resume coverLetter : option Asset) (mem : gmap string string)
    (field : Field) (el : Element) : Intent :=
  if JS.truthy (el_value el) then Leave else
  let question := question_of field in
  if negb (JS.truthy question) then Leave else
  if String.eqb (f_type field) "file" then
    match (if JS.includes question "resume" || JS.includes question "cv"
           then resume else None) with
    | Some r => Attach (a_name r)
    | None =>
        match (if JS.includes question "cover" || JS.includes question "letter"
               then coverLetter else None) with
        | Some c => Attach (a_name c)
        | None => Leave
        end
    end
  else
    let remembered := recall mem question in
    match (if JS.includes question "resume" || JS.includes question "cv"
           then (match resume with Some _ => remembered | None => None end)
           else None) with
    | Some v => Assign v
    | None =>
    match (if JS.includes question "cover" && JS.includes question "letter"
           then (match coverLetter with Some _ => remembered | None => None end)
           else None) with
    | Some v => Assign v
    | None =>
    match remembered with
    | Some answer =>
        if String.eqb (f_tag field) "select" then
          match pick (el_options el) answer with
          | Some opt => Assign (opt_value opt)
          | None => Leave
          end
        else Assign answer
    | None => Leave
    end
    end
    end.

Definition carried_out (it : Intent) (el : Element) : Element :=
  match it with
  | Leave => el
  | Attach name =>
      if el_rejects el then el else with_files el [name] (fakepath name)
  | Assign v =>
      if el_rejects el then el else with_value el (assigned_value el v)
  end.

(** An assignment outside the file branch is not guarded. *)
Definition aborts (it : Intent) (el : Element) : bool :=
  match it with
  | Assign _ => el_rejects el
  | _ => false
  end.

(** The pages agree up to the state of their controls. *)
Definition same_controls (p p' : Page) : Prop :=
  exists els,
    p' = with_elements p els /\ Forall2 same_control (elements p) els.

(** The same dropdown behind a placeholder option, as pages show it. *)
Definition experience_dropdown : Element :=
  labelled
    (with_options (blank SELECT "select-one")
       (mkOption "Please select" EmptyString :: experience_options))
    "Experience".

(** A page with a remembered answer, a dropdown, a field nobody can
    answer and a field the user has typed in already. *)
Definition mixed_memory : gmap string string :=
  <["email" := "me@example.org"]> (<["experience" := "2-3"]> ∅).

Definition mixed_page : Page :=
  form_page
    [ email_field;
      experience_dropdown;
      phone_field;
      with_value (labelled (blank TEXTAREA "textarea") "Email") "typed@by.hand" ].

Definition mixed_world : World :=
  world_of mixed_page
    {| qaMemory := mixed_memory; resume := None; coverLetter := None |}
    [None].

Definition again_after (w : World) : World :=
  {| page := page w; storage := storage w; answers := [Some EmptyString; None]; log := [] |}.

(** Each iteration of the panel loop starts with its one-second pause,
    and nothing else pauses for that long: the iterations performed are
    the one-second pauses in the log. *)
Definition starts_iteration (ev : Event) : bool :=
  match ev with
  | EvSleep ms => (ms =? 1000)%Z
  | _ => false
  end.

Definition iterations (events : list Event) : nat :=
  length (List.filter starts_iteration events).

(** A page that never stops asking: from every page satisfying [stuck],
    an iteration finds a panel with a question and a fillable input,
    has the answer in memory, fills the input and finds a save button,
    and the page that results is [stuck] again. *)
Definition keeps_asking (react : Event -> Page -> Page)
    (memory : gmap string string) (stuck : Page -> Prop) : Prop :=
  forall p, stuck p ->
    let p1 := react (EvSleep 1000) p in
    exists question answer,
      found (findNaukriSidebar p1) = true /\
      head (questions (findNaukriSidebar p1)) = Some question /\
      inputs (findNaukriSidebar p1) <> [] /\
      recall memory (JS.trim (JS.toLowerCase question)) = Some answer /\
      forall w, page w = p1 ->
        exists w' b,
          fillNaukriInput react answer w = (Normal true, w') /\
          find_save_button (page w') (containers (page w')) = Some b /\
          stuck (react (EvSleep 2000) (react (EvClickButton b) (page w'))).

(** The synthetic panel: one question, one input, a save button that
    empties the input again and shows the same question. *)
Definition panel_question : string := "What is your notice period?".

Definition panel_page : Page :=
  {| elements := [blank INPUT "text"];
     for_labels := [];
     buttons := [ {| b_kind := BUTTON; b_innerText := "Save"; b_value := EmptyString;
                     b_offsetParent := true; b_disabled := false |} ];
     containers := [ {| c_width := 420; c_height := 640;
                        c_innerText := panel_question;
                        c_controls := [0]; c_buttons := [0] |} ];
     innerWidth := 1280;
     body_innerText := panel_question |}.

Definition panel_react (ev : Event) (p : Page) : Page :=
  match ev with
  | EvClickButton _ =>
      with_elements p (map (fun el => with_value el EmptyString) (elements p))
  | _ => p
  end.

Definition panel_memory : gmap string string :=
  <["what is your notice period?" := "30 days"]> ∅.

Definition panel_world : World :=
  world_of panel_page
    {| qaMemory := panel_memory; resume := None; coverLetter := None |} [].

(** A computation that changes the page at most in control [i]. *)
Definition confined {A} (i : nat) (m : M A) : Prop :=
  forall w, modifies_only i (page w) (page (snd (m w))).

(** The effect of one step of the loop on world [w], whose control
    [f_element field] is [el]: [it] is carried out. *)
Definition lands (it : Intent) (field : Field) (st : Locals) (w : World)
    (el : Element) (r : Completion Locals * World) : Prop :=
  page (snd r)
    = with_elements (page w) (<[f_element field := carried_out it el]> (elements (page w))) /\
  storage (snd r) = storage w /\
  all_declined (answers (snd r)) /\
  (if aborts it el
   then exists err, fst r = Throw err
   else exists st', fst r = Normal st' /\ l_qaMemory st' = l_qaMemory st).

(** A computation that only adds events to the log, none of which
    starts an iteration. *)
Definition quiet {A} (m : M A) : Prop :=
  forall w, exists delta,
    log (snd (m w)) = (delta ++ log w)%list /\ iterations delta = 0.

(** A loop that performs at most [n] further iterations and, when it
    returns, returns the number of iterations performed on top of the
    [a] counted before. *)
Definition bounded (n a : nat) (m : M (Exit * nat)) : Prop :=
  forall w, exists delta,
    log (snd (m w)) = (delta ++ log w)%list /\
    iterations delta <= n /\
    forall exit k, fst (m w) = Normal (exit, k) -> k = a + iterations delta.

End Spec.

(* ===================================================================== *)
(** ** The content script in automatic mode *)
(* ===================================================================== *)

Module Auto.
Import Dom Store Run Content.

(** [f.element.value], read through the reference the descriptor holds. *)
Definition value_of (p : Page) (field : Field) : string :=
  match elements p !! f_element field with
  | Some el => el_value el
  | None => EmptyString
  end.

Definition findEmptyRequiredFields (p : Page) : list Field :=
  List.filter (fun f => f_required f && negb (JS.truthy (value_of p f)))
              (findAllFields p).

(** How an automatic pass over a page ends: with the [jobCompleted]
    message sent to the extension, or with one of the dialogs that hand
    the page back to the human. *)
Inductive Ending :=
| JobCompleted
| SubmitManually
| ReadyNotSubmitted
| FillManually
| CompleteManually.

(** The success phrases of the job board. *)
Definition application_text (bodyText : string) : bool :=
  JS.includes bodyText "application sent" ||
  JS.includes bodyText "applied successfully" ||
  JS.includes bodyText "already applied".

Section Host.
Variable quota : Storage -> bool.
Variable react : Event -> Page -> Page.
(** The reply the human gives to the confirmation dialog, which is shown
    at most once; the dialog leaves no trace in the log. *)
Variable confirm : bool.

(** What [autoProcess] does once the fill pass has returned, from the
    check of the required fields on. *)
Definition conclude : M Ending :=
  w ← get_world;
  let emptyRequired := findEmptyRequiredFields (page w) in
  match emptyRequired with
  | [] =>
      if confirm then
        submitResult ← submitForm react;
        if s_success submitResult || s_clicked submitResult then
          sleep react 3000;;
          mret JobCompleted
        else
          alert "Could not find submit button. Please submit manually and click Next Job.";;
          mret SubmitManually
      else
        alert "Form ready but not submitted. Click Next Job when done.";;
        mret ReadyNotSubmitted
  | _ :: _ =>
      alert ("Please fill " ++ pretty (length emptyRequired) ++
             " required field(s) manually: " ++
             String.concat (String "010"%char EmptyString)
               (f_label <$> take 3 emptyRequired));;
      mret FillManually
  end.

Definition autoProcess : M Ending :=
  applyResult ← clickApplyButton react;
  (if a_success applyResult then sleep react 3000 else mret tt);;
  fillFormWithMemory quota;;
  conclude.

Definition autoProcessNaukri : M Ending :=
  applyResult ← clickApplyButton react;
  (if a_success applyResult then sleep react 4000 else mret tt);;
  handleNaukriSidebar quota react;;
  w ← get_world;
  let bodyText := JS.toLowerCase (body_innerText (page w)) in
  if application_text bodyText then
    sleep react 2000;;
    mret JobCompleted
  else
    alert "Please complete the Naukri application manually, then click Next Job";;
    mret CompleteManually.

End Host.

End Auto.

(* ===================================================================== *)
(** ** The popup: the job queue *)
(* ===================================================================== *)

Module Queue.
Import JS.

(** An entry of the queue; [j_status] is the string the script stores. *)
Record Job := { j_name : string; j_url : string; j_status : string }.

(** *** Reading the pasted lines *)

(** [[^\s,]], with the ASCII white space for [\s]. *)
Definition is_url_char (c : ascii) : bool :=
  negb (is_space c) && negb (Ascii.eqb c ","%char).

Fixpoint url_chars (s : string) : string :=
  match s with
  | EmptyString => EmptyString
  | String c t => if is_url_char c then String c (url_chars t) else EmptyString
  end.

Fixpoint skip (n : nat) (s : string) : string :=
  match n, s with
  | S n', String _ t => skip n' t
  | _, _ => s
  end.

(** [s.substring(0, n)] *)
Fixpoint substring_to (n : nat) (s : string) : string :=
  match n, s with
  | S n', String c t => String c (substring_to n' t)
  | _, _ => EmptyString
  end.

Definition with_scheme (scheme s : string) : option string :=
  if String.prefix scheme s then
    match url_chars (skip (String.length scheme) s) with
    | EmptyString => None
    | rest => Some (scheme ++ rest)
    end
  else None.

(** The match of [https?:\/\/[^\s,]+] that begins where [s] begins. *)
Definition url_here (s : string) : option string :=
  match with_scheme "https://" s with
  | Some url => Some url
  | None => with_scheme "http://" s
  end.

(** [line.match(/(https?:\/\/[^\s,]+)/)[1]]: the leftmost match. *)
Fixpoint match_url (s : string) : option string :=
  match url_here s with
  | Some url => Some url
  | None =>
      match s with
      | EmptyString => None
      | String _ t => match_url t
      end
  end.

(** [hay.indexOf(needle)]; [None] is -1. *)
Fixpoint indexOf (hay needle : string) : option nat :=
  if String.prefix needle hay then Some 0
  else match hay with
       | EmptyString => None
       | String _ t => S <$> indexOf t needle
       end.

Definition is_trailer (c : ascii) : bool :=
  Ascii.eqb c ","%char || Ascii.eqb c "["%char || Ascii.eqb c "]"%char.

(** [name.replace(/[,\[\]]+$/, EmptyString)] *)
Fixpoint strip_trailing (s : string) : string :=
  match s with
  | EmptyString => EmptyString
  | String c t =>
      match strip_trailing t with
      | EmptyString => if is_trailer c then EmptyString else String c EmptyString
      | t' => String c t'
      end
  end.

(** [url.split('/')] *)
Fixpoint split_slash (s : string) : list string :=
  match s with
  | EmptyString => [EmptyString]
  | String c t =>
      if Ascii.eqb c "/"%char then EmptyString :: split_slash t
      else match split_slash t with
           | segment :: rest => String c segment :: rest
           | [] => [String c EmptyString]
           end
  end.

(** [url.split('/').filter(p => p).pop()]; [None] is [undefined]. *)
Definition last_segment (url : string) : option string :=
  last (List.filter truthy (split_slash url)).

(** The name given to the job read from [line] with address [url]; [i]
    is the index of the line and [count] the number of jobs read so
    far. *)
Definition name_of (line url : string) (i count : nat) : string :=
  let before :=
    match indexOf line url with
    | Some n => substring_to n line
    | None => EmptyString
    end in
  let name := trim (strip_trailing (trim before)) in
  let name :=
    if truthy name then name
    else match last_segment url with
         | Some segment => or_else segment ("Job " ++ pretty i)
         | None => "Job " ++ pretty i
         end in
  or_else name ("Job " ++ pretty (S count)).

Section Host.
(** Whether [new URL(url)] accepts the text. *)
Variable valid_url : string -> bool.
(** Whether the host accepts a write that leaves these jobs, this index
    and this flag in [chrome.storage.local]. *)
Variable quota : list Job -> nat -> bool -> bool.

(** The body of the loop over the lines. *)
Definition read_line (i : nat) (line : string) (parsedJobs : list Job) : list Job :=
  let line := trim line in
  if negb (truthy line) then parsedJobs else
  match match_url line with
  | Some url =>
      if valid_url url then
        (parsedJobs ++ [ {| j_name := name_of line url i (length parsedJobs);
                            j_url := url; j_status := "pending" |} ])%list
      else parsedJobs
  | None => parsedJobs
  end.

Fixpoint read_lines (i : nat) (lines : list string) (parsedJobs : list Job)
  : list Job :=
  match lines with
  | [] => parsedJobs
  | line :: rest => read_lines (S i) rest (read_line i line parsedJobs)
  end.

(** The jobs read from the pasted text; [None] is the [TypeError] of
    [lines[0].toLowerCase()] on an empty array. *)
Definition parse_csv (csv : string) : option (list Job) :=
  let lines := List.filter (fun line => truthy (trim line)) (split_lines csv) in
  match lines with
  | [] => None
  | first :: _ =>
      let firstLine := toLowerCase first in
      let startIndex :=
        if includes firstLine "name" && includes firstLine "url" then 1 else 0 in
      Some (read_lines startIndex (drop startIndex lines) [])
  end.

(** *** The queue and its handlers *)

(** The three globals of the script, what [chrome.storage.local] holds
    of them, the address the active tab was last sent to, the dialogs
    shown (latest first) and the status line. *)
Record State := {
  jobs : list Job;
  currentJobIndex : nat;
  isRunning : bool;
  saved_jobs : list Job;
  saved_index : nat;
  saved_running : bool;
  tab_url : option string;
  dialogs : list string;
  status_line : string
}.

(** A handler returns, or ends in a rejection. *)
Inductive Outcome :=
| Done (s : State)
| Rejected (s : State).

Definition state_of (o : Outcome) : State :=
  match o with Done s | Rejected s => s end.

Definition show (message : string) (s : State) : State :=
  {| jobs := jobs s; currentJobIndex := currentJobIndex s; isRunning := isRunning s;
     saved_jobs := saved_jobs s; saved_index := saved_index s;
     saved_running := saved_running s; tab_url := tab_url s;
     dialogs := message :: dialogs s; status_line := status_line s |}.

Definition updateStatus (message : string) (s : State) : State :=
  {| jobs := jobs s; currentJobIndex := currentJobIndex s; isRunning := isRunning s;
     saved_jobs := saved_jobs s; saved_index := saved_index s;
     saved_running := saved_running s; tab_url := tab_url s;
     dialogs := dialogs s; status_line := message |}.

Definition with_queue (s : State) (js : list Job) (i : nat) : State :=
  {| jobs := js; currentJobIndex := i; isRunning := isRunning s;
     saved_jobs := saved_jobs s; saved_index := saved_index s;
     saved_running := saved_running s; tab_url := tab_url s;
     dialogs := dialogs s; status_line := status_line s |}.

Definition with_running (s : State) (b : bool) : State :=
  {| jobs := jobs s; currentJobIndex := currentJobIndex s; isRunning := b;
     saved_jobs := saved_jobs s; saved_index := saved_index s;
     saved_running := saved_running s; tab_url := tab_url s;
     dialogs := dialogs s; status_line := status_line s |}.

Definition with_tab (s : State) (url : string) : State :=
  {| jobs := jobs s; currentJobIndex := currentJobIndex s; isRunning := isRunning s;
     saved_jobs := saved_jobs s; saved_index := saved_index s;
     saved_running := saved_running s; tab_url := Some url;
     dialogs := dialogs s; status_line := status_line s |}.

(** [await chrome.storage.local.set({ jobs, currentJobIndex })] *)
Definition save_queue (s : State) : Outcome :=
  if quota (jobs s) (currentJobIndex s) (saved_running s) then
    Done {| jobs := jobs s; currentJobIndex := currentJobIndex s;
            isRunning := isRunning s;
            saved_jobs := jobs s; saved_index := currentJobIndex s;
            saved_running := saved_running s; tab_url := tab_url s;
            dialogs := dialogs s; status_line := status_line s |}
  else Rejected s.

(** [await chrome.storage.local.set({ isRunning })] *)
Definition save_running (s : State) : Outcome :=
  if quota (saved_jobs s) (saved_index s) (isRunning s) then
    Done {| jobs := jobs s; currentJobIndex := currentJobIndex s;
            isRunning := isRunning s;
            saved_jobs := saved_jobs s; saved_index := saved_index s;
            saved_running := isRunning s; tab_url := tab_url s;
            dialogs := dialogs s; status_line := status_line s |}
  else Rejected s.

Definition navigateToCurrentJob (s : State) : State :=
  match jobs s !! currentJobIndex s with
  | Some job => with_tab (updateStatus ("Opening: " ++ j_name job) s) (j_url job)
  | None => updateStatus "All jobs completed" s
  end.

Definition loadJobs (input : string) (s : State) : Outcome :=
  let csv := trim input in
  if negb (truthy csv) then Done (show "Please paste CSV data" s) else
  match parse_csv csv with
  | None => Rejected s
  | Some [] => Done (show "No valid URLs found!" s)
  | Some parsedJobs =>
      match save_queue (with_queue s parsedJobs 0) with
      | Done s' => Done (show ("Loaded " ++ pretty (length parsedJobs) ++ " jobs") s')
      | Rejected s' => Rejected s'
      end
  end.

Definition startApplying (s : State) : Outcome :=
  match jobs s with
  | [] => Done (show "Please load jobs first!" s)
  | _ :: _ =>
      if (length (jobs s) <=? currentJobIndex s)%nat
      then Done (show "All jobs completed! Load new jobs to continue." s)
      else match save_running (with_running s true) with
           | Done s' => Done (navigateToCurrentJob s')
           | Rejected s' => Rejected s'
           end
  end.

Definition stopApplying (s : State) : Outcome :=
  match save_running (with_running s false) with
  | Done s' => Done (updateStatus "Stopped by user" s')
  | Rejected s' => Rejected s'
  end.

Definition complete (job : Job) : Job :=
  {| j_name := j_name job; j_url := j_url job; j_status := "completed" |}.

Definition nextJob (s : State) : Outcome :=
  match jobs s with
  | [] => Done (show "No jobs loaded" s)
  | _ :: _ =>
      match save_queue (with_queue s (alter complete (currentJobIndex s) (jobs s))
                          (S (currentJobIndex s))) with
      | Done s' =>
          if (currentJobIndex s' <? length (jobs s'))%nat
          then Done (navigateToCurrentJob s')
          else Done (updateStatus "All jobs completed" (show "All jobs completed!" s'))
      | Rejected s' => Rejected s'
      end
  end.

(** The popup is opened again: the globals are read back from the
    storage. *)
Definition loadState (s : State) : State :=
  let s' :=
    {| jobs := saved_jobs s; currentJobIndex := saved_index s;
       isRunning := saved_running s;
       saved_jobs := saved_jobs s; saved_index := saved_index s;
       saved_running := saved_running s; tab_url := tab_url s;
       dialogs := dialogs s; status_line := status_line s |} in
  if saved_running s then
    match saved_jobs s !! saved_index s with
    | Some job => updateStatus ("Current: " ++ j_name job) s'
    | None => s'
    end
  else s'.

Definition with_saved (s : State) (js : list Job) (i : nat) (running : bool) : State :=
  {| jobs := jobs s; currentJobIndex := currentJobIndex s; isRunning := isRunning s;
     saved_jobs := js; saved_index := i; saved_running := running;
     tab_url := tab_url s; dialogs := dialogs s; status_line := status_line s |}.

(** The background worker on a [jobCompleted] message: it works on the
    storage alone, whatever the globals of an open popup hold. *)
Definition handleJobCompletion (s : State) : Outcome :=
  if negb (saved_running s) then Done s else
  let js := alter complete (saved_index s) (saved_jobs s) in
  let nextIndex := S (saved_index s) in
  if quota js nextIndex (saved_running s) then
    let s' := with_saved s js nextIndex (saved_running s) in
    match js !! nextIndex with
    | Some nextJob => Done (with_tab s' (j_url nextJob))
    | None =>
        if quota js nextIndex false
        then Done (with_saved s js nextIndex false)
        else Rejected s'
    end
  else Rejected s.

(** The number shown as applied by [updateStats]. *)
Definition appliedCount (s : State) : nat :=
  length (List.filter (fun job => String.eqb (j_status job) "completed") (saved_jobs s)).

End Host.

End Queue.

(* ===================================================================== *)
(** ** The popup: the size of a stored file, as shown *)
(* ===================================================================== *)

Module Display.

(** [(num / den).toFixed(1)] for a power of two [den] and an integer
    [num] from 0 to below 2^53. Such a quotient is exact in double
    precision; [toFixed(1)] takes the integer [n] for which [n / 10]
    is nearest to it, the larger of two, and writes [n] with a point
    before its last digit. *)
Definition toFixed1 (num den : Z) : string :=
  let n := ((10 * num + den / 2) / den)%Z in
  pretty (n / 10)%Z ++ "." ++ pretty (n mod 10)%Z.

(** [bytes] is the size of a file: an integer from 0 to below 2^53. *)
Definition formatFileSize (bytes : Z) : string :=
  if (bytes <? 1024)%Z then pretty bytes ++ " B"
  else if (bytes <? 1024 * 1024)%Z then toFixed1 bytes 1024 ++ " KB"
  else toFixed1 bytes (1024 * 1024) ++ " MB".

End Display.

(* ===================================================================== *)
(** ** Vocabulary of further properties of the content script and the popup *)
(* ===================================================================== *)

Module Props.
Import Dom Store Run Content Spec.

(** The world after one click on button [b], under the page's reaction. *)
Definition clicked (react : Event -> Page -> Page) (b : nat) (w : World) : World :=
  with_log (with_page w (react (EvClickButton b) (page w))) (EvClickButton b :: log w).

(** The tokens that make a button of the panel a save button. *)
Definition save_tokens : list string := [ "save"; "submit"; "next"; "continue" ].

(** The box test of [findNaukriSidebar]: wider than 300, narrower than
    the viewport, taller than 200. *)
Definition panel_box (p : Page) (c : Container) : bool :=
  ((300 <? c_width c) && (c_width c <? innerWidth p) && (200 <? c_height c))%Z.

(** The box test of [fillNaukriInput]: wider than 300, taller than 200. *)
Definition fill_box (c : Container) : bool :=
  ((300 <? c_width c) && (200 <? c_height c))%Z.

(** What one container contributes to a panel snapshot. *)
Definition questions_in (c : Container) : list string :=
  fold_left add_question (JS.split_lines (c_innerText c)) [].

Definition bare (p : Page) (c : Container) : Prop :=
  questions_in c = [] /\ panel_inputs p c = [].

(** A line that is kept as a question. *)
Definition question_like (line : string) : Prop :=
  JS.includes line "?" = true /\
  (10 < String.length line < 300)%nat /\
  JS.includes line "http" = false.

(** A page whose only clickable says the job was applied to already. *)
Definition applied_button : Button :=
  {| b_kind := BUTTON; b_innerText := "Applied"; b_value := EmptyString;
     b_offsetParent := true; b_disabled := false |}.

Definition apply_link : Button :=
  {| b_kind := ANCHOR; b_innerText := "Apply Now"; b_value := EmptyString;
     b_offsetParent := true; b_disabled := false |}.

Definition apply_page : Page :=
  {| elements := []; for_labels := []; buttons := [applied_button; apply_link];
     containers := []; innerWidth := 1280; body_innerText := "Senior engineer" |}.

Definition becomes_applied (ev : Event) (p : Page) : Page :=
  match ev with
  | EvClickButton b =>
      {| elements := elements p; for_labels := for_labels p;
         buttons := <[b := applied_button]> (buttons p);
         containers := containers p; innerWidth := innerWidth p;
         body_innerText := body_innerText p |}
  | _ => p
  end.

Definition apply_world : World := world_of apply_page empty_storage [].

(** What [visible] asks of a control. *)
Definition hidden_types : list string := [ "hidden"; "submit"; "button"; "image" ].

(** A panel behind a page-wide wrapper: the wrapper holds a search box
    and is as wide as the viewport, the drawer holds the question. *)
Definition search_box : Element :=
  {| tagName := INPUT; el_type := "search"; el_name := "q"; el_id := EmptyString;
     el_placeholder := "Search jobs"; el_labels := [];
     el_required_prop := false; el_required_attr := false;
     rect_width := 300; rect_height := 32;
     style_display := "block"; style_visibility := "visible";
     el_options := []; el_rejects := false;
     el_value := EmptyString; el_files := [] |}.

Definition next_button : Button :=
  {| b_kind := BUTTON; b_innerText := "Next page"; b_value := EmptyString;
     b_offsetParent := true; b_disabled := false |}.

Definition save_button : Button :=
  {| b_kind := BUTTON; b_innerText := "Save"; b_value := EmptyString;
     b_offsetParent := true; b_disabled := false |}.

Definition wrapper : Container :=
  {| c_width := 1280; c_height := 2400;
     c_innerText := "Jobs for you";
     c_controls := [0; 1]; c_buttons := [0; 1] |}.

Definition drawer : Container :=
  {| c_width := 420; c_height := 640;
     c_innerText := panel_question;
     c_controls := [1]; c_buttons := [1] |}.

Definition wrapped_page : Page :=
  {| elements := [search_box; blank INPUT "text"];
     for_labels := [];
     buttons := [next_button; save_button];
     containers := [wrapper; drawer];
     innerWidth := 1280;
     body_innerText := panel_question |}.

Definition still (ev : Event) (p : Page) : Page := p.

Definition wrapped_world : World :=
  world_of wrapped_page
    {| qaMemory := panel_memory; resume := None; coverLetter := None |} [].

(** The inputs [fillNaukriInput] would try, in the order it tries them:
    the visible, empty, non-hidden inputs of each container that passes
    its box test, container after container. An input below several such
    containers is listed once for each. *)
Definition tried (p : Page) (i : nat) : bool :=
  match elements p !! i with
  | Some el => is_panel_input el && fillable el
  | None => false
  end.

Definition fill_candidates (p : Page) : list nat :=
  flat_map (fun c => if fill_box c then List.filter (tried p) (c_controls c) else [])
           (containers p).

Definition accepts (p : Page) (i : nat) : bool :=
  match elements p !! i with
  | Some el => negb (el_rejects el)
  | None => false
  end.

(** The page's scripts change nothing. *)
Definition passive (react : Event -> Page -> Page) : Prop :=
  forall ev p, react ev p = p.

Definition some_found (o : option nat) : bool :=
  match o with Some _ => true | None => false end.

Definition filled_page (answer : string) (p : Page) (o : option nat) : Page :=
  match o with
  | Some i =>
      match elements p !! i with
      | Some el => with_elements p (<[i := with_value el answer]> (elements p))
      | None => p
      end
  | None => p
  end.

Definition box_candidates (p : Page) (o : option Container) : list nat :=
  match o with
  | Some c => if fill_box c then List.filter (tried p) (c_controls c) else []
  | None => []
  end.

(** Dialogs and writes in a log. *)
Fixpoint count_prompts (evs : list Event) : nat :=
  match evs with
  | [] => 0
  | EvPrompt _ :: rest => S (count_prompts rest)
  | _ :: rest => count_prompts rest
  end.

Fixpoint count_sets (evs : list Event) : nat :=
  match evs with
  | [] => 0
  | EvStorageSet _ :: rest => S (count_sets rest)
  | _ :: rest => count_sets rest
  end.

(** A required field whose control is empty on page [p]. *)
Definition needs (p : Page) (field : Field) : bool :=
  f_required field && negb (JS.truthy (Auto.value_of p field)).

(** The locals with which the standard pass enters its loop. *)
Definition entry (w : World) : Locals :=
  {| l_qaMemory := qaMemory (storage w); l_filledCount := 0; l_askedCount := 0 |}.

(** Memory [m'] is memory [m] with, at most, answers added under the
    questions of required fields among [fields], none of them a question
    that [m] answers. *)
Definition grown_from (fields : list Field) (m m' : gmap string string) : Prop :=
  (forall q v, recall m q = Some v -> m' !! q = Some v) /\
  (forall q a, m' !! q = Some a ->
     m !! q = Some a \/
     (recall m q = None /\ JS.truthy a = true /\
      exists field, In field fields /\ f_required field = true /\ question_of field = q)).

Definition same_assets (s s' : Storage) : Prop :=
  Store.resume s' = Store.resume s /\ Store.coverLetter s' = Store.coverLetter s.

(** No control of the page refuses an assignment made by a script. *)
Definition assignable (p : Page) : Prop :=
  Forall (fun el => el_rejects el = false) (elements p).

(** A complete form with a send button, on a page that shows nothing
    new when the button is activated. *)
Definition send_button : Button :=
  {| b_kind := BUTTON; b_innerText := "Send"; b_value := EmptyString;
     b_offsetParent := true; b_disabled := false |}.

Definition send_page : Page :=
  {| elements := [with_value phone_field "9998887777"; labelled (blank INPUT "text") "Website"];
     for_labels := []; buttons := [send_button]; containers := [];
     innerWidth := 1280; body_innerText := "Contact details" |}.

Definition send_world : World := world_of send_page empty_storage [].

(** Worlds between which nothing was stored, asked or answered. *)
Definition silent (w w' : World) : Prop :=
  storage w' = storage w /\ answers w' = answers w /\
  count_prompts (log w') = count_prompts (log w) /\
  count_sets (log w') = count_sets (log w).

(** Every run of [m] takes a world to one that [R] relates to it. *)
Definition moves {A} (R : World -> World -> Prop) (m : M A) : Prop :=
  forall w, R w (snd (m w)).

(** [m] never throws. *)
Definition returns {A} (m : M A) : Prop :=
  forall w, exists a w', m w = (Normal a, w').

(** Every answer that [m] holds is held by [m']. *)
Definition kept (m m' : gmap string string) : Prop :=
  forall q v, recall m q = Some v -> m' !! q = Some v.

(** An event that is neither a dialog asking for an answer nor a write. *)
Definition plain (ev : Event) : Prop :=
  match ev with
  | EvPrompt _ | EvStorageSet _ => False
  | _ => True
  end.

(** What a run of the panel loop that started in [w] with at most [n]
    iterations ahead and memory [m] may have done when it is in [w']. *)
Definition panel_effect (n : nat) (m : gmap string string) (w w' : World) : Prop :=
  same_assets (storage w) (storage w') /\
  kept m (qaMemory (storage w')) /\
  count_prompts (log w) <= count_prompts (log w') <= n + count_prompts (log w) /\
  count_sets (log w) <= count_sets (log w') /\
  count_sets (log w') + count_prompts (log w)
    <= count_sets (log w) + count_prompts (log w') /\
  count_sets (log w') + length (answers w') <= count_sets (log w) + length (answers w).

(** The panel of the example with an input that refuses assignment. *)
Definition stubborn_world : World :=
  world_of (with_elements panel_page [rejecting (blank INPUT "text")])
    {| qaMemory := panel_memory; resume := None; coverLetter := None |} [].

(** A job the human applied to earlier: nothing to activate, no panel. *)
Definition applied_page : Page :=
  {| elements := []; for_labels := []; buttons := [applied_button];
     containers := []; innerWidth := 1280;
     body_innerText := "You have already applied to this job" |}.

Definition applied_world : World := world_of applied_page empty_storage [].

(** A host with room for three answers and no more. *)
Definition tight (s : Storage) : bool := (size (qaMemory s) <=? 3)%nat.

(** The control of a field whose question names the resume, once the
    pass has used the uploaded file [name] on it. *)
Definition resume_given (el : Element) (name : string) : Element :=
  if String.eqb (JS.or_else (el_type el) "text") "file"
  then with_files el [name] (fakepath name)
  else with_value el (assigned_value el name).

(** A page with a text field that asks for the resume by name. *)
Definition resume_name_field : Element := labelled (blank INPUT "text") "Resume *".

Definition resume_name_world : World :=
  world_of (form_page [phone_field; resume_name_field]) sample_storage [None].

(** *** The job queue *)

(** Every character of [s] passes [f]. *)
Fixpoint all_chars (f : ascii -> bool) (s : string) : bool :=
  match s with
  | EmptyString => true
  | String c t => f c && all_chars f t
  end.

(** An address as [loadJobs] takes it from a line. *)
Definition url_shaped (url : string) : Prop :=
  (String.prefix "http://" url = true \/ String.prefix "https://" url = true) /\
  all_chars Queue.is_url_char url = true.

Definition loaded_job (valid_url : string -> bool) (job : Queue.Job) : Prop :=
  Queue.j_status job = "pending" /\
  JS.truthy (Queue.j_name job) = true /\
  valid_url (Queue.j_url job) = true /\
  url_shaped (Queue.j_url job).

(** The completed jobs of [js] are those before index [i]. *)
Definition ordered (js : list Queue.Job) (i : nat) : Prop :=
  forall k job, js !! k = Some job -> (Queue.j_status job = "completed" <-> k < i).

Definition well_ordered (s : Queue.State) : Prop :=
  ordered (Queue.jobs s) (Queue.currentJobIndex s) /\
  ordered (Queue.saved_jobs s) (Queue.saved_index s).

(** The popup before anything was loaded. *)
Definition fresh : Queue.State :=
  {| Queue.jobs := []; Queue.currentJobIndex := 0; Queue.isRunning := false;
     Queue.saved_jobs := []; Queue.saved_index := 0; Queue.saved_running := false;
     Queue.tab_url := None; Queue.dialogs := []; Queue.status_line := EmptyString |}.

(** The states the popup and the storage can be in: whatever the human
    pastes and presses, whenever a page reports a job as completed,
    whether a handler returns or ends in a rejection, and however often
    the popup is opened again. *)
Inductive reachable (valid_url : string -> bool)
    (quota : list Queue.Job -> nat -> bool -> bool) : Queue.State -> Prop :=
| reach_fresh : reachable valid_url quota fresh
| reach_loadJobs input s :
    reachable valid_url quota s ->
    reachable valid_url quota (Queue.state_of (Queue.loadJobs valid_url quota input s))
| reach_startApplying s :
    reachable valid_url quota s ->
    reachable valid_url quota (Queue.state_of (Queue.startApplying quota s))
| reach_stopApplying s :
    reachable valid_url quota s ->
    reachable valid_url quota (Queue.state_of (Queue.stopApplying quota s))
| reach_nextJob s :
    reachable valid_url quota s ->
    reachable valid_url quota (Queue.state_of (Queue.nextJob quota s))
| reach_loadState s :
    reachable valid_url quota s ->
    reachable valid_url quota (Queue.loadState s)
| reach_handleJobCompletion s :
    reachable valid_url quota s ->
    reachable valid_url quota (Queue.state_of (Queue.handleJobCompletion quota s)).

(** [n] presses of the next button, as long as the handler returns. *)
Fixpoint presses (quota : list Queue.Job -> nat -> bool -> bool) (n : nat)
    (s : Queue.State) : Queue.Outcome :=
  match n with
  | O => Queue.Done s
  | S n' =>
      match presses quota n' s with
      | Queue.Done s' => Queue.nextJob quota s'
      | Queue.Rejected s' => Queue.Rejected s'
      end
  end.

Definition roomy (js : list Queue.Job) (i : nat) (running : bool) : bool := true.

Definition any_url (url : string) : bool := true.

(** Three pasted lines: a header, a named job and a bare address. *)
Definition pasted : string :=
  "name,url" ++ String "010"%char
  ("AI Engineer,https://example.com/jobs/42" ++ String "010"%char
   "https://example.org/careers/backend/").

(** [n] pages in a row report their job as completed, as long as the
    worker's handler returns. *)
Fixpoint messages (quota : list Queue.Job -> nat -> bool -> bool) (n : nat)
    (s : Queue.State) : Queue.Outcome :=
  match n with
  | O => Queue.Done s
  | S n' =>
      match messages quota n' s with
      | Queue.Done s' => Queue.handleJobCompletion quota s'
      | Queue.Rejected s' => Queue.Rejected s'
      end
  end.

(** [s] holds a character that is not white space. *)
Fixpoint has_ink (s : string) : bool :=
  match s with
  | EmptyString => false
  | String c t => negb (JS.is_space c) || has_ink t
  end.

(** No option of the control matches the answer, by either rule. *)
Definition unmatched (el : Element) (answer : string) : Prop :=
  first_option (exact_match answer) (el_options el) = None /\
  first_option (partial_match answer) (el_options el) = None.

(** A required dropdown as the pass meets it: empty, with a question
    that names neither the resume nor the cover letter. *)
Definition open_dropdown (field : Field) (el : Element) : Prop :=
  f_tag field = "select" /\ f_required field = true /\
  String.eqb (f_type field) "file" = false /\
  JS.truthy (question_of field) = true /\
  JS.includes (question_of field) "resume" || JS.includes (question_of field) "cv" = false /\
  JS.includes (question_of field) "cover" && JS.includes (question_of field) "letter" = false /\
  el_value el = EmptyString.

(** The dropdown of the design document, required, with its question. *)
Definition experience_question : Element :=
  required (labelled experience_select "Experience").

Definition experience_form (replies : list (option string)) : World :=
  world_of (form_page [experience_question]) empty_storage replies.

(** The text of the number [n / 10] with its one decimal. *)
Definition tenths (n : Z) : string := pretty (n / 10)%Z ++ "." ++ pretty (n mod 10)%Z.

(** [n / 10] is [bytes / unit] rounded to the nearest tenth, upwards from
    the middle. *)
Definition nearest_tenth (bytes unit n : Z) : Prop :=
  (- unit <= 2 * (10 * bytes - unit * n) < unit)%Z.

(** *** Where the embedding is the host

    The embedding folds the letters A to Z, trims the six ASCII white
    spaces and measures a text in bytes; the host folds every cased
    letter, trims every Unicode white space and measures in UTF-16
    units. On a text of ASCII characters the two agree. *)
Definition ascii_char (c : ascii) : bool := (N_of_ascii c <? 128)%N.

Definition ascii_text (s : string) : Prop := all_chars ascii_char s = true.

(** A character that stands for itself between the double quotes of the
    selector [label[for="..."]]: printable ASCII other than the double
    quote and the backslash. With any other id the selector may fail to
    parse, and [querySelector] then throws, or may match another id. *)
Definition quotable (c : ascii) : bool :=
  let n := N_of_ascii c in
  ((32 <=? n) && (n <? 127) && negb (n =? 34) && negb (n =? 92))%N.

Definition plain_id (id : string) : Prop := all_chars quotable id = true.

(** A control whose id can be quoted and whose label, placeholder and
    name are ASCII, so that the descriptor and the question the
    embedding derives from it are those the code derives. *)
Definition legible (el : Element) : Prop :=
  plain_id (el_id el) /\ Forall ascii_text (el_labels el) /\
  ascii_text (el_placeholder el) /\ ascii_text (el_name el).

Definition legible_page (p : Page) : Prop :=
  Forall legible (elements p) /\
  Forall (fun lf => ascii_text (snd lf)) (for_labels p).

(** A descriptor whose label, placeholder and name are ASCII, and a
    dropdown whose display texts are. *)
Definition legible_field (field : Field) : Prop :=
  ascii_text (f_label field) /\ ascii_text (f_placeholder field) /\
  ascii_text (f_name field).

Definition legible_options (el : Element) : Prop :=
  Forall (fun o => ascii_text (opt_text o)) (el_options el).

(** The names that [qaMemory[question]] finds on the prototype of the
    memory object although the memory holds no such answer. A question
    is in lower case, and of the properties of [Object.prototype] these
    two only are spelt so. *)
Definition inherited : list string := [ "constructor"; "__proto__" ].

Definition own_key (question : string) : Prop :=
  existsb (String.eqb question) inherited = false.

(** A page none of whose fields asks a question that the prototype of
    the memory object answers. *)
Definition answerable (p : Page) : Prop :=
  Forall (fun f => own_key (question_of f)) (findAllFields p).

(** The controls that read back the text assigned to them. The value of
    an input of type text, search, tel or password is sanitized by
    removing the line breaks only, and a textarea turns a carriage
    return into a line feed; an input of another type (number, date,
    email, ...) may drop or change the text. *)
Definition line_break (c : ascii) : bool :=
  let n := N_of_ascii c in ((n =? 10) || (n =? 13))%N.

Definition single_line (v : string) : Prop :=
  all_chars (fun c => negb (line_break c)) v = true.

Definition text_types : list string := [ "text"; "search"; "tel"; "password" ].

Definition keeps_text (el : Element) : bool :=
  match tagName el with
  | INPUT => existsb (String.eqb (el_type el)) text_types
  | TEXTAREA => true
  | SELECT => false
  end.

Definition takes (el : Element) (v : string) : Prop :=
  keeps_text el = true /\ single_line v.

(** The controls on which the pass can use an uploaded file: a file
    control, a dropdown, or a control that takes the name as a text. *)
Definition receives (el : Element) (name : string) : Prop :=
  el_type el = "file" \/ tagName el = SELECT \/ takes el name.

End Props.

(* ===================================================================== *)
(** ** Facts about the string operations *)
(* ===================================================================== *)

Section StringFacts.
Import JS.
#[local] Arguments String.append !s1 s2 : simpl nomatch.

Lemma prefix_app (n h : string) :
  String.prefix n h = true <-> exists rest, h = n ++ rest.
Proof.
  revert h. induction n as [|c n IH]; intros h.
  - split; [intros _; exists h; reflexivity | intros _; destruct h; reflexivity].
  - destruct h as [|d h]; simpl.
    + split; [discriminate | intros [r Hr]; discriminate].
    + destruct (Ascii.ascii_dec c d) as [->|Hne].
      * rewrite IH. split; intros [r Hr]; exists r.
        -- now rewrite Hr.
        -- now inversion Hr.
      * split; [discriminate | intros [r Hr]; simpl in Hr; congruence].
Qed.

Lemma includes_nil (needle : string) :
  includes EmptyString needle = String.prefix needle EmptyString.
Proof. unfold includes. apply orb_false_r. Qed.

Lemma includes_cons (c : ascii) (hay needle : string) :
  includes (String c hay) needle =
  String.prefix needle (String c hay) || includes hay needle.
Proof. reflexivity. Qed.

(** [includes] is the substring relation. *)
Lemma includes_spec (hay needle : string) :
  includes hay needle = true <->
  exists before after, hay = before ++ needle ++ after.
Proof.
  induction hay as [|c hay IH].
  - rewrite includes_nil, prefix_app. split.
    + intros [r Hr]. exists EmptyString, r. exact Hr.
    + intros [b [a Ha]]. destruct b; [exists a; exact Ha | discriminate].
  - rewrite includes_cons, orb_true_iff, prefix_app, IH. split.
    + intros [[r Hr] | [b [a Ha]]].
      * exists EmptyString, r. exact Hr.
      * exists (String c b), a. simpl. now rewrite Ha.
    + intros [b [a Ha]]. destruct b as [|d b]; simpl in Ha.
      * left. exists a. exact Ha.
      * right. inversion Ha. exists b, a. reflexivity.
Qed.

Lemma includes_empty (hay : string) : includes hay EmptyString = true.
Proof. destruct hay; reflexivity. Qed.

Lemma string_app_assoc (a b c : string) : (a ++ b) ++ c = a ++ (b ++ c).
Proof. induction a as [|x a IH]; simpl; [reflexivity | now rewrite IH]. Qed.

Lemma includes_trans (a b c : string) :
  includes a b = true -> includes b c = true -> includes a c = true.
Proof.
  rewrite !includes_spec. intros [p [q ->]] [r [s ->]].
  exists (p ++ r), (s ++ q).
  now rewrite !string_app_assoc.
Qed.

Lemma toLowerCase_app (a b : string) :
  toLowerCase (a ++ b) = toLowerCase a ++ toLowerCase b.
Proof. induction a as [|x a IH]; simpl; [reflexivity | now rewrite IH]. Qed.

Lemma includes_toLowerCase (hay needle : string) :
  includes hay needle = true ->
  includes (toLowerCase hay) (toLowerCase needle) = true.
Proof.
  rewrite !includes_spec. intros [p [q ->]].
  exists (toLowerCase p), (toLowerCase q).
  now rewrite !toLowerCase_app.
Qed.

Lemma truthy_true (s : string) : truthy s = true <-> s <> EmptyString.
Proof. destruct s; simpl; split; congruence. Qed.

Lemma truthy_false (s : string) : truthy s = false <-> s = EmptyString.
Proof. destruct s; simpl; split; congruence. Qed.

Lemma toLowerCase_empty (s : string) :
  toLowerCase s = EmptyString <-> s = EmptyString.
Proof. destruct s; simpl; split; congruence. Qed.

End StringFacts.

(* ===================================================================== *)
(** ** Running a computation *)
(* ===================================================================== *)

Section RunFacts.
Import Dom Store Run.

Lemma bind_run {A B} (m : M A) (k : A -> M B) (w : World) :
  (m ≫= k) w =
  match m w with
  | (Normal a, w') => k a w'
  | (Throw e, w') => (Throw e, w')
  end.
Proof. reflexivity. Qed.

Lemma bind_normal {A B} (m : M A) (k : A -> M B) (w w' : World) (a : A) :
  m w = (Normal a, w') -> (m ≫= k) w = k a w'.
Proof. intros H. rewrite bind_run, H. reflexivity. Qed.

Lemma bind_throw {A B} (m : M A) (k : A -> M B) (w w' : World) (e : string) :
  m w = (Throw e, w') -> (m ≫= k) w = (Throw e, w').
Proof. intros H. rewrite bind_run, H. reflexivity. Qed.

Lemma storage_set_accepted (quota : Storage -> bool) (key : string)
    (update : Storage -> Storage) (w : World) :
  quota (update (storage w)) = true ->
  storage_set quota key update w
    = (Normal tt, with_log (with_storage w (update (storage w)))
                           (EvStorageSet key :: log w)).
Proof. intros H. unfold storage_set. now rewrite H. Qed.

Lemma storage_set_refused (quota : Storage -> bool) (key : string)
    (update : Storage -> Storage) (w : World) :
  quota (update (storage w)) = false ->
  storage_set quota key update w = (Throw "QUOTA_BYTES quota exceeded", w).
Proof. intros H. unfold storage_set. now rewrite H. Qed.

End RunFacts.

(* ===================================================================== *)
(** ** The option matcher *)
(* ===================================================================== *)

Section OptionMatcher.
Import Dom Store Run Content Spec.

Lemma exact_match_iff (answer : string) (opt : OptionEl) :
  exact_match answer opt = true <-> matches_exactly answer opt.
Proof. unfold exact_match, matches_exactly, same_ignoring_case. apply String.eqb_eq. Qed.

Lemma partial_match_iff (answer : string) (opt : OptionEl) :
  partial_match answer opt = true <-> matches_partially answer opt.
Proof.
  unfold partial_match, matches_partially, contains_ignoring_case.
  rewrite orb_true_iff, !includes_spec. reflexivity.
Qed.

Lemma first_option_none (test : OptionEl -> bool) (opts : list OptionEl) :
  first_option test opts = None <-> Forall (fun o => test o = false) opts.
Proof.
  induction opts as [|o opts IH]; simpl.
  - split; [constructor | reflexivity].
  - destruct (test o) eqn:Ho.
    + split; [discriminate | intros H; inversion H; congruence].
    + rewrite IH. split; [now constructor | intros H; now inversion H].
Qed.

Lemma first_option_first (test : OptionEl -> bool) (before after : list OptionEl)
    (opt : OptionEl) :
  Forall (fun o => test o = false) before -> test opt = true ->
  first_option test (before ++ opt :: after)%list = Some opt.
Proof.
  induction 1 as [|o before Ho _ IH]; simpl; intros Hopt.
  - now rewrite Hopt.
  - rewrite Ho. now apply IH.
Qed.

Lemma first_option_some (test : OptionEl -> bool) (opts : list OptionEl)
    (opt : OptionEl) :
  first_option test opts = Some opt ->
  exists before after,
    opts = (before ++ opt :: after)%list /\
    Forall (fun o => test o = false) before /\ test opt = true.
Proof.
  induction opts as [|o opts IH]; simpl; [discriminate|].
  destruct (test o) eqn:Ho.
  - intros [= <-]. exists [], opts. auto.
  - intros H. destruct (IH H) as (b & a & -> & Hb & Ht).
    exists (o :: b), a. auto.
Qed.

(** Assigning the value of one of its own options to a control reads
    back that value. *)
Lemma assigned_own_option (sel : Element) (opt : OptionEl) :
  In opt (el_options sel) -> assigned_value sel (opt_value opt) = opt_value opt.
Proof.
  intros Hin. unfold assigned_value, has_option_value.
  destruct (tagName sel); try reflexivity.
  replace (existsb _ _) with true; [reflexivity|].
  symmetry. apply existsb_exists. exists opt. split; [exact Hin | apply String.eqb_refl].
Qed.

Lemma choose_own_option (w : World) (i : nat) (sel : Element) (opt : OptionEl) :
  elements (page w) !! i = Some sel -> el_rejects sel = false ->
  In opt (el_options sel) ->
  choose i opt w = (Normal true, chosen w i sel opt).
Proof.
  intros Hi Hr Hin.
  unfold choose, set_value, dispatchEvent, note, chosen, mbind, mret, M_bind, M_ret, bind, ret.
  rewrite Hi, Hr, (assigned_own_option _ _ Hin). reflexivity.
Qed.

Lemma selectBestOption_exact (w : World) (i : nat) (sel : Element)
    (answer : string) (opt : OptionEl) :
  elements (page w) !! i = Some sel -> el_rejects sel = false ->
  first_option (exact_match answer) (el_options sel) = Some opt ->
  selectBestOption i answer w = (Normal true, chosen w i sel opt).
Proof.
  intros Hi Hr Hf.
  unfold selectBestOption, element_at, mbind, M_bind, bind.
  rewrite Hi, Hf. apply choose_own_option; try assumption.
  destruct (first_option_some _ _ _ Hf) as (b & a & -> & _).
  apply in_or_app. right. now left.
Qed.

Lemma selectBestOption_partial (w : World) (i : nat) (sel : Element)
    (answer : string) (opt : OptionEl) :
  elements (page w) !! i = Some sel -> el_rejects sel = false ->
  first_option (exact_match answer) (el_options sel) = None ->
  first_option (partial_match answer) (el_options sel) = Some opt ->
  selectBestOption i answer w = (Normal true, chosen w i sel opt).
Proof.
  intros Hi Hr He Hf.
  unfold selectBestOption, element_at, mbind, M_bind, bind.
  rewrite Hi, He, Hf. apply choose_own_option; try assumption.
  destruct (first_option_some _ _ _ Hf) as (b & a & -> & _).
  apply in_or_app. right. now left.
Qed.

Lemma selectBestOption_none (w : World) (i : nat) (sel : Element)
    (answer : string) :
  elements (page w) !! i = Some sel ->
  first_option (exact_match answer) (el_options sel) = None ->
  first_option (partial_match answer) (el_options sel) = None ->
  selectBestOption i answer w = (Normal false, w).
Proof.
  intros Hi He Hf.
  unfold selectBestOption, element_at, mbind, M_bind, bind.
  now rewrite Hi, He, Hf.
Qed.

Lemma not_exact_false (answer : string) (opts : list OptionEl) :
  Forall (fun o => ~ matches_exactly answer o) opts ->
  Forall (fun o => exact_match answer o = false) opts.
Proof.
  intros H. eapply Forall_impl; [exact H|]. intros o Ho. simpl in Ho.
  destruct (exact_match answer o) eqn:E; [|reflexivity].
  now apply exact_match_iff in E.
Qed.

Lemma not_partial_false (answer : string) (opts : list OptionEl) :
  Forall (fun o => ~ matches_partially answer o) opts ->
  Forall (fun o => partial_match answer o = false) opts.
Proof.
  intros H. eapply Forall_impl; [exact H|]. intros o Ho. simpl in Ho.
  destruct (partial_match answer o) eqn:E; [|reflexivity].
  now apply partial_match_iff in E.
Qed.



Lemma exact_match_empty (opt : OptionEl) :
  exact_match EmptyString opt = true <-> opt_text opt = EmptyString.
Proof.
  unfold exact_match. rewrite String.eqb_eq. simpl. apply toLowerCase_empty.
Qed.

Lemma partial_match_empty (opt : OptionEl) : partial_match EmptyString opt = true.
Proof. unfold partial_match. simpl. now rewrite includes_empty. Qed.

Lemma nonblank_not_exact (opts : list OptionEl) :
  Forall (fun o => opt_text o <> EmptyString) opts ->
  Forall (fun o => exact_match EmptyString o = false) opts.
Proof.
  intros H. eapply Forall_impl; [exact H|]. intros o Ho. simpl in Ho.
  destruct (exact_match EmptyString o) eqn:E; [|reflexivity].
  now apply exact_match_empty in E.
Qed.

(** C10, as stated, fails: with the options Yes and a blank placeholder
    after it, the empty answer selects the placeholder, which is not the
    first option. *)
Lemma empty_answer_not_always_first_option :
  ~ empty_answer_selects_first_option.
Proof.
  intros H.
  specialize (H trailing_blank_world 0 trailing_blank_select
                (mkOption "Yes" "yes") [mkOption EmptyString "none"]
                eq_refl eq_refl eq_refl).
  vm_compute in H. discriminate H.
Qed.

(** C10, amended. For a select control with at least one option, the
    empty answer always reports a match and emits a change notification;
    the control takes the value of the first option whose display text
    is empty when there is one, and of its first option otherwise. *)
Theorem selectBestOption_empty_answer
    (w : World) (i : nat) (sel : Element) (first : OptionEl) (rest : list OptionEl) :
  elements (page w) !! i = Some sel ->
  el_rejects sel = false ->
  el_options sel = first :: rest ->
  (exists opt, In opt (el_options sel) /\
     selectBestOption i EmptyString w = (Normal true, chosen w i sel opt)) /\
  (forall before opt after,
      el_options sel = (before ++ opt :: after)%list ->
      Forall (fun o => opt_text o <> EmptyString) before ->
      opt_text opt = EmptyString ->
      selectBestOption i EmptyString w = (Normal true, chosen w i sel opt)) /\
  (Forall (fun o => opt_text o <> EmptyString) (el_options sel) ->
   selectBestOption i EmptyString w = (Normal true, chosen w i sel first)).
Proof.
  intros Hi Hr Hopts.
  assert (Hpartial : first_option (partial_match EmptyString) (el_options sel) = Some first).
  { rewrite Hopts. simpl. now rewrite partial_match_empty. }
  split; [|split].
  - destruct (first_option (exact_match EmptyString) (el_options sel)) as [opt|] eqn:He.
    + exists opt. split.
      * destruct (first_option_some _ _ _ He) as (b & a & -> & _).
        apply in_or_app. right. now left.
      * now apply selectBestOption_exact.
    + exists first. split.
      * rewrite Hopts. now left.
      * now apply selectBestOption_partial.
  - intros before opt after Hsplit Hb Ho.
    apply selectBestOption_exact; try assumption.
    rewrite Hsplit. apply first_option_first.
    + now apply nonblank_not_exact.
    + now apply exact_match_empty.
  - intros Hall. apply selectBestOption_partial; try assumption.
    apply first_option_none. now apply nonblank_not_exact.
Qed.

Lemma selectBestOption_empty_answer_witness :
  selectBestOption 0 EmptyString experience_world
    = (Normal true,
       chosen experience_world 0 experience_select (mkOption "0-1 years" "a")) /\
  selectBestOption 0 EmptyString trailing_blank_world
    = (Normal true,
       chosen trailing_blank_world 0 trailing_blank_select
         (mkOption EmptyString "none")).
Proof.
  split.
  - apply (selectBestOption_empty_answer experience_world 0 experience_select
             (mkOption "0-1 years" "a") _ eq_refl eq_refl eq_refl).
    repeat constructor; discriminate.
  - apply (proj1 (proj2 (selectBestOption_empty_answer
             trailing_blank_world 0 trailing_blank_select
             (mkOption "Yes" "yes") _ eq_refl eq_refl eq_refl))
             [mkOption "Yes" "yes"] (mkOption EmptyString "none") [] eq_refl).
    + repeat constructor; discriminate.
    + reflexivity.
Defined.

End OptionMatcher.

(* ===================================================================== *)
(** ** Submitting *)
(* ===================================================================== *)

Section Submit.
Import Dom Store Run Content Spec.

Lemma first_button_found (test : Button -> bool) (btns : list Button) :
  forall (i k : nat) (btn : Button),
    btns !! k = Some btn -> test btn = true ->
    (forall j btn', j < k -> btns !! j = Some btn' -> test btn' = false) ->
    first_button test i btns = Some (i + k).
Proof.
  induction btns as [|x btns IH]; intros i k btn Hk Ht Hbefore.
  - destruct k; discriminate.
  - destruct k as [|k]; simpl in *.
    + injection Hk as ->. rewrite Ht. f_equal. lia.
    + rewrite (Hbefore 0 x); [|lia|reflexivity].
      rewrite (IH (S i) k btn Hk Ht).
      * f_equal. lia.
      * intros j btn' Hj Hl. apply (Hbefore (S j) btn'); [lia | exact Hl].
Qed.

Lemma first_button_absent (test : Button -> bool) (btns : list Button) :
  (forall k btn, btns !! k = Some btn -> test btn = false) ->
  forall i, first_button test i btns = None.
Proof.
  induction btns as [|x btns IH]; intros Hall i; simpl; [reflexivity|].
  rewrite (Hall 0 x eq_refl). apply IH.
  intros k btn Hk. apply (Hall (S k) btn Hk).
Qed.

Lemma completion_text_iff (bodyText : string) :
  completion_text (JS.toLowerCase bodyText) = true <->
  exists token, In token completion_tokens /\ contains_ignoring_case bodyText token.
Proof.
  unfold completion_text, completion_tokens, contains_ignoring_case.
  rewrite !orb_true_iff, !includes_spec. split.
  - intros [[[H|H]|H]|H].
    + exists "thank". simpl. auto.
    + exists "success". simpl. auto.
    + exists "submitted". simpl. auto 6.
    + exists "received". simpl. auto 6.
  - intros (token & Hin & Hc). simpl in Hin.
    destruct Hin as [<-|[<-|[<-|[<-|[]]]]]; simpl in Hc; auto.
Qed.

Lemma thank_you_is_completion (bodyText before after : string) :
  bodyText = before ++ "Thank you for applying" ++ after ->
  completion_text (JS.toLowerCase bodyText) = true.
Proof.
  intros ->. unfold completion_text.
  replace (JS.includes _ "thank") with true; [reflexivity|].
  symmetry. apply includes_trans with (b := JS.toLowerCase "Thank you for applying").
  - apply includes_toLowerCase. apply includes_spec. eauto.
  - reflexivity.
Qed.

Lemma or_else_empty (a : string) : JS.or_else a EmptyString = a.
Proof. destruct a; reflexivity. Qed.

Lemma is_submit_control_iff (btn : Button) :
  is_submit_control btn = true <->
  (b_kind btn = BUTTON \/ b_kind btn = INPUT_SUBMIT) /\
  b_offsetParent btn = true /\
  b_disabled btn = false /\
  exists token, In token submit_tokens /\
                contains_ignoring_case (shown_text btn) token.
Proof.
  unfold is_submit_control, submit_capable, button_text, shown_text, submit_tokens,
    contains_ignoring_case.
  rewrite or_else_empty.
  rewrite !andb_true_iff, !orb_true_iff, negb_true_iff, !includes_spec. split.
  - intros (Hkind & (Htok & Hvis) & Hen). split; [|split; [exact Hvis | split; [exact Hen|]]].
    + destruct (b_kind btn); auto; discriminate.
    + destruct Htok as [[H|H]|H].
      * exists "submit". simpl. auto.
      * exists "apply". simpl. auto.
      * exists "send". simpl. auto.
  - intros (Hkind & Hvis & Hen & token & Hin & Hc).
    split; [destruct Hkind as [-> | ->]; reflexivity|].
    split; [|exact Hen]. split; [|exact Hvis].
    simpl in Hin. destruct Hin as [<-|[<-|[<-|[]]]]; simpl in Hc; auto.
Qed.

(** C9. When a submit-capable control that is visible and enabled and
    whose text contains submit, apply or send exists, [submitForm]
    activates the first such control, waits the settle delay and
    returns clicked true together with success true exactly when the
    text of the page then contains thank, success, submitted or
    received; a page then showing Thank you for applying gives success
    true. Without such a control it returns success false and clicked
    false and does nothing. *)
Theorem submitForm_classifies
    (react : Event -> Page -> Page) (w : World) :
  (forall b btn,
      buttons (page w) !! b = Some btn ->
      is_submit_control btn = true ->
      (forall j btn', j < b -> buttons (page w) !! j = Some btn' ->
                      is_submit_control btn' = false) ->
      let w' := after_click react 3000 b w in
      exists ok,
        submitForm react w = (Normal {| s_success := ok; s_clicked := true |}, w') /\
        (ok = true <->
         exists token, In token completion_tokens /\
                       contains_ignoring_case (body_innerText (page w')) token) /\
        (forall before after,
            body_innerText (page w') = before ++ "Thank you for applying" ++ after ->
            ok = true)) /\
  ((forall b btn, buttons (page w) !! b = Some btn -> is_submit_control btn = false) ->
   submitForm react w = (Normal {| s_success := false; s_clicked := false |}, w)) /\
  (forall btn,
      is_submit_control btn = true <->
      (b_kind btn = BUTTON \/ b_kind btn = INPUT_SUBMIT) /\
      b_offsetParent btn = true /\
      b_disabled btn = false /\
      exists token, In token submit_tokens /\
                    contains_ignoring_case (shown_text btn) token).
Proof.
  split; [|split].
  - intros b btn Hb Hbtn Hfirst w'.
    exists (completion_text (JS.toLowerCase (body_innerText (page w')))).
    split; [|split].
    + unfold submitForm, get_world, sleep, emit, mbind, mret, M_bind, M_ret, bind, ret.
      rewrite (first_button_found _ _ 0 b btn Hb Hbtn Hfirst). reflexivity.
    + apply completion_text_iff.
    + intros before after Hbody. eapply thank_you_is_completion. exact Hbody.
  - intros Hnone.
    unfold submitForm, get_world, mbind, mret, M_bind, M_ret, bind, ret.
    now rewrite (first_button_absent _ _ Hnone 0).
  - apply is_submit_control_iff.
Qed.

Lemma submitForm_classifies_witness :
  submitForm thanks_after_click submit_world
    = (Normal {| s_success := true; s_clicked := true |},
       after_click thanks_after_click 3000 1 submit_world).
Proof.
  destruct (proj1 (submitForm_classifies thanks_after_click submit_world)
              1 submit_button eq_refl eq_refl) as (ok & Hrun & _ & Hthanks).
  - intros j btn' Hj Hl. destruct j as [|j]; [|lia].
    injection Hl as <-. reflexivity.
  - rewrite Hrun. rewrite (Hthanks EmptyString " to Acme." eq_refl). reflexivity.
Defined.

End Submit.

(* ===================================================================== *)
(** ** The JSON instance reads back what it prints *)
(* ===================================================================== *)

Section JsonFacts.
Import Json.
#[local] Arguments String.append !s1 s2 : simpl nomatch.

Lemma feed_app (a b : string) :
  forall st,
    feed st (a ++ b) =
    match feed st a with
    | Some st' => feed st' b
    | None => None
    end.
Proof.
  induction a as [|c a IH]; intros st; simpl; [reflexivity|].
  destruct (step st c); [apply IH | reflexivity].
Qed.

Lemma run_app (a b : string) :
  forall st,
    run st (a ++ b) =
    match feed st a with
    | Some st' => run st' b
    | None => None
    end.
Proof.
  induction a as [|c a IH]; intros st; simpl; [reflexivity|].
  destruct (step st c); [apply IH | reflexivity].
Qed.

Lemma feed_escape (c : ascii) (value : bool) (k cu : string) (ac : gmap string string) :
  feed (reading value k cu ac) (escape c) = Some (reading value k (String c cu) ac).
Proof.
  destruct c as [[] [] [] [] [] [] [] []]; reflexivity.
Qed.

Lemma feed_quote_body (s : string) :
  forall (value : bool) (k cu : string) (ac : gmap string string),
    feed (reading value k cu ac) (quote_body s)
    = Some (close_string (reading value k (String.rev_app s cu) ac)).
Proof.
  induction s as [|c s IH]; intros value k cu ac.
  - reflexivity.
  - cbn [quote_body String.rev_app]. rewrite feed_app, feed_escape. apply IH.
Qed.

Lemma rev_app_rev_app (s : string) :
  forall acc t, String.rev_app (String.rev_app s acc) t = String.rev_app acc (s ++ t).
Proof.
  induction s as [|c s IH]; intros acc t; [reflexivity|].
  cbn [String.rev_app]. now rewrite IH.
Qed.

Lemma string_app_empty (s : string) : s ++ EmptyString = s.
Proof. induction s as [|c s IH]; simpl; [reflexivity | now rewrite IH]. Qed.

Lemma rev_rev_app (s : string) : String.rev (String.rev_app s EmptyString) = s.
Proof.
  unfold String.rev. rewrite rev_app_rev_app. simpl. apply string_app_empty.
Qed.

(** Reading a quoted string from the quote on. *)
Lemma feed_quote (s : string) (st : PState) (value : bool) :
  step st dquote = Some (open_string st value) ->
  feed st (quote s)
  = Some (if value
          then read_value (<[key st := s]> (acc st))
          else {| mode := AfterKey; in_value := false; key := s;
                  cur := EmptyString; acc := acc st |}).
Proof.
  intros Hopen. unfold quote. cbn [feed]. rewrite Hopen.
  unfold open_string. fold (reading value (key st) EmptyString (acc st)).
  rewrite feed_quote_body. unfold close_string, reading. cbn [cur in_value key acc].
  rewrite rev_rev_app. destruct value; reflexivity.
Qed.

Lemma feed_cons (c : ascii) (rest : string) (st : PState) :
  feed st (String c rest) =
  match step st c with
  | Some st' => feed st' rest
  | None => None
  end.
Proof. reflexivity. Qed.

Lemma run_cons (c : ascii) (rest : string) (st : PState) :
  run st (String c rest) =
  match step st c with
  | Some st' => run st' rest
  | None => None
  end.
Proof. reflexivity. Qed.

Lemma step_colon (st : PState) :
  mode st = AfterKey -> step st ":"%char = Some (goto st AfterColon).
Proof. unfold step. intros ->. reflexivity. Qed.

Lemma step_space_after_colon (st : PState) :
  mode st = AfterColon -> step st " "%char = Some st.
Proof. unfold step. intros ->. reflexivity. Qed.

Lemma step_quote_after_colon (st : PState) :
  mode st = AfterColon -> step st dquote = Some (open_string st true).
Proof. unfold step. intros ->. reflexivity. Qed.

Lemma step_comma (st : PState) :
  mode st = AfterValue -> step st ","%char = Some (goto st AfterComma).
Proof. unfold step. intros ->. reflexivity. Qed.

Lemma step_newline (st : PState) :
  mode st = AfterValue \/ mode st = AfterComma \/ mode st = AfterOpen ->
  step st newline = Some st.
Proof. unfold step. intros [-> | [-> | ->]]; reflexivity. Qed.

Lemma step_close (st : PState) :
  mode st = AfterValue -> step st "}"%char = Some (goto st AtEnd).
Proof. unfold step. intros ->. reflexivity. Qed.

Lemma step_open (st : PState) :
  mode st = AtStart -> step st "{"%char = Some (goto st AfterOpen).
Proof. unfold step. intros ->. reflexivity. Qed.

Lemma feed_member (kv : string * string) (st : PState) :
  mode st = AfterOpen \/ mode st = AfterComma ->
  feed st (member kv) = Some (read_value (put (acc st) kv)).
Proof.
  intros Hmode. destruct kv as [k v]. unfold member. cbn [fst snd].
  assert (Hws : step st " "%char = Some st)
    by (unfold step; destruct Hmode as [-> | ->]; reflexivity).
  assert (Hopen : step st dquote = Some (open_string st false))
    by (unfold step; destruct Hmode as [-> | ->]; reflexivity).
  change ("  " ++ quote k ++ ": " ++ quote v)
    with (String " " (String " " (quote k ++ ": " ++ quote v))).
  rewrite feed_cons, Hws, feed_cons, Hws.
  rewrite feed_app, (feed_quote k st false Hopen).
  change (": " ++ quote v) with (String ":" (String " " (quote v))).
  rewrite feed_cons, step_colon by reflexivity.
  rewrite feed_cons, step_space_after_colon by reflexivity.
  rewrite (feed_quote v _ true) by (now apply step_quote_after_colon).
  reflexivity.
Qed.

Lemma run_members (l : list (string * string)) :
  l <> [] ->
  forall st,
    mode st = AfterOpen \/ mode st = AfterComma ->
    run st (members l ++ "}") = Some (fold_left put l (acc st)).
Proof.
  induction l as [|kv l IH]; intros Hne st Hmode; [contradiction|].
  destruct l as [|kv' l].
  - cbn [members fold_left]. rewrite string_app_assoc, run_app, (feed_member kv st Hmode).
    change (String newline EmptyString ++ "}") with (String newline (String "}" EmptyString)).
    rewrite run_cons, step_newline by (left; reflexivity).
    rewrite run_cons, step_close by reflexivity.
    reflexivity.
  - change (members (kv :: kv' :: l))
      with (member kv ++ String "," (String newline (members (kv' :: l)))).
    rewrite string_app_assoc, run_app, (feed_member kv st Hmode).
    change (String "," (String newline (members (kv' :: l))) ++ "}")
      with (String "," (String newline (members (kv' :: l) ++ "}"))).
    rewrite run_cons, step_comma by reflexivity.
    rewrite run_cons, step_newline by (right; left; reflexivity).
    rewrite IH; [reflexivity | discriminate | right; reflexivity].
Qed.

Lemma parse_stringify_entries (l : list (string * string)) :
  parse (stringify_entries l) = Some (fold_left put l ∅).
Proof.
  destruct l as [|kv l]; [reflexivity|].
  unfold parse, stringify_entries.
  change (String "{" (String newline (members (kv :: l))) ++ "}")
    with (String "{" (String newline (members (kv :: l) ++ "}"))).
  rewrite run_cons, step_open by reflexivity.
  rewrite run_cons, step_newline by (right; right; reflexivity).
  rewrite run_members; [reflexivity | discriminate | left; reflexivity].
Qed.

Lemma fold_right_put_fresh (l : list (string * string)) (kv : string * string)
    (m : gmap string string) :
  ~ In (fst kv) (map fst l) ->
  fold_right (fun p acc => put acc p) (put m kv) l
  = put (fold_right (fun p acc => put acc p) m l) kv.
Proof.
  induction l as [|p l IH]; intros Hfresh; [reflexivity|].
  simpl in *. rewrite IH by tauto. unfold put.
  apply insert_insert_ne. intros Heq. apply Hfresh. left. exact Heq.
Qed.

Lemma fold_left_put_distinct (l : list (string * string)) :
  List.NoDup (map fst l) ->
  forall m, fold_left put l m = fold_right (fun p acc => put acc p) m l.
Proof.
  induction l as [|kv l IH]; intros Hnd m; [reflexivity|].
  simpl in Hnd. apply List.NoDup_cons_iff in Hnd as [Hfresh Hnd].
  simpl. rewrite IH by exact Hnd. now apply fold_right_put_fresh.
Qed.

(** For every question-to-answer mapping, the parser reads back the
    mapping the printer wrote. *)
Lemma parse_stringify (m : gmap string string) :
  Json.parse (Json.stringify m) = Some m.
Proof.
  unfold stringify. rewrite parse_stringify_entries. f_equal.
  rewrite fold_left_put_distinct.
  - change (list_to_map (map_to_list m) = m). apply list_to_map_to_list.
  - apply NoDup_ListNoDup. apply NoDup_fst_map_to_list.
Qed.

End JsonFacts.

(* ===================================================================== *)
(** ** The memory store: fan-out, export and import *)
(* ===================================================================== *)

Section Memory.
Import Dom Store Run Popup Spec.

Lemma assign_all_keeps (keys : list string) (value : string)
    (m : gmap string string) (k : string) :
  m !! k = Some value -> assign_all keys value m !! k = Some value.
Proof.
  unfold assign_all. revert m.
  induction keys as [|key keys IH]; intros m Hm; simpl; [exact Hm|].
  apply IH. destruct (decide (key = k)) as [->|Hne].
  - apply lookup_insert_eq.
  - now rewrite lookup_insert_ne.
Qed.

Lemma assign_all_member (keys : list string) (value : string)
    (m : gmap string string) (k : string) :
  In k keys -> assign_all keys value m !! k = Some value.
Proof.
  revert m. induction keys as [|key keys IH]; intros m Hin; [destruct Hin|].
  destruct Hin as [->|Hin].
  - apply (assign_all_keeps keys value (<[k := value]> m)). apply lookup_insert_eq.
  - apply (IH (<[key := value]> m) Hin).
Qed.

Lemma assign_all_other (keys : list string) (value : string)
    (m : gmap string string) (k : string) :
  ~ In k keys -> assign_all keys value m !! k = m !! k.
Proof.
  unfold assign_all. revert m.
  induction keys as [|key keys IH]; intros m Hnin; simpl; [reflexivity|].
  rewrite IH.
  - apply lookup_insert_ne. intros ->. apply Hnin. now left.
  - intros Hin. apply Hnin. now right.
Qed.

(** C7. Uploading a resume, when the host accepts the two writes, sets
    every key of the resume key list to the name of the new file in a
    single write of the memory, and every other key keeps the value it
    had; the same holds for a cover letter and its key list. *)
Theorem upload_fans_out_to_role_keys
    (quota : Storage -> bool) (w : World) (name data type : string) (size : Z) :
  (let s1 := with_resume (storage w) (asset_of name data type size) in
   quota s1 = true ->
   quota (with_qaMemory s1 (assign_all resumeKeys name (qaMemory (storage w)))) = true ->
   exists w',
     uploadResume quota name data type size w = (Normal tt, w') /\
     (forall k, In k resumeKeys -> qaMemory (storage w') !! k = Some name) /\
     (forall k, ~ In k resumeKeys ->
                qaMemory (storage w') !! k = qaMemory (storage w) !! k) /\
     log w' = EvAlert ("Resume uploaded: " ++ name)
                :: EvStorageSet "qaMemory" :: EvStorageSet "resume" :: log w) /\
  (let s1 := with_coverLetter (storage w) (asset_of name data type size) in
   quota s1 = true ->
   quota (with_qaMemory s1 (assign_all coverLetterKeys name (qaMemory (storage w)))) = true ->
   exists w',
     uploadCoverLetter quota name data type size w = (Normal tt, w') /\
     (forall k, In k coverLetterKeys -> qaMemory (storage w') !! k = Some name) /\
     (forall k, ~ In k coverLetterKeys ->
                qaMemory (storage w') !! k = qaMemory (storage w) !! k) /\
     log w' = EvAlert ("Cover Letter uploaded: " ++ name)
                :: EvStorageSet "qaMemory" :: EvStorageSet "coverLetter" :: log w).
Proof.
  split; intros s1 H1 H2; subst s1.
  - eexists. split; [|split; [|split]].
    + unfold uploadResume.
      erewrite bind_normal; [|apply storage_set_accepted; exact H1].
      erewrite bind_normal; [|reflexivity].
      erewrite bind_normal; [|apply storage_set_accepted; exact H2].
      reflexivity.
    + intros k Hk. exact (assign_all_member resumeKeys name _ k Hk).
    + intros k Hk. exact (assign_all_other resumeKeys name _ k Hk).
    + reflexivity.
  - eexists. split; [|split; [|split]].
    + unfold uploadCoverLetter.
      erewrite bind_normal; [|apply storage_set_accepted; exact H1].
      erewrite bind_normal; [|reflexivity].
      erewrite bind_normal; [|apply storage_set_accepted; exact H2].
      reflexivity.
    + intros k Hk. exact (assign_all_member coverLetterKeys name _ k Hk).
    + intros k Hk. exact (assign_all_other coverLetterKeys name _ k Hk).
    + reflexivity.
Qed.

Lemma upload_fans_out_to_role_keys_witness :
  exists w',
    uploadResume unlimited "cv-2024.pdf" "data:application/pdf;base64,JVBERi0="
      "application/pdf" 9 (popup_world sample_storage) = (Normal tt, w') /\
    qaMemory (storage w') !! "resume" = Some "cv-2024.pdf" /\
    qaMemory (storage w') !! "attach cv *" = Some "cv-2024.pdf" /\
    qaMemory (storage w') !! "phone" = Some "9998887777".
Proof.
  destruct (proj1 (upload_fans_out_to_role_keys unlimited (popup_world sample_storage)
              "cv-2024.pdf" "data:application/pdf;base64,JVBERi0="
              "application/pdf" 9) eq_refl eq_refl)
    as (w' & Hrun & Hin & Hout & _).
  exists w'. split; [exact Hrun|]. split; [|split].
  - apply Hin. simpl. auto.
  - apply Hin. simpl. auto 20.
  - rewrite Hout; [reflexivity|].
    simpl. intros H. repeat (destruct H as [H|H]; [discriminate H|]). exact H.
Defined.

Lemma spread_merge_lookup (old imported : gmap string string) (k : string) :
  spread_merge old imported !! k =
  match imported !! k with
  | Some v => Some v
  | None => old !! k
  end.
Proof.
  unfold spread_merge. rewrite lookup_union.
  destruct (imported !! k), (old !! k); reflexivity.
Qed.

Lemma spread_merge_into_empty (imported : gmap string string) :
  spread_merge ∅ imported = imported.
Proof.
  apply map_eq. intros k. rewrite spread_merge_lookup, lookup_empty.
  destruct (imported !! k); reflexivity.
Qed.

Lemma importMemory_merges (quota : Storage -> bool)
    (JSON_parse : string -> option (gmap string string))
    (w : World) (text : string) (imported : gmap string string) :
  JSON_parse text = Some imported ->
  quota (with_qaMemory (storage w) (spread_merge (qaMemory (storage w)) imported)) = true ->
  importMemory quota JSON_parse text w
    = (Normal tt,
       with_log
         (with_storage w
            (with_qaMemory (storage w) (spread_merge (qaMemory (storage w)) imported)))
         (EvAlert "Imported items" :: EvStorageSet "qaMemory" :: log w)).
Proof.
  intros Hparse Hquota. unfold importMemory, try_catch. rewrite Hparse.
  erewrite bind_normal; [|reflexivity].
  erewrite bind_normal; [|apply storage_set_accepted; exact Hquota].
  reflexivity.
Qed.

Lemma export_import_export (quota : Storage -> bool)
    (stringify : gmap string string -> string)
    (parse : string -> option (gmap string string))
    (m : gmap string string) (source target : World) :
  qaMemory (storage source) = m ->
  qaMemory (storage target) = ∅ ->
  parse (stringify m) = Some m ->
  quota (with_qaMemory (storage target) m) = true ->
  exists text source' target' text' target'',
    exportMemory stringify source = (Normal text, source') /\
    importMemory quota parse text target = (Normal tt, target') /\
    exportMemory stringify target' = (Normal text', target'') /\
    qaMemory (storage target') = m /\
    parse text' = Some m.
Proof.
  intros Hsrc Htgt Hcodec Hquota.
  assert (Hmerge : spread_merge (qaMemory (storage target)) m = m)
    by (rewrite Htgt; apply spread_merge_into_empty).
  exists (stringify m). eexists. eexists. exists (stringify m). eexists.
  split; [|split; [|split; [|split]]].
  - unfold exportMemory. erewrite bind_normal; [|reflexivity]. rewrite Hsrc.
    reflexivity.
  - apply importMemory_merges with (imported := m); [exact Hcodec|].
    now rewrite Hmerge.
  - unfold exportMemory. erewrite bind_normal; [|reflexivity].
    cbn [storage with_log with_storage qaMemory with_qaMemory].
    rewrite Hmerge. reflexivity.
  - cbn [storage with_log with_storage qaMemory with_qaMemory]. exact Hmerge.
  - exact Hcodec.
Qed.

(** C6. A mapping exported from the memory store, imported into an empty
    store and exported again is the same mapping; and an import into
    any store is a shallow merge: a key of the imported mapping takes
    the imported value, every other key keeps the value it had. Both
    hold when the host's parser reads back what its printer wrote and
    the host accepts the write; with the JSON instance of this file,
    which reads back every mapping it prints, the round trip holds for
    every mapping. *)
Theorem memory_export_import_roundtrip
    (quota : Storage -> bool)
    (JSON_stringify : gmap string string -> string)
    (JSON_parse : string -> option (gmap string string)) :
  (forall (m : gmap string string) (source target : World),
      qaMemory (storage source) = m ->
      qaMemory (storage target) = ∅ ->
      JSON_parse (JSON_stringify m) = Some m ->
      quota (with_qaMemory (storage target) m) = true ->
      exists text source' target' text' target'',
        exportMemory JSON_stringify source = (Normal text, source') /\
        importMemory quota JSON_parse text target = (Normal tt, target') /\
        exportMemory JSON_stringify target' = (Normal text', target'') /\
        qaMemory (storage target') = m /\
        JSON_parse text' = Some m) /\
  (forall (w : World) (text : string) (imported : gmap string string),
      JSON_parse text = Some imported ->
      quota (with_qaMemory (storage w)
               (spread_merge (qaMemory (storage w)) imported)) = true ->
      exists w',
        importMemory quota JSON_parse text w = (Normal tt, w') /\
        forall k,
          qaMemory (storage w') !! k =
          match imported !! k with
          | Some v => Some v
          | None => qaMemory (storage w) !! k
          end) /\
  (forall (m : gmap string string) (source target : World),
      qaMemory (storage source) = m ->
      qaMemory (storage target) = ∅ ->
      quota (with_qaMemory (storage target) m) = true ->
      exists text source' target' text' target'',
        exportMemory Json.stringify source = (Normal text, source') /\
        importMemory quota Json.parse text target = (Normal tt, target') /\
        exportMemory Json.stringify target' = (Normal text', target'') /\
        qaMemory (storage target') = m /\
        Json.parse text' = Some m).
Proof.
  split; [|split].
  - intros m source target. apply export_import_export.
  - intros w text imported Hparse Hquota. eexists. split.
    + now apply importMemory_merges with (imported := imported).
    + intros k. cbn [storage with_log with_storage qaMemory with_qaMemory].
      apply spread_merge_lookup.
  - intros m source target Hsrc Htgt Hquota.
    now apply export_import_export; [| |apply parse_stringify|].
Qed.

Lemma memory_export_import_roundtrip_witness :
  exists text source' target' text' target'',
    exportMemory Json.stringify (popup_world sample_storage) = (Normal text, source') /\
    importMemory unlimited Json.parse text (popup_world empty_storage)
      = (Normal tt, target') /\
    exportMemory Json.stringify target' = (Normal text', target'') /\
    qaMemory (storage target') = sample_memory /\
    Json.parse text' = Some sample_memory.
Proof.
  apply (proj1 (memory_export_import_roundtrip unlimited Json.stringify Json.parse)
           sample_memory (popup_world sample_storage) (popup_world empty_storage)).
  - reflexivity.
  - reflexivity.
  - vm_compute. reflexivity.
  - reflexivity.
Defined.

End Memory.

(* ===================================================================== *)
(** ** The standard fill pass: what a step may touch *)
(* ===================================================================== *)

Section Frame.
Import Dom Store Run Content Spec.

Lemma same_control_refl (e : Element) : same_control e e.
Proof. unfold same_control. now destruct e. Qed.

Lemma same_control_trans (e1 e2 e3 : Element) :
  same_control e1 e2 -> same_control e2 e3 -> same_control e1 e3.
Proof. unfold same_control. intros H12 H23. rewrite H23, H12. reflexivity. Qed.

Lemma same_control_with_files (e : Element) (fs : list string) (v : string) :
  same_control e (with_files e fs v).
Proof. reflexivity. Qed.

Lemma same_control_with_value (e : Element) (v : string) :
  same_control e (with_value e v).
Proof. reflexivity. Qed.

Lemma with_elements_id (p : Page) : with_elements p (elements p) = p.
Proof. now destruct p. Qed.

Lemma modifies_only_refl (i : nat) (p : Page) : modifies_only i p p.
Proof.
  exists (elements p). split; [now rewrite with_elements_id|].
  split; [reflexivity|]. split; [reflexivity|].
  intros e He. exists e. split; [exact He | apply same_control_refl].
Qed.

Lemma modifies_only_trans (i : nat) (p1 p2 p3 : Page) :
  modifies_only i p1 p2 -> modifies_only i p2 p3 -> modifies_only i p1 p3.
Proof.
  intros (els2 & -> & Hlen2 & Hother2 & Hat2) (els3 & -> & Hlen3 & Hother3 & Hat3).
  simpl in *. exists els3. split; [reflexivity|].
  split; [congruence|]. split.
  - intros j Hj. rewrite Hother3, Hother2; auto.
  - intros e He. destruct (Hat2 e He) as (e2 & He2 & Hs2).
    destruct (Hat3 e2 He2) as (e3 & He3 & Hs3).
    exists e3. split; [exact He3 | eapply same_control_trans; eauto].
Qed.

Lemma modifies_only_insert (i : nat) (p : Page) (e e' : Element) :
  elements p !! i = Some e -> same_control e e' ->
  modifies_only i p (with_elements p (<[i := e']> (elements p))).
Proof.
  intros He Hs. exists (<[i := e']> (elements p)).
  split; [reflexivity|]. split; [apply length_insert|]. split.
  - intros j Hj. now apply list_lookup_insert_ne.
  - intros e0 He0. exists e'. split.
    + apply list_lookup_insert_eq. now apply lookup_lt_Some in He.
    + congruence.
Qed.

Lemma confined_ret {A} (i : nat) (a : A) : confined i (mret a).
Proof. intros w. apply modifies_only_refl. Qed.

Lemma confined_bind {A B} (i : nat) (m : M A) (k : A -> M B) :
  confined i m -> (forall a, confined i (k a)) -> confined i (m ≫= k).
Proof.
  intros Hm Hk w. rewrite bind_run. specialize (Hm w).
  destruct (m w) as [[a|err] w1]; simpl in *; [|exact Hm].
  eapply modifies_only_trans; [exact Hm | apply Hk].
Qed.

Lemma confined_try_catch {A} (i : nat) (m : M A) (h : string -> M A) :
  confined i m -> (forall err, confined i (h err)) -> confined i (try_catch m h).
Proof.
  intros Hm Hh w. unfold try_catch. specialize (Hm w).
  destruct (m w) as [[a|err] w1]; simpl in *; [exact Hm|].
  eapply modifies_only_trans; [exact Hm | apply Hh].
Qed.

Lemma confined_note (i : nat) (ev : Event) : confined i (note ev).
Proof. intros w. apply modifies_only_refl. Qed.

Lemma confined_prompt (i : nat) (message : string) : confined i (prompt message).
Proof. intros w. unfold prompt. destruct (answers w); apply modifies_only_refl. Qed.

Lemma confined_element_at (i j : nat) : confined i (element_at j).
Proof. intros w. apply modifies_only_refl. Qed.

Lemma confined_storage_set (i : nat) (quota : Storage -> bool) (key : string)
    (update : Storage -> Storage) :
  confined i (storage_set quota key update).
Proof.
  intros w. unfold storage_set.
  destruct (quota (update (storage w))); apply modifies_only_refl.
Qed.

Lemma confined_set_value (i : nat) (v : string) : confined i (set_value i v).
Proof.
  intros w. unfold set_value.
  destruct (elements (page w) !! i) as [e|] eqn:He; [|apply modifies_only_refl].
  destruct (el_rejects e); [apply modifies_only_refl|].
  simpl. eapply modifies_only_insert; [exact He | apply same_control_with_value].
Qed.

Lemma confined_set_files (i : nat) (name : string) : confined i (set_files i name).
Proof.
  intros w. unfold set_files.
  destruct (elements (page w) !! i) as [e|] eqn:He; [|apply modifies_only_refl].
  destruct (el_rejects e); [apply modifies_only_refl|].
  simpl. eapply modifies_only_insert; [exact He | apply same_control_with_files].
Qed.

Ltac confine_step :=
  first
    [ apply confined_ret
    | apply confined_note
    | apply confined_prompt
    | apply confined_element_at
    | apply confined_storage_set
    | apply confined_set_value
    | apply confined_set_files
    | apply confined_bind
    | apply confined_try_catch
    | progress intros
    | progress cbv zeta
    | match goal with
      | |- confined _ (match ?x with _ => _ end) => destruct x
      end ].

Ltac confine := repeat confine_step.

Lemma confined_selectBestOption (i : nat) (answer : string) :
  confined i (selectBestOption i answer).
Proof. unfold selectBestOption, choose, dispatchEvent. confine. Qed.

Lemma confined_fill_text (i : nat) (v : string) : confined i (fill_text i v).
Proof. unfold fill_text, dispatchEvent. confine. Qed.

Lemma confined_attach (i : nat) (a : Asset) : confined i (attach i a).
Proof. unfold attach, dispatchEvent. confine. Qed.

Lemma confined_fill_field (quota : Storage -> bool) (resume coverLetter : option Asset)
    (field : Field) (st : Locals) :
  confined (f_element field) (fill_field quota resume coverLetter field st).
Proof.
  unfold fill_field, storage_set_qaMemory, alert.
  repeat first
    [ apply confined_selectBestOption
    | apply confined_fill_text
    | apply confined_attach
    | confine_step ].
Qed.

(** A control that already holds a value is passed over. *)
Lemma fill_field_skips_filled (quota : Storage -> bool)
    (resume coverLetter : option Asset) (field : Field) (st : Locals)
    (w : World) (e : Element) :
  elements (page w) !! f_element field = Some e ->
  el_value e <> EmptyString ->
  fill_field quota resume coverLetter field st w = (Normal st, w).
Proof.
  intros He Hv. unfold fill_field.
  erewrite bind_normal; [|unfold element_at; rewrite He; reflexivity].
  apply truthy_true in Hv. cbv beta iota. now rewrite Hv.
Qed.

Lemma fill_field_preserves_filled (quota : Storage -> bool)
    (resume coverLetter : option Asset) (field : Field) (st : Locals) (w : World) :
  preserves_filled (page w)
    (page (snd (fill_field quota resume coverLetter field st w))).
Proof.
  intros j e He Hv.
  destruct (decide (j = f_element field)) as [->|Hne].
  - now rewrite (fill_field_skips_filled _ _ _ _ _ _ _ He Hv).
  - destruct (confined_fill_field quota resume coverLetter field st w)
      as (els & -> & _ & Hother & _).
    simpl. now rewrite Hother.
Qed.

Lemma preserves_filled_trans (p1 p2 p3 : Page) :
  preserves_filled p1 p2 -> preserves_filled p2 p3 -> preserves_filled p1 p3.
Proof. intros H12 H23 i e He Hv. apply H23; [apply H12|]; assumption. Qed.

Lemma for_of_preserves_filled (quota : Storage -> bool)
    (resume coverLetter : option Asset) (fields : list Field) :
  forall (st : Locals) (w : World),
    preserves_filled (page w)
      (page (snd (for_of fields (fill_field quota resume coverLetter) st w))).
Proof.
  induction fields as [|field fields IH]; intros st w; simpl.
  - intros i e He _. exact He.
  - unfold bind.
    pose proof (fill_field_preserves_filled quota resume coverLetter field st w) as Hstep.
    destruct (fill_field quota resume coverLetter field st w) as [[st'|err] w1];
      simpl in *; [|exact Hstep].
    eapply preserves_filled_trans; [exact Hstep | apply IH].
Qed.

(** C3. Whatever the human answers and whatever the host refuses, a
    control that holds a non-empty value when the standard fill pass
    begins is the same after every step of the loop over the fields and
    when the pass ends, whether it returns or is aborted. *)
Theorem fillFormWithMemory_never_overwrites
    (quota : Storage -> bool) (w : World) (i : nat) (e : Element) :
  elements (page w) !! i = Some e ->
  el_value e <> EmptyString ->
  (forall steps,
      elements (page (snd (for_of (take steps (findAllFields (page w)))
                             (fill_field quota (resume (storage w))
                                (coverLetter (storage w)))
                             {| l_qaMemory := qaMemory (storage w);
                                l_filledCount := 0; l_askedCount := 0 |} w)))
        !! i = Some e) /\
  elements (page (snd (fillFormWithMemory quota w))) !! i = Some e.
Proof.
  intros He Hv. split.
  - intros steps. now apply for_of_preserves_filled.
  - unfold fillFormWithMemory. rewrite bind_run.
    pose proof (for_of_preserves_filled quota (resume (storage w))
                  (coverLetter (storage w)) (findAllFields (page w))
                  {| l_qaMemory := qaMemory (storage w);
                     l_filledCount := 0; l_askedCount := 0 |} w) as Hpass.
    destruct (for_of _ _ _ w) as [[st|err] w1]; simpl in *; now apply Hpass.
Qed.

Lemma fillFormWithMemory_never_overwrites_witness :
  elements (page (snd (fillFormWithMemory unlimited mixed_world))) !! 3
  = Some (with_value (labelled (blank TEXTAREA "textarea") "Email") "typed@by.hand").
Proof.
  apply (fillFormWithMemory_never_overwrites unlimited mixed_world 3
           (with_value (labelled (blank TEXTAREA "textarea") "Email") "typed@by.hand")
           eq_refl).
  discriminate.
Defined.

End Frame.

(* ===================================================================== *)
(** ** The standard fill pass: a required field and the human *)
(* ===================================================================== *)

Section Scenario.
Import Dom Store Run Content Spec.

Lemma findAllFields_single (p : Page) (el : Element) :
  elements p = [el] -> visible el = true ->
  findAllFields p = [describe p 0 el].
Proof. intros Hels Hvis. unfold findAllFields. rewrite Hels. simpl. now rewrite Hvis. Qed.

Lemma prompt_reply (message : string) (w : World) (reply : option string)
    (later : list (option string)) :
  answers w = reply :: later ->
  prompt message w
    = (Normal reply, with_answers (with_log w (EvPrompt message :: log w)) later).
Proof. intros H. unfold prompt. now rewrite H. Qed.

Lemma set_value_accepted (i : nat) (v : string) (w : World) (e : Element) :
  elements (page w) !! i = Some e -> el_rejects e = false ->
  set_value i v w
    = (Normal tt,
       with_page w (with_elements (page w)
         (<[i := with_value e (assigned_value e v)]> (elements (page w))))).
Proof. intros He Hr. unfold set_value. now rewrite He, Hr. Qed.

Lemma set_value_rejected (i : nat) (v : string) (w : World) (e : Element) :
  elements (page w) !! i = Some e -> el_rejects e = true ->
  set_value i v w = (Throw "InvalidStateError", w).
Proof. intros He Hr. unfold set_value. now rewrite He, Hr. Qed.

Lemma fill_text_accepted (i : nat) (v : string) (w : World) (e : Element) :
  elements (page w) !! i = Some e -> el_rejects e = false ->
  fill_text i v w
    = (Normal tt,
       with_log
         (with_page w (with_elements (page w)
            (<[i := with_value e (assigned_value e v)]> (elements (page w)))))
         (EvDispatch i "change" :: EvDispatch i "input" :: log w)).
Proof.
  intros He Hr. unfold fill_text.
  erewrite bind_normal; [|apply (set_value_accepted i v w e He Hr)].
  reflexivity.
Qed.

Lemma fill_text_rejected (i : nat) (v : string) (w : World) (e : Element) :
  elements (page w) !! i = Some e -> el_rejects e = true ->
  fill_text i v w = (Throw "InvalidStateError", w).
Proof.
  intros He Hr. unfold fill_text.
  erewrite bind_throw; [reflexivity | apply (set_value_rejected i v w e He Hr)].
Qed.

(** C4. With an empty memory and a page whose only control is a required
    text field labelled Phone: when the human answers 9998887777 the
    pass returns success with one field filled, one asked and one in
    total, the field holds the answer and the memory maps phone to it;
    when the human cancels or answers nothing the field and the memory
    are left as they were and the pass still returns success. *)
Theorem fillForm_required_phone
    (quota : Storage -> bool) (w : World) (el : Element)
    (reply : option string) (later : list (option string)) :
  elements (page w) = [el] ->
  qaMemory (storage w) = ∅ ->
  answers w = reply :: later ->
  visible el = true ->
  tagName el = INPUT ->
  el_type el = "text" ->
  el_labels el = ["Phone"] ->
  el_required_prop el || el_required_attr el = true ->
  el_value el = EmptyString ->
  el_rejects el = false ->
  quota (with_qaMemory (storage w) (phone_memory "9998887777")) = true ->
  (reply = Some "9998887777" ->
   exists w',
     fillFormWithMemory quota w = (Normal (fill_result 1 1 1), w') /\
     elements (page w') = [with_value el "9998887777"] /\
     qaMemory (storage w') = phone_memory "9998887777") /\
  (supplied reply = None ->
   exists w',
     fillFormWithMemory quota w = (Normal (fill_result 0 0 1), w') /\
     page w' = page w /\
     storage w' = storage w).
Proof.
  intros Hels Hmem Hans Hvis Htag Htype Hlab Hreq Hval Hrej Hquota.
  assert (Hat : elements (page w) !! 0 = Some el) by now rewrite Hels.
  assert (Hq : question_of (describe (page w) 0 el) = "phone").
  { unfold question_of, describe, label_of. simpl. rewrite Hlab. reflexivity. }
  assert (Hbody :
    fill_field quota (resume (storage w)) (coverLetter (storage w))
      (describe (page w) 0 el)
      {| l_qaMemory := qaMemory (storage w); l_filledCount := 0; l_askedCount := 0 |} w
    = (reply' ← prompt "Required: Phone";
       match supplied reply' with
       | Some answer =>
           fill_text 0 answer;;
           storage_set_qaMemory quota (phone_memory answer);;
           mret {| l_qaMemory := phone_memory answer;
                   l_filledCount := 1; l_askedCount := 1 |}
       | None => mret {| l_qaMemory := ∅; l_filledCount := 0; l_askedCount := 0 |}
       end) w).
  { unfold fill_field.
    erewrite bind_normal; [|unfold element_at; cbn [f_element describe]; rewrite Hat; reflexivity].
    cbv beta iota zeta. rewrite Hval, Hq.
    cbn [f_type f_required f_tag f_label f_placeholder f_name f_element describe l_qaMemory
         l_filledCount l_askedCount].
    rewrite Htype, Htag, Hreq, Hmem.
    unfold label_of. rewrite Hlab.
    reflexivity. }
  unfold fillFormWithMemory.
  rewrite (findAllFields_single _ _ Hels Hvis). cbn [for_of length].
  rewrite bind_run. unfold bind. rewrite Hbody.
  rewrite (bind_normal _ _ _ _ _ (prompt_reply _ _ _ _ Hans)).
  split.
  - intros ->. cbn [supplied JS.truthy].
    eexists. split; [|split].
    + erewrite bind_normal; [|eapply fill_text_accepted; [exact Hat | exact Hrej]].
      unfold storage_set_qaMemory.
      erewrite bind_normal; [|apply storage_set_accepted; exact Hquota].
      reflexivity.
    + cbn [page with_log with_storage with_page with_answers elements with_elements].
      rewrite Hels. unfold assigned_value. rewrite Htag. reflexivity.
    + reflexivity.
  - intros Hnone. rewrite Hnone.
    eexists. split; [reflexivity|]. split; reflexivity.
Qed.

Lemma fillForm_required_phone_witness :
  (exists w',
      fillFormWithMemory unlimited (phone_world (Some "9998887777"))
        = (Normal (fill_result 1 1 1), w') /\
      elements (page w') = [with_value phone_field "9998887777"] /\
      qaMemory (storage w') = phone_memory "9998887777") /\
  (exists w',
      fillFormWithMemory unlimited (phone_world None)
        = (Normal (fill_result 0 0 1), w') /\
      page w' = page (phone_world None) /\
      storage w' = storage (phone_world None)).
Proof.
  split.
  - apply (proj1 (fillForm_required_phone unlimited (phone_world (Some "9998887777"))
                    phone_field (Some "9998887777") []
                    eq_refl eq_refl eq_refl eq_refl eq_refl eq_refl eq_refl
                    eq_refl eq_refl eq_refl eq_refl) eq_refl).
  - apply (proj2 (fillForm_required_phone unlimited (phone_world None)
                    phone_field None []
                    eq_refl eq_refl eq_refl eq_refl eq_refl eq_refl eq_refl
                    eq_refl eq_refl eq_refl eq_refl) eq_refl).
Defined.

(** The file branch of the loop body never throws: a refused attach is
    caught and reported. *)
Lemma fill_field_file_contained (quota : Storage -> bool)
    (resume coverLetter : option Asset) (field : Field) (st : Locals) (w : World) :
  f_type field = "file" ->
  exists st' w', fill_field quota resume coverLetter field st w = (Normal st', w').
Proof.
  intros Hfile. unfold fill_field. rewrite bind_run. unfold element_at.
  destruct (elements (page w) !! f_element field) as [e|] eqn:He; [|eauto].
  destruct (JS.truthy (el_value e)); [eauto|].
  destruct (negb (JS.truthy (question_of field))); [eauto|].
  rewrite Hfile. cbn [String.eqb Ascii.eqb Bool.eqb].
  cbv zeta. unfold try_catch, attach, set_files.
  repeat match goal with
         | |- context [match (if ?b then _ else _) with _ => _ end] => destruct b
         | |- context [match ?o with Some _ => _ | None => _ end] =>
             match type of o with option Asset => destruct o end
         end;
    rewrite ?bind_run, ?He; destruct (el_rejects e); try destruct (f_required field);
    eauto.
Qed.

(** C5, at the failing inputs. A refused write of the memory while a
    prompted answer is persisted aborts the pass: it throws, and the
    second field is neither asked about nor filled. A refused assignment
    of a remembered answer to a text field aborts it as well, before the
    next field is reached. A refused file attach, which the loop body
    guards, is contained: the pass goes on to the next field and returns
    its counts. *)
Theorem fillFormWithMemory_aborts_on_unguarded_failure :
  fillFormWithMemory exhausted two_field_world
    = (Throw "QUOTA_BYTES quota exceeded",
       {| page := form_page [with_value phone_field "9998887777"; email_field];
          storage := empty_storage;
          answers := [Some "me@example.org"];
          log := [EvDispatch 0 "change"; EvDispatch 0 "input";
                  EvPrompt "Required: Phone"] |}) /\
  fillFormWithMemory unlimited rejected_text_world
    = (Throw "InvalidStateError", rejected_text_world) /\
  fst (fillFormWithMemory unlimited two_field_world) = Normal (fill_result 2 2 2) /\
  exists w',
    fillFormWithMemory unlimited rejected_file_world
      = (Normal (fill_result 1 1 2), w') /\
    elements (page w') = [resume_field; with_value phone_field "9998887777"].
Proof.
  split; [|split; [|split]].
  - vm_compute. reflexivity.
  - vm_compute. reflexivity.
  - vm_compute. reflexivity.
  - eexists. split; vm_compute; reflexivity.
Qed.

End Scenario.

(* ===================================================================== *)
(** ** The standard fill pass when no prompt is answered *)
(* ===================================================================== *)

Section Declined.
Import Dom Store Run Content Spec.

Variable quota : Storage -> bool.
Variables resume coverLetter : option Asset.

Lemma with_value_same (el : Element) :
  with_value el (el_value el) = el.
Proof. now destruct el. Qed.

Lemma page_insert_same (p : Page) (i : nat) (el : Element) :
  elements p !! i = Some el ->
  with_elements p (<[i := el]> (elements p)) = p.
Proof. intros H. rewrite list_insert_id by exact H. apply with_elements_id. Qed.

Lemma intent_needs_empty (mem : gmap string string) (field : Field) (el : Element) :
  intent resume coverLetter mem field el <> Leave -> el_value el = EmptyString.
Proof.
  unfold intent. destruct (JS.truthy (el_value el)) eqn:Hv; [congruence|].
  intros _. now apply truthy_false.
Qed.

Lemma intent_of_filled (mem : gmap string string) (field : Field) (el : Element) :
  el_value el <> EmptyString -> intent resume coverLetter mem field el = Leave.
Proof. intros Hv. unfold intent. apply truthy_true in Hv. now rewrite Hv. Qed.

(** Once carried out, the intent for the control asks for nothing more. *)
Lemma carried_out_settled (mem : gmap string string) (field : Field) (el : Element) :
  let el' := carried_out (intent resume coverLetter mem field el) el in
  carried_out (intent resume coverLetter mem field el') el' = el' /\
  aborts (intent resume coverLetter mem field el') el'
    = aborts (intent resume coverLetter mem field el) el.
Proof.
  destruct (intent resume coverLetter mem field el) as [|name|v] eqn:Hit; simpl.
  - now rewrite Hit.
  - destruct (el_rejects el) eqn:Hr; [now rewrite Hit; simpl; rewrite Hr|].
    rewrite intent_of_filled; [auto | discriminate].
  - destruct (el_rejects el) eqn:Hr; [now rewrite Hit; simpl; rewrite Hr|].
    assert (Hempty : el_value el = EmptyString)
      by (apply (intent_needs_empty mem field); congruence).
    destruct (assigned_value el v) as [|c rest] eqn:Hv.
    + rewrite <- Hempty, with_value_same, Hit. simpl. rewrite Hr.
      rewrite Hv. rewrite <- Hempty at 1. now rewrite with_value_same.
    + rewrite intent_of_filled; [auto | discriminate].
Qed.

Lemma prompt_declined (message : string) (w : World) :
  all_declined (answers w) ->
  exists reply w',
    prompt message w = (Normal reply, w') /\
    supplied reply = None /\
    page w' = page w /\ storage w' = storage w /\ all_declined (answers w').
Proof.
  intros Hd. unfold prompt. destruct (answers w) as [|a rest] eqn:Ha.
  - eexists. eexists. split; [reflexivity|]. simpl. rewrite Ha. repeat split.
    constructor.
  - inversion Hd; subst. eexists. eexists. split; [reflexivity|]. simpl.
    repeat split; assumption.
Qed.

Lemma selectBestOption_declined (i : nat) (answer : string) (w : World) (el : Element) :
  elements (page w) !! i = Some el ->
  all_declined (answers w) ->
  let it := match pick (el_options el) answer with
            | Some opt => Assign (opt_value opt)
            | None => Leave
            end in
  let r := selectBestOption i answer w in
  page (snd r) = with_elements (page w) (<[i := carried_out it el]> (elements (page w))) /\
  storage (snd r) = storage w /\
  all_declined (answers (snd r)) /\
  (if aborts it el then exists err, fst r = Throw err
   else exists matched, fst r = Normal matched).
Proof.
  intros He Hd. unfold selectBestOption, pick.
  erewrite bind_normal; [|unfold element_at; rewrite He; reflexivity].
  cbv beta iota zeta.
  destruct (first_option (exact_match answer) (el_options el)) as [opt|];
    [|destruct (first_option (partial_match answer) (el_options el)) as [opt|]];
    simpl.
  3: { rewrite page_insert_same by exact He. eauto. }
  all: unfold choose; destruct (el_rejects el) eqn:Hr.
  all: try (erewrite bind_throw; [|eapply set_value_rejected; eassumption];
            simpl; rewrite page_insert_same by exact He; eauto).
  all: erewrite bind_normal; [|eapply set_value_accepted; eassumption];
       simpl; eauto.
Qed.

Ltac settle := repeat split; eauto 10.

Lemma lands_leave (field : Field) (st st' : Locals) (w w' : World) (el : Element) :
  elements (page w) !! f_element field = Some el ->
  page w' = page w -> storage w' = storage w -> all_declined (answers w') ->
  l_qaMemory st' = l_qaMemory st ->
  lands Leave field st w el (Normal st', w').
Proof.
  intros He Hp Hs Ha Hm. unfold lands. simpl.
  rewrite page_insert_same by exact He. settle.
Qed.

Lemma lands_attach (field : Field) (st : Locals) (w : World) (el : Element)
    (a : Asset) (note1 note2 : string) :
  elements (page w) !! f_element field = Some el ->
  all_declined (answers w) ->
  lands (Attach (a_name a)) field st w el
    (try_catch
       (attach (f_element field) a;; mret (filled st))
       (fun err => note (EvConsoleError note1);; alert note2;; mret st) w).
Proof.
  intros He Hd. unfold lands, try_catch, attach, set_files. simpl.
  rewrite !bind_run, He.
  destruct (el_rejects el); simpl.
  - rewrite page_insert_same by exact He. settle.
  - settle.
Qed.

Lemma lands_assign (field : Field) (st : Locals) (w : World) (el : Element)
    (v : string) :
  elements (page w) !! f_element field = Some el ->
  all_declined (answers w) ->
  lands (Assign v) field st w el
    ((fill_text (f_element field) v;; mret (filled st)) w).
Proof.
  intros He Hd. unfold lands. simpl.
  destruct (el_rejects el) eqn:Hr.
  - erewrite bind_throw; [|eapply fill_text_rejected; eassumption].
    simpl. rewrite page_insert_same by exact He. settle.
  - erewrite bind_normal; [|eapply fill_text_accepted; eassumption].
    simpl. settle.
Qed.

Lemma lands_select (field : Field) (st : Locals) (w : World) (el : Element)
    (answer : string) :
  elements (page w) !! f_element field = Some el ->
  all_declined (answers w) ->
  lands (match pick (el_options el) answer with
         | Some opt => Assign (opt_value opt)
         | None => Leave
         end) field st w el
    ((matched ← selectBestOption (f_element field) answer;
      mret (if matched : bool then filled st else st)) w).
Proof.
  intros He Hd.
  destruct (selectBestOption_declined (f_element field) answer w el He Hd)
    as (Hp & Hs & Ha & Hc).
  unfold lands. rewrite bind_run.
  destruct (selectBestOption (f_element field) answer w) as [[matched|err] w'];
    simpl in *.
  - split; [exact Hp|]. split; [exact Hs|]. split; [exact Ha|].
    destruct (aborts _ el).
    + destruct Hc as [err Herr]. discriminate Herr.
    + destruct matched; eauto.
  - split; [exact Hp|]. split; [exact Hs|]. split; [exact Ha|].
    destruct (aborts _ el).
    + eauto.
    + destruct Hc as [m Hm]. discriminate Hm.
Qed.

Lemma fill_field_declined (field : Field) (st : Locals) (w : World) (el : Element) :
  elements (page w) !! f_element field = Some el ->
  all_declined (answers w) ->
  lands (intent resume coverLetter (l_qaMemory st) field el) field st w el
    (fill_field quota resume coverLetter field st w).
Proof.
  intros He Hd. unfold intent, fill_field.
  erewrite bind_normal; [|unfold element_at; rewrite He; reflexivity].
  cbv beta iota zeta.
  destruct (JS.truthy (el_value el)); [now apply lands_leave|].
  destruct (negb (JS.truthy (question_of field))); [now apply lands_leave|].
  destruct (String.eqb (f_type field) "file").
  - destruct (if JS.includes (question_of field) "resume" || _ then resume else None)
      as [r|]; [now apply lands_attach|].
    destruct (if JS.includes (question_of field) "cover" || _ then coverLetter else None)
      as [c|]; [now apply lands_attach|].
    destruct (f_required field); now apply lands_leave.
  - destruct (if JS.includes (question_of field) "resume" || _ then _ else None)
      as [v|]; [now apply lands_assign|].
    destruct (if JS.includes (question_of field) "cover" && _ then _ else None)
      as [v|]; [now apply lands_assign|].
    destruct (recall (l_qaMemory st) (question_of field)) as [answer|].
    + destruct (String.eqb (f_tag field) "select");
        [now apply lands_select | now apply lands_assign].
    + destruct (f_required field); [|now apply lands_leave].
      destruct (prompt_declined
                  ("Required: " ++ JS.or_else (f_label field)
                     (JS.or_else (f_placeholder field) (f_name field))) w Hd)
        as (reply & w' & Hrun & Hnone & Hp & Hs & Ha).
      erewrite bind_normal; [|exact Hrun]. rewrite Hnone.
      now apply lands_leave.
Qed.

Lemma fill_field_dangling (field : Field) (st : Locals) (w : World) :
  elements (page w) !! f_element field = None ->
  (fill_field quota resume coverLetter) field st w = (Normal st, w).
Proof.
  intros He. unfold fill_field.
  erewrite bind_normal; [|unfold element_at; rewrite He; reflexivity].
  reflexivity.
Qed.

Lemma fill_field_frame (field : Field) (st : Locals) (w : World) (j : nat) :
  j <> f_element field ->
  elements (page (snd ((fill_field quota resume coverLetter) field st w))) !! j = elements (page w) !! j.
Proof.
  intros Hj.
  destruct (confined_fill_field quota resume coverLetter field st w)
    as (els & -> & _ & Hother & _).
  simpl. now apply Hother.
Qed.

Lemma for_of_frame (fields : list Field) (j : nat) :
  ~ In j (map f_element fields) ->
  forall (st : Locals) (w : World),
    elements (page (snd (for_of fields (fill_field quota resume coverLetter) st w))) !! j = elements (page w) !! j.
Proof.
  induction fields as [|field fields IH]; intros Hj st w; [reflexivity|].
  simpl in Hj. cbn [for_of]. unfold bind.
  assert (Hne : j <> f_element field) by (intros ->; apply Hj; now left).
  assert (Hrest : ~ In j (map f_element fields)) by (intros H; apply Hj; now right).
  pose proof (fill_field_frame field st w j Hne) as Hstep.
  destruct ((fill_field quota resume coverLetter) field st w) as [[st'|err] w1]; simpl in *.
  - rewrite IH by exact Hrest. exact Hstep.
  - exact Hstep.
Qed.

(** A second run over the page the first run left changes nothing. *)
Lemma for_of_declined_settles (fields : list Field) :
  List.NoDup (map f_element fields) ->
  forall (st : Locals) (w : World) (st2 : Locals) (w2 : World),
    all_declined (answers w) ->
    all_declined (answers w2) ->
    l_qaMemory st2 = l_qaMemory st ->
    page w2 = page (snd (for_of fields (fill_field quota resume coverLetter) st w)) ->
    page (snd (for_of fields (fill_field quota resume coverLetter) st2 w2)) = page w2.
Proof.
  induction fields as [|field fields IH]; intros Hnodup st w st2 w2 Hd Hd2 Hmem Hpage;
    [reflexivity|].
  simpl in Hnodup. apply List.NoDup_cons_iff in Hnodup as [Hfresh Hnodup].
  cbn [for_of] in *. unfold bind in *.
  destruct (elements (page w) !! f_element field) as [el|] eqn:He.
  - pose proof (fill_field_declined field st w el He Hd) as (Hp & Hs & Ha & Hc).
    pose proof (carried_out_settled (l_qaMemory st) field el) as [Hsettled Haborts].
    set (el' := carried_out (intent resume coverLetter (l_qaMemory st) field el) el) in *.
    assert (Hlt : f_element field < length (elements (page w)))
      by (eapply lookup_lt_Some; exact He).
    assert (He2 : elements (page w2) !! f_element field = Some el').
    { rewrite Hpage.
      destruct ((fill_field quota resume coverLetter) field st w) as [[st'|err] w1]; simpl in *.
      - rewrite for_of_frame by exact Hfresh. rewrite Hp. simpl.
        now apply list_lookup_insert_eq.
      - rewrite Hp. simpl. now apply list_lookup_insert_eq. }
    pose proof (fill_field_declined field st2 w2 el' He2 Hd2) as (Hp2 & Hs2 & Ha2 & Hc2).
    rewrite Hmem, Hsettled, Haborts in *.
    rewrite page_insert_same in Hp2 by exact He2.
    destruct (aborts (intent resume coverLetter (l_qaMemory st) field el) el).
    + destruct Hc2 as [err2 Herr2].
      destruct ((fill_field quota resume coverLetter) field st2 w2) as [c2 w2a]; simpl in *. subst c2. exact Hp2.
    + destruct Hc as (st' & Hst' & Hm'). destruct Hc2 as (st2' & Hst2' & Hm2').
      destruct ((fill_field quota resume coverLetter) field st w) as [c wa]; simpl in *. subst c.
      destruct ((fill_field quota resume coverLetter) field st2 w2) as [c2 w2a]; simpl in *. subst c2.
      rewrite <- Hp2.
      apply (IH Hnodup st' wa st2' w2a); try assumption; congruence.
  - rewrite (fill_field_dangling field st w He) in Hpage.
    assert (He2 : elements (page w2) !! f_element field = None).
    { rewrite Hpage. rewrite for_of_frame by exact Hfresh. exact He. }
    rewrite (fill_field_dangling field st2 w2 He2).
    now apply (IH Hnodup st w st2 w2).
Qed.

(** Without answers the pass writes nothing to the storage. *)
Lemma for_of_declined_storage (fields : list Field) :
  forall (st : Locals) (w : World),
    all_declined (answers w) ->
    storage (snd (for_of fields (fill_field quota resume coverLetter) st w)) = storage w.
Proof.
  induction fields as [|field fields IH]; intros st w Hd; [reflexivity|].
  cbn [for_of]. unfold bind.
  destruct (elements (page w) !! f_element field) as [el|] eqn:He.
  - pose proof (fill_field_declined field st w el He Hd) as (_ & Hs & Ha & _).
    destruct ((fill_field quota resume coverLetter) field st w) as [[st'|err] w1]; simpl in *; [|exact Hs].
    rewrite IH by exact Ha. exact Hs.
  - rewrite (fill_field_dangling field st w He). now apply IH.
Qed.

End Declined.

(* ===================================================================== *)
(** ** Running the standard fill pass twice *)
(* ===================================================================== *)

Section Idempotence.
Import Dom Store Run Content Spec.

Lemma same_controls_refl (p : Page) : same_controls p p.
Proof.
  exists (elements p). split; [now rewrite with_elements_id|].
  apply Forall2_same_length_lookup. split; [reflexivity|].
  intros i x y Hx Hy. assert (x = y) as -> by congruence. apply same_control_refl.
Qed.

Lemma same_controls_trans (p1 p2 p3 : Page) :
  same_controls p1 p2 -> same_controls p2 p3 -> same_controls p1 p3.
Proof.
  intros (els2 & -> & H12) (els3 & -> & H23). simpl in *.
  exists els3. split; [reflexivity|].
  apply Forall2_same_length_lookup.
  apply Forall2_same_length_lookup in H12 as [Hl12 H12].
  apply Forall2_same_length_lookup in H23 as [Hl23 H23].
  split; [congruence|].
  intros i x z Hx Hz.
  destruct (els2 !! i) as [y|] eqn:Hy.
  - eapply same_control_trans; eauto.
  - apply lookup_ge_None in Hy. apply lookup_lt_Some in Hx. lia.
Qed.

Lemma modifies_only_same_controls (i : nat) (p p' : Page) :
  modifies_only i p p' -> same_controls p p'.
Proof.
  intros (els & -> & Hlen & Hother & Hat). exists els. split; [reflexivity|].
  apply Forall2_same_length_lookup. split; [now symmetry|].
  intros j x y Hx Hy. destruct (decide (j = i)) as [->|Hne].
  - destruct (Hat x Hx) as (e' & He' & Hs). congruence.
  - rewrite Hother in Hy by exact Hne.
    assert (x = y) as -> by congruence. apply same_control_refl.
Qed.

Lemma for_of_same_controls (quota : Storage -> bool) (resume coverLetter : option Asset)
    (fields : list Field) :
  forall (st : Locals) (w : World),
    same_controls (page w)
      (page (snd (for_of fields (fill_field quota resume coverLetter) st w))).
Proof.
  induction fields as [|field fields IH]; intros st w; [apply same_controls_refl|].
  cbn [for_of]. unfold bind.
  pose proof (modifies_only_same_controls _ _ _
                (confined_fill_field quota resume coverLetter field st w)) as Hstep.
  destruct (fill_field quota resume coverLetter field st w) as [[st'|err] w1];
    simpl in *; [|exact Hstep].
  eapply same_controls_trans; [exact Hstep | apply IH].
Qed.

Lemma same_control_describe (p p' : Page) (i : nat) (e e' : Element) :
  for_labels p' = for_labels p -> same_control e e' ->
  visible e' = visible e /\ describe p' i e' = describe p i e.
Proof.
  intros Hl Hs. rewrite Hs. split; [reflexivity|].
  unfold describe, label_of. simpl. now rewrite Hl.
Qed.

Lemma collect_fields_same_controls (p p' : Page) (els els' : list Element) :
  for_labels p' = for_labels p ->
  Forall2 same_control els els' ->
  forall i, collect_fields p' i els' = collect_fields p i els.
Proof.
  intros Hl Hall. induction Hall as [|e e' els els' Hs _ IH]; intros i; [reflexivity|].
  simpl. destruct (same_control_describe p p' i e e' Hl Hs) as [-> ->].
  now rewrite !IH.
Qed.

Lemma findAllFields_same_controls (p p' : Page) :
  same_controls p p' -> findAllFields p' = findAllFields p.
Proof.
  intros (els & -> & Hall). unfold findAllFields. simpl.
  now apply collect_fields_same_controls.
Qed.

Lemma collect_fields_from (p : Page) (els : list Element) :
  forall i f, In f (collect_fields p i els) -> i <= f_element f.
Proof.
  induction els as [|e els IH]; intros i f Hin; [destruct Hin|].
  simpl in Hin. destruct (visible e).
  - destruct Hin as [<-|Hin]; [simpl; lia|]. apply IH in Hin. lia.
  - apply IH in Hin. lia.
Qed.

Lemma collect_fields_NoDup (p : Page) (els : list Element) :
  forall i, List.NoDup (map f_element (collect_fields p i els)).
Proof.
  induction els as [|e els IH]; intros i; [constructor|].
  simpl. destruct (visible e); [|apply IH].
  simpl. constructor; [|apply IH].
  intros Hin. apply in_map_iff in Hin as (f & Hf & Hin).
  apply collect_fields_from in Hin. lia.
Qed.

Lemma fill_pass_world (quota : Storage -> bool) (w : World) :
  snd (fillFormWithMemory quota w)
  = snd (for_of (findAllFields (page w))
           (fill_field quota (resume (storage w)) (coverLetter (storage w)))
           {| l_qaMemory := qaMemory (storage w);
              l_filledCount := 0; l_askedCount := 0 |} w).
Proof.
  unfold fillFormWithMemory. rewrite bind_run.
  destruct (for_of _ _ _ w) as [[st|err] w1]; reflexivity.
Qed.

(** C8. When no prompt is answered, running the standard fill pass a
    second time on the page and the storage that the first run left
    changes no control: the page after the second run is the page
    after the first. *)
Theorem fillFormWithMemory_idempotent
    (quota : Storage -> bool) (w again : World) :
  all_declined (answers w) ->
  page again = page (snd (fillFormWithMemory quota w)) ->
  storage again = storage (snd (fillFormWithMemory quota w)) ->
  all_declined (answers again) ->
  page (snd (fillFormWithMemory quota again)) = page again.
Proof.
  intros Hd Hpage Hstore Hd2.
  rewrite fill_pass_world in Hpage, Hstore.
  rewrite for_of_declined_storage in Hstore by exact Hd.
  assert (Hfields : findAllFields (page again) = findAllFields (page w)).
  { rewrite Hpage. apply findAllFields_same_controls, for_of_same_controls. }
  rewrite fill_pass_world, Hfields, Hstore.
  apply (for_of_declined_settles quota (resume (storage w)) (coverLetter (storage w))
           (findAllFields (page w)) (collect_fields_NoDup _ _ _)
           _ w _ again Hd Hd2 eq_refl Hpage).
Qed.

Lemma fillFormWithMemory_idempotent_witness :
  page (snd (fillFormWithMemory unlimited
               (again_after (snd (fillFormWithMemory unlimited mixed_world)))))
  = page (snd (fillFormWithMemory unlimited mixed_world)) /\
  el_value <$> elements (page (snd (fillFormWithMemory unlimited mixed_world)))
  = ["me@example.org"; "c"; EmptyString; "typed@by.hand"].
Proof.
  split.
  - apply (fillFormWithMemory_idempotent unlimited mixed_world
             (again_after (snd (fillFormWithMemory unlimited mixed_world)))).
    + repeat constructor.
    + reflexivity.
    + reflexivity.
    + repeat constructor.
  - vm_compute. reflexivity.
Defined.

End Idempotence.

(* ===================================================================== *)
(** ** The panel loop *)
(* ===================================================================== *)

Section Panel.
Import Dom Store Run Content Spec.

Variable quota : Storage -> bool.
Variable react : Event -> Page -> Page.

Lemma iterations_app (a b : list Event) :
  iterations (a ++ b)%list = iterations a + iterations b.
Proof. unfold iterations. now rewrite List.filter_app, length_app. Qed.

Lemma quiet_ret {A} (a : A) : quiet (mret a).
Proof. intros w. exists []. split; reflexivity. Qed.

Lemma quiet_bind {A B} (m : M A) (k : A -> M B) :
  quiet m -> (forall a, quiet (k a)) -> quiet (m ≫= k).
Proof.
  intros Hm Hk w. rewrite bind_run. destruct (Hm w) as (d1 & Hl1 & Hi1).
  destruct (m w) as [[a|err] w1]; simpl in *; [|eauto].
  destruct (Hk a w1) as (d2 & Hl2 & Hi2).
  exists (d2 ++ d1)%list. split.
  - rewrite Hl2, Hl1. now rewrite app_assoc.
  - rewrite iterations_app. lia.
Qed.

Lemma quiet_try_catch {A} (m : M A) (h : string -> M A) :
  quiet m -> (forall err, quiet (h err)) -> quiet (try_catch m h).
Proof.
  intros Hm Hh w. unfold try_catch. destruct (Hm w) as (d1 & Hl1 & Hi1).
  destruct (m w) as [[a|err] w1]; simpl in *; [eauto|].
  destruct (Hh err w1) as (d2 & Hl2 & Hi2).
  exists (d2 ++ d1)%list. split.
  - rewrite Hl2, Hl1. now rewrite app_assoc.
  - rewrite iterations_app. lia.
Qed.

Lemma quiet_note (ev : Event) : starts_iteration ev = false -> quiet (note ev).
Proof.
  intros Hev w. exists [ev]. split; [reflexivity|].
  unfold iterations. simpl. now rewrite Hev.
Qed.

Lemma quiet_emit (ev : Event) : starts_iteration ev = false -> quiet (emit react ev).
Proof.
  intros Hev w. exists [ev]. split; [reflexivity|].
  unfold iterations. simpl. now rewrite Hev.
Qed.

Lemma quiet_prompt (message : string) : quiet (prompt message).
Proof.
  intros w. exists [EvPrompt message]. split; [|reflexivity].
  unfold prompt. destruct (answers w); reflexivity.
Qed.

Lemma quiet_get_world : quiet get_world.
Proof. intros w. exists []. split; reflexivity. Qed.

Lemma quiet_element_at (i : nat) : quiet (element_at i).
Proof. intros w. exists []. split; reflexivity. Qed.

Lemma quiet_set_value (i : nat) (v : string) : quiet (set_value i v).
Proof.
  intros w. exists []. split; [|reflexivity]. unfold set_value.
  destruct (elements (page w) !! i) as [e|]; [|reflexivity].
  destruct (el_rejects e); reflexivity.
Qed.

Lemma quiet_storage_set (key : string) (update : Storage -> Storage) :
  quiet (storage_set quota key update).
Proof.
  intros w. unfold storage_set. destruct (quota (update (storage w))).
  - exists [EvStorageSet key]. split; reflexivity.
  - exists []. split; reflexivity.
Qed.

Ltac hush_step :=
  first
    [ apply quiet_ret
    | apply quiet_get_world
    | apply quiet_element_at
    | apply quiet_prompt
    | apply quiet_set_value
    | apply quiet_storage_set
    | apply quiet_note; reflexivity
    | apply quiet_emit; reflexivity
    | apply quiet_bind
    | apply quiet_try_catch
    | progress intros
    | progress cbv zeta
    | match goal with
      | |- quiet (match ?x with _ => _ end) => destruct x
      end ].

Lemma quiet_fill_first_input (answer : string) (ins : list nat) :
  quiet (fill_first_input react answer ins).
Proof.
  induction ins as [|i ins IH]; cbn [fill_first_input]; unfold sleep;
    repeat first [ exact IH | hush_step ].
Qed.

Lemma quiet_fill_in_containers (answer : string) (cs : list nat) :
  quiet (fill_in_containers react answer cs).
Proof.
  induction cs as [|k cs IH]; cbn [fill_in_containers];
    repeat first [ exact IH | apply quiet_fill_first_input | hush_step ].
Qed.

Lemma quiet_fillNaukriInput (answer : string) : quiet (fillNaukriInput react answer).
Proof.
  unfold fillNaukriInput. apply quiet_bind; [apply quiet_get_world|].
  intros w. apply quiet_fill_in_containers.
Qed.

Lemma quiet_clickNaukriSaveButton : quiet (clickNaukriSaveButton react).
Proof. unfold clickNaukriSaveButton. repeat hush_step. Qed.

Lemma bounded_ret (n a : nat) (exit : Exit) : bounded n a (mret (exit, a)).
Proof.
  intros w. exists []. split; [reflexivity|]. split; [unfold iterations; simpl; lia|].
  intros exit' k [= _ <-]. unfold iterations. simpl. lia.
Qed.

Lemma bounded_bind {A} (n a : nat) (m : M A) (k : A -> M (Exit * nat)) :
  quiet m -> (forall x, bounded n a (k x)) -> bounded n a (m ≫= k).
Proof.
  intros Hm Hk w. rewrite bind_run. destruct (Hm w) as (d1 & Hl1 & Hi1).
  destruct (m w) as [[x|err] w1]; simpl in *.
  - destruct (Hk x w1) as (d2 & Hl2 & Hi2 & Hret).
    exists (d2 ++ d1)%list. split; [rewrite Hl2, Hl1; now rewrite app_assoc|].
    rewrite iterations_app. split; [lia|].
    intros exit k' Hr. rewrite (Hret exit k' Hr). lia.
  - exists d1. split; [exact Hl1|]. split; [lia|]. intros exit k' [=].
Qed.

Lemma bounded_pause (n a : nat) (m : M (Exit * nat)) :
  bounded n (S a) m -> bounded (S n) a (sleep react 1000;; m).
Proof.
  intros Hm w. rewrite bind_run. unfold sleep, emit. cbv beta iota.
  destruct (Hm (with_log (with_page w (react (EvSleep 1000) (page w)))
                         (EvSleep 1000 :: log w))) as (d & Hl & Hi & Hret).
  exists (d ++ [EvSleep 1000])%list. split.
  - rewrite Hl. simpl. now rewrite <- app_assoc.
  - rewrite iterations_app. unfold iterations at 2. simpl. split; [lia|].
    intros exit k Hr. rewrite (Hret exit k Hr). unfold iterations at 3. simpl. lia.
Qed.

Lemma sidebar_loop_bounded (remaining : nat) :
  forall (attempt : nat) (memory : gmap string string),
    bounded remaining attempt (sidebar_loop quota react remaining attempt memory).
Proof.
  induction remaining as [|remaining IH]; intros attempt memory; cbn [sidebar_loop].
  - apply bounded_ret.
  - cbv zeta. apply bounded_pause.
    apply bounded_bind; [apply quiet_get_world|]. intros w.
    destruct (negb (found (findNaukriSidebar (page w)))); [apply bounded_ret|].
    destruct (questions (findNaukriSidebar (page w))) as [|question qs];
      [apply bounded_ret|].
    destruct (inputs (findNaukriSidebar (page w))) as [|input ins];
      [apply bounded_ret|].
    apply bounded_bind.
    { unfold storage_set_qaMemory. repeat hush_step. }
    intros [[answer memory']|]; [|apply bounded_ret].
    apply bounded_bind; [apply quiet_fillNaukriInput|]. intros filled.
    destruct (negb filled); [apply bounded_ret|].
    apply bounded_bind; [apply quiet_clickNaukriSaveButton|]. intros clicked.
    destruct (negb clicked); [apply bounded_ret|].
    apply bounded_bind; [unfold sleep; repeat hush_step|]. intros _.
    eapply IH.
Qed.

Lemma sidebar_loop_runaway (memory : gmap string string) (stuck : Page -> Prop) :
  keeps_asking react memory stuck ->
  forall (remaining attempt : nat) (w : World),
    stuck (page w) ->
    exists w',
      sidebar_loop quota react remaining attempt memory w
        = (Normal (MaxAttemptsReached, attempt + remaining), w') /\
      stuck (page w').
Proof.
  intros Hkeeps. induction remaining as [|remaining IH]; intros attempt w Hstuck.
  - exists w. split; [|exact Hstuck]. cbn [sidebar_loop]. now rewrite Nat.add_0_r.
  - destruct (Hkeeps (page w) Hstuck)
      as (question & answer & Hfound & Hq & Hin & Hrecall & Hfill).
    set (w1 := with_log (with_page w (react (EvSleep 1000) (page w)))
                        (EvSleep 1000 :: log w)).
    destruct (Hfill w1 eq_refl) as (w2 & b & Hfilled & Hsave & Hnext).
    set (w4 := with_log
                 (with_page
                    (with_log (with_page w2 (react (EvClickButton b) (page w2)))
                              (EvClickButton b :: log w2))
                    (react (EvSleep 2000) (react (EvClickButton b) (page w2))))
                 (EvSleep 2000 :: EvClickButton b :: log w2)).
    destruct (IH (S attempt) w4 Hnext) as (w' & Hrest & Hstuck').
    exists w'. split; [|exact Hstuck'].
    cbn [sidebar_loop]. cbv zeta.
    erewrite bind_normal; [|reflexivity].
    erewrite bind_normal; [|reflexivity].
    fold w1. change (page w1) with (react (EvSleep 1000) (page w)).
    rewrite Hfound. cbn [negb].
    destruct (questions (findNaukriSidebar (react (EvSleep 1000) (page w))))
      as [|question' qs]; [discriminate Hq|].
    injection Hq as ->.
    destruct (inputs (findNaukriSidebar (react (EvSleep 1000) (page w))))
      as [|input ins]; [contradiction|].
    rewrite Hrecall.
    rewrite bind_run. cbn [mret M_ret ret].
    erewrite bind_normal; [|exact Hfilled]. cbn [negb].
    erewrite bind_normal;
      [|unfold clickNaukriSaveButton; erewrite bind_normal; [|reflexivity];
        rewrite Hsave; reflexivity].
    cbn [negb].
    erewrite bind_normal; [|reflexivity].
    change (sidebar_loop quota react remaining (S attempt) memory w4
            = (Normal (MaxAttemptsReached, attempt + S remaining), w')).
    rewrite Hrest. f_equal. f_equal. f_equal. lia.
Qed.

(** C1. The panel loop ends after at most 20 iterations whatever the
    page, the human and the host do; and on a page that at every
    iteration shows a panel with a question and a fillable input, with
    the answer in memory and a save button that leaves the same
    question, it performs exactly 20 iterations and then returns
    through the iteration cap. *)
Theorem handleNaukriSidebar_terminates_within_cap (w : World) :
  (exists delta,
      log (snd (handleNaukriSidebar quota react w)) = (delta ++ log w)%list /\
      iterations delta <= 20 /\
      forall exit attempts,
        fst (handleNaukriSidebar quota react w) = Normal (exit, attempts) ->
        attempts = iterations delta) /\
  (forall stuck : Page -> Prop,
      keeps_asking react (qaMemory (storage w)) stuck ->
      stuck (page w) ->
      exists w' delta,
        handleNaukriSidebar quota react w = (Normal (MaxAttemptsReached, 20), w') /\
        log w' = (delta ++ log w)%list /\
        iterations delta = 20).
Proof.
  assert (Hbound := sidebar_loop_bounded maxAttempts 0 (qaMemory (storage w)) w).
  assert (Hrun : handleNaukriSidebar quota react w
                 = sidebar_loop quota react maxAttempts 0 (qaMemory (storage w)) w)
    by reflexivity.
  rewrite Hrun. split.
  - destruct Hbound as (delta & Hlog & Hle & Hret).
    exists delta. split; [exact Hlog|]. split; [exact Hle|].
    intros exit attempts Hr. now rewrite (Hret exit attempts Hr).
  - intros stuck Hkeeps Hstuck.
    destruct (sidebar_loop_runaway _ stuck Hkeeps maxAttempts 0 w Hstuck)
      as (w' & Hloop & _).
    destruct Hbound as (delta & Hlog & _ & Hret).
    rewrite Hloop in Hlog, Hret. simpl in Hlog.
    exists w', delta. split; [exact Hloop|]. split; [exact Hlog|].
    specialize (Hret MaxAttemptsReached (0 + maxAttempts) eq_refl).
    simpl in Hret. unfold maxAttempts in Hret. lia.
Qed.

End Panel.

Section PanelExample.
Import Dom Store Run Content Spec.

Lemma panel_keeps_asking :
  keeps_asking panel_react panel_memory (fun p => p = panel_page).
Proof.
  intros p ->. exists panel_question, "30 days".
  split; [reflexivity|]. split; [reflexivity|]. split; [discriminate|].
  split; [reflexivity|].
  intros [pg st replies events] Hpage. simpl in Hpage. subst pg.
  eexists. exists 0. split; [reflexivity|]. split; reflexivity.
Qed.

Lemma handleNaukriSidebar_terminates_within_cap_witness :
  exists w' delta,
    handleNaukriSidebar unlimited panel_react panel_world
      = (Normal (MaxAttemptsReached, 20), w') /\
    log w' = (delta ++ log panel_world)%list /\
    iterations delta = 20.
Proof.
  apply (proj2 (handleNaukriSidebar_terminates_within_cap
                  unlimited panel_react panel_world)
           (fun p => p = panel_page)).
  - exact panel_keeps_asking.
  - reflexivity.
Defined.

End PanelExample.

(* ===================================================================== *)
(** ** Activating the apply control *)
(* ===================================================================== *)

Section Apply.
Import Dom Store Run Content Spec Props.

Lemma is_apply_control_iff (btn : Button) :
  is_apply_control btn = true <->
  b_offsetParent btn = true /\
  b_disabled btn = false /\
  contains_ignoring_case (shown_text btn) "apply" /\
  ~ contains_ignoring_case (shown_text btn) "applied".
Proof.
  unfold is_apply_control, button_text, shown_text, contains_ignoring_case.
  rewrite or_else_empty.
  rewrite !andb_true_iff, !negb_true_iff, <- !includes_spec.
  change (JS.toLowerCase "apply") with "apply".
  change (JS.toLowerCase "applied") with "applied".
  destruct (JS.includes _ "applied"); intuition congruence.
Qed.

(** X1. [clickApplyButton] activates the first visible, enabled control whose
    text contains apply and not applied, waits and reports the text the
    control shows after the wait; without such a control it reports
    failure and does nothing. *)
Theorem clickApplyButton_first_unapplied
    (react : Event -> Page -> Page) (w : World) :
  (forall b btn,
      buttons (page w) !! b = Some btn ->
      is_apply_control btn = true ->
      (forall j btn', j < b -> buttons (page w) !! j = Some btn' ->
                      is_apply_control btn' = false) ->
      clickApplyButton react w
      = (Normal {| a_success := true;
                   a_text := shown_text <$>
                             buttons (page (after_click react 2000 b w)) !! b |},
         after_click react 2000 b w)) /\
  ((forall b btn, buttons (page w) !! b = Some btn -> is_apply_control btn = false) ->
   clickApplyButton react w = (Normal {| a_success := false; a_text := None |}, w)) /\
  (forall btn,
      is_apply_control btn = true <->
      b_offsetParent btn = true /\
      b_disabled btn = false /\
      contains_ignoring_case (shown_text btn) "apply" /\
      ~ contains_ignoring_case (shown_text btn) "applied").
Proof.
  split; [|split].
  - intros b btn Hb Hbtn Hfirst.
    unfold clickApplyButton, get_world, sleep, emit, mbind, mret, M_bind, M_ret, bind, ret.
    rewrite (first_button_found _ _ 0 b btn Hb Hbtn Hfirst). reflexivity.
  - intros Hnone.
    unfold clickApplyButton, get_world, mbind, mret, M_bind, M_ret, bind, ret.
    now rewrite (first_button_absent _ _ Hnone 0).
  - apply is_apply_control_iff.
Qed.

Lemma clickApplyButton_first_unapplied_witness :
  clickApplyButton becomes_applied apply_world
  = (Normal {| a_success := true; a_text := Some "Applied" |},
     after_click becomes_applied 2000 1 apply_world).
Proof.
  apply (proj1 (clickApplyButton_first_unapplied becomes_applied apply_world)
           1 apply_link eq_refl eq_refl).
  intros j btn' Hj Hl. destruct j as [|j]; [|lia].
  injection Hl as <-. reflexivity.
Defined.

End Apply.

(* ===================================================================== *)
(** ** Discovering the fields *)
(* ===================================================================== *)

Section Discover.
Import Dom Store Run Content Spec Props.

Lemma collect_fields_in (p : Page) (els : list Element) :
  forall i0 f,
    In f (collect_fields p i0 els) <->
    exists k el, els !! k = Some el /\ visible el = true /\ f = describe p (i0 + k) el.
Proof.
  induction els as [|e els IH]; intros i0 f; simpl.
  - split; [intros [] | intros (k & el & Hk & _)]. destruct k; discriminate.
  - destruct (visible e) eqn:Hv; simpl; rewrite IH; split.
    + intros [<- | (k & el & Hk & Hvis & ->)].
      * exists 0, e. rewrite Nat.add_0_r. auto.
      * exists (S k), el. replace (i0 + S k) with (S i0 + k) by lia. auto.
    + intros (k & el & Hk & Hvis & ->). destruct k as [|k]; simpl in Hk.
      * left. injection Hk as ->. now rewrite Nat.add_0_r.
      * right. exists k, el. replace (i0 + S k) with (S i0 + k) by lia. auto.
    + intros (k & el & Hk & Hvis & ->).
      exists (S k), el. replace (i0 + S k) with (S i0 + k) by lia. auto.
    + intros (k & el & Hk & Hvis & ->). destruct k as [|k]; simpl in Hk.
      * injection Hk as ->. congruence.
      * exists k, el. replace (i0 + S k) with (S i0 + k) by lia. auto.
Qed.

Lemma collect_fields_ordered (p : Page) (els : list Element) :
  forall i0 a b fa fb,
    collect_fields p i0 els !! a = Some fa ->
    collect_fields p i0 els !! b = Some fb ->
    a < b -> f_element fa < f_element fb.
Proof.
  induction els as [|e els IH]; intros i0 a b fa fb Ha Hb Hab; simpl in *.
  - destruct a; discriminate.
  - destruct (visible e); [|now apply (IH (S i0) a b)].
    destruct b as [|b]; [lia|]. simpl in Hb.
    destruct a as [|a]; simpl in Ha.
    + injection Ha as <-. simpl.
      assert (Hin : In fb (collect_fields p (S i0) els))
        by (apply list_elem_of_In, list_elem_of_lookup; eauto).
      apply collect_fields_from in Hin. lia.
    + apply (IH (S i0) a b); [assumption | assumption | lia].
Qed.

Lemma visible_iff (el : Element) :
  visible el = true <->
  (0 < rect_width el)%Z /\ (0 < rect_height el)%Z /\
  style_display el <> "none" /\ style_visibility el <> "hidden" /\
  ~ In (el_type el) hidden_types.
Proof.
  unfold visible, hidden_types.
  rewrite !andb_true_iff, !negb_true_iff, !Z.ltb_lt, !String.eqb_neq.
  simpl. intuition congruence.
Qed.



End Discover.

(* ===================================================================== *)
(** ** The panel snapshot and the save button *)
(* ===================================================================== *)

Section Snapshot.
Import Dom Store Run Content Spec Props.

Lemma add_question_cases (qs : list string) (line : string) :
  add_question qs line = qs \/
  (add_question qs line = (qs ++ [JS.trim line])%list /\
   question_like (JS.trim line) /\ ~ In (JS.trim line) qs).
Proof.
  unfold add_question, question_like. cbv zeta.
  destruct (JS.includes (JS.trim line) "?") eqn:Hq; [|now left].
  destruct (10 <? String.length (JS.trim line))%nat eqn:Hlo; [|now left].
  destruct (String.length (JS.trim line) <? 300)%nat eqn:Hhi; [|now left].
  destruct (JS.includes (JS.trim line) "http") eqn:Hh; [now left|].
  simpl. destruct (existsb (String.eqb (JS.trim line)) qs) eqn:Hex; [now left|].
  right. split; [reflexivity|]. split.
  - apply Nat.ltb_lt in Hlo, Hhi. auto.
  - intros Hin. assert (existsb (String.eqb (JS.trim line)) qs = true); [|congruence].
    apply existsb_exists. exists (JS.trim line). split; [exact Hin | apply String.eqb_refl].
Qed.

Lemma fold_add_question (lines : list string) :
  forall qs,
    List.NoDup qs -> Forall question_like qs ->
    List.NoDup (fold_left add_question lines qs) /\
    Forall question_like (fold_left add_question lines qs).
Proof.
  induction lines as [|line lines IH]; intros qs Hnd Hall; simpl; [auto|].
  destruct (add_question_cases qs line) as [-> | (-> & Hlike & Hnew)]; [now apply IH|].
  apply IH.
  - apply NoDup_ListNoDup, NoDup_app. repeat split.
    + now apply NoDup_ListNoDup.
    + intros x Hx Hx'. apply list_elem_of_In in Hx.
      apply list_elem_of_singleton in Hx'. subst x. contradiction.
    + apply NoDup_singleton.
  - apply Forall_app. split; [exact Hall | now constructor].
Qed.

Lemma panel_inputs_fillable (p : Page) (c : Container) :
  Forall (fun r => exists el, elements p !! i_element r = Some el /\
                              is_panel_input el = true /\ fillable el = true)
         (panel_inputs p c).
Proof.
  unfold panel_inputs. induction (c_controls c) as [|i rest IH]; simpl; [constructor|].
  destruct (elements p !! i) as [el|] eqn:Hel; simpl; [|exact IH].
  destruct (is_panel_input el && fillable el) eqn:Hok; simpl; [|exact IH].
  constructor; [|exact IH]. apply andb_true_iff in Hok. simpl. eauto.
Qed.

Lemma bare_iff (p : Page) (c : Container) :
  ((0 <? length (questions_in c))%nat || (0 <? length (panel_inputs p c))%nat) = false
  <-> bare p c.
Proof.
  unfold bare. destruct (questions_in c), (panel_inputs p c); cbn;
    split; intros H; try discriminate H; try (destruct H; discriminate);
    auto.
Qed.

Lemma scan_containers_first (p : Page) (cs : list Container) :
  let d := scan_containers p cs {| found := false; questions := []; inputs := [] |} in
  (d = {| found := false; questions := []; inputs := [] |} /\
   Forall (fun c => panel_box p c = true -> bare p c) cs) \/
  (exists before c after,
      cs = (before ++ c :: after)%list /\
      panel_box p c = true /\ ~ bare p c /\
      Forall (fun c' => panel_box p c' = true -> bare p c') before /\
      d = {| found := true; questions := questions_in c; inputs := panel_inputs p c |}).
Proof.
  induction cs as [|c cs IH]; cbn [scan_containers].
  - left. split; [reflexivity | constructor].
  - fold (panel_box p c). destruct (panel_box p c) eqn:Hbox.
    + cbn [questions inputs app]. fold (questions_in c).
      destruct ((0 <? length (questions_in c))%nat || (0 <? length (panel_inputs p c))%nat)
        eqn:Hany.
      * right. exists [], c, cs. split; [reflexivity|]. split; [exact Hbox|].
        split; [|split; [constructor | reflexivity]].
        intros Hbare. apply bare_iff in Hbare. congruence.
      * apply bare_iff in Hany. destruct Hany as [Hq Hi]. rewrite Hq, Hi. cbn [found].
        destruct IH as [[Hd Hall] | (before & c' & after & -> & Hb & Hnb & Hall & Hd)].
        -- left. split; [exact Hd|]. constructor; [|exact Hall].
           intros _. split; assumption.
        -- right. exists (c :: before), c', after. split; [reflexivity|].
           split; [exact Hb|]. split; [exact Hnb|]. split; [|exact Hd].
           constructor; [|exact Hall]. intros _. split; assumption.
    + destruct IH as [[Hd Hall] | (before & c' & after & -> & Hb & Hnb & Hall & Hd)].
      * left. split; [exact Hd|]. constructor; [|exact Hall]. congruence.
      * right. exists (c :: before), c', after. split; [reflexivity|].
        split; [exact Hb|]. split; [exact Hnb|]. split; [|exact Hd].
        constructor; [|exact Hall]. congruence.
Qed.



Lemma is_save_button_iff (btn : Button) :
  is_save_button btn = true <->
  b_kind btn = BUTTON /\
  b_offsetParent btn = true /\
  b_disabled btn = false /\
  exists token, In token save_tokens /\
                contains_ignoring_case (b_innerText btn) token.
Proof.
  unfold is_save_button, save_tokens, contains_ignoring_case.
  destruct (b_kind btn); try (split; [discriminate | intros [H _]; discriminate]).
  rewrite or_else_empty.
  rewrite !andb_true_iff, !orb_true_iff, negb_true_iff, !includes_spec. split.
  - intros ((Htok & Hvis) & Hen). split; [reflexivity|]. split; [exact Hvis|].
    split; [exact Hen|].
    destruct Htok as [[[H|H]|H]|H].
    + exists "save". simpl. auto.
    + exists "submit". simpl. auto.
    + exists "next". simpl. auto 6.
    + exists "continue". simpl. auto 6.
  - intros (_ & Hvis & Hen & token & Hin & Hc).
    split; [|exact Hen]. split; [|exact Hvis].
    simpl in Hin. destruct Hin as [<-|[<-|[<-|[<-|[]]]]]; simpl in Hc; auto.
Qed.

Lemma first_save_in_cases (p : Page) (btns : list nat) :
  match first_save_in p btns with
  | Some b =>
      In b btns /\ exists btn, buttons p !! b = Some btn /\ is_save_button btn = true
  | None =>
      forall b btn, In b btns -> buttons p !! b = Some btn -> is_save_button btn = false
  end.
Proof.
  induction btns as [|b btns IH]; simpl; [intros b btn []|].
  destruct (buttons p !! b) as [btn|] eqn:Hb.
  - destruct (is_save_button btn) eqn:Hs.
    + split; [now left | eauto].
    + destruct (first_save_in p btns) as [b'|].
      * destruct IH as [Hin Hex]. split; [now right | exact Hex].
      * intros b0 btn0 [<- | Hin] Hl; [congruence | eauto].
  - destruct (first_save_in p btns) as [b'|].
    + destruct IH as [Hin Hex]. split; [now right | exact Hex].
    + intros b0 btn0 [<- | Hin] Hl; [congruence | eauto].
Qed.

Lemma find_save_button_cases (p : Page) (cs : list Container) :
  match find_save_button p cs with
  | Some b =>
      exists c btn,
        In c cs /\ (300 < c_width c)%Z /\ In b (c_buttons c) /\
        buttons p !! b = Some btn /\ is_save_button btn = true
  | None =>
      forall c b btn,
        In c cs -> (300 < c_width c)%Z -> In b (c_buttons c) ->
        buttons p !! b = Some btn -> is_save_button btn = false
  end.
Proof.
  induction cs as [|c cs IH]; simpl; [intros c b btn []|].
  destruct (300 <? c_width c)%Z eqn:Hw.
  - pose proof (first_save_in_cases p (c_buttons c)) as Hfirst.
    destruct (first_save_in p (c_buttons c)) as [b|].
    + destruct Hfirst as (Hin & btn & Hb & Hs). exists c, btn.
      apply Z.ltb_lt in Hw. auto 10.
    + destruct (find_save_button p cs) as [b|].
      * destruct IH as (c' & btn & Hin & H). exists c', btn. split; [now right | exact H].
      * intros c' b btn [<- | Hin] Hwide Hb Hl; eauto.
  - destruct (find_save_button p cs) as [b|].
    + destruct IH as (c' & btn & Hin & H). exists c', btn. split; [now right | exact H].
    + intros c' b btn [<- | Hin] Hwide Hb Hl; [|eauto].
      apply Z.ltb_ge in Hw. lia.
Qed.

(** X4. [clickNaukriSaveButton] clicks one button and reports true, or clicks
    nothing and reports false. The button it clicks is a visible,
    enabled button element whose own text contains save, submit, next or
    continue, inside a container wider than 300 (of any height, as wide
    as the page or not); it reports false exactly when no container
    wider than 300 holds such a button. *)
Theorem clickNaukriSaveButton_clicks_save
    (react : Event -> Page -> Page) (w : World) :
  (exists b c btn,
      clickNaukriSaveButton react w = (Normal true, clicked react b w) /\
      In c (containers (page w)) /\ (300 < c_width c)%Z /\ In b (c_buttons c) /\
      buttons (page w) !! b = Some btn /\
      b_kind btn = BUTTON /\ b_offsetParent btn = true /\ b_disabled btn = false /\
      exists token, In token save_tokens /\
                    contains_ignoring_case (b_innerText btn) token) \/
  (clickNaukriSaveButton react w = (Normal false, w) /\
   forall c b btn,
     In c (containers (page w)) -> (300 < c_width c)%Z -> In b (c_buttons c) ->
     buttons (page w) !! b = Some btn -> is_save_button btn = false).
Proof.
  unfold clickNaukriSaveButton. rewrite bind_run. cbn [get_world].
  pose proof (find_save_button_cases (page w) (containers (page w))) as Hcases.
  destruct (find_save_button (page w) (containers (page w))) as [b|].
  - left. destruct Hcases as (c & btn & Hin & Hwide & Hb & Hl & Hs).
    apply is_save_button_iff in Hs. destruct Hs as (Hk & Hv & He & Htok).
    exists b, c, btn. split; [reflexivity|]. auto 10.
  - right. split; [reflexivity | exact Hcases].
Qed.

Lemma clickNaukriSaveButton_clicks_save_witness :
  clickNaukriSaveButton still wrapped_world = (Normal true, clicked still 0 wrapped_world).
Proof.
  destruct (clickNaukriSaveButton_clicks_save still wrapped_world)
    as [(b & c & btn & Hrun & _) | [Hrun _]].
  - assert (b = 0) as -> by (vm_compute in Hrun; congruence). exact Hrun.
  - vm_compute in Hrun. discriminate Hrun.
Defined.

End Snapshot.

(* ===================================================================== *)
(** ** Which input the panel loop fills *)
(* ===================================================================== *)

Section PanelFill.
Import Dom Store Run Content Spec Props.

Variable react : Event -> Page -> Page.
Hypothesis react_passive : passive react.

Lemma emit_passive (ev : Event) (w : World) :
  emit react ev w = (Normal tt, with_log w (ev :: log w)).
Proof. unfold emit. rewrite react_passive. now destruct w. Qed.

(** One attempt on an input that [tried] accepts. *)
Lemma attempt_passive (answer : string) (i : nat) (w : World) (el : Element) :
  elements (page w) !! i = Some el ->
  is_panel_input el = true ->
  exists w',
    try_catch
      (emit react (EvFocus i);;
       emit react (EvClickControl i);;
       sleep react 300;;
       set_value i answer;;
       emit react (EvDispatch i "input");;
       emit react (EvDispatch i "change");;
       mret true)
      (fun err => note (EvConsoleError "Fill error");; mret false) w
    = (Normal (negb (el_rejects el)), w') /\
    storage w' = storage w /\ answers w' = answers w /\
    page w' = if el_rejects el then page w
              else with_elements (page w) (<[i := with_value el answer]> (elements (page w))).
Proof.
  intros Hel Hin. unfold try_catch, sleep.
  rewrite !bind_run, !emit_passive. cbv beta iota.
  rewrite !bind_run, !emit_passive. cbv beta iota.
  rewrite !bind_run, !emit_passive. cbv beta iota.
  rewrite bind_run. unfold set_value. cbn [page with_log].
  rewrite Hel. destruct (el_rejects el) eqn:Hr.
  - eexists. split; [reflexivity|]. auto.
  - rewrite !bind_run, !emit_passive. cbv beta iota.
    rewrite !bind_run, !emit_passive. cbv beta iota.
    eexists. split; [reflexivity|]. cbn. split; [reflexivity|]. split; [reflexivity|].
    unfold assigned_value. unfold is_panel_input in Hin.
    destruct (tagName el); [reflexivity | reflexivity | discriminate].
Qed.

Lemma tried_element (p : Page) (i : nat) :
  tried p i = true ->
  exists el, elements p !! i = Some el /\ is_panel_input el = true /\ fillable el = true.
Proof.
  unfold tried. destruct (elements p !! i) as [el|]; [|discriminate].
  intros H. apply andb_true_iff in H. eauto.
Qed.

Lemma fill_first_input_skip (answer : string) (i : nat) (ins : list nat) (w : World) :
  tried (page w) i = false ->
  fill_first_input react answer (i :: ins) w = fill_first_input react answer ins w.
Proof.
  intros Hno. cbn [fill_first_input]. rewrite bind_run. unfold element_at.
  unfold tried in Hno. destruct (elements (page w) !! i) as [el|]; [|reflexivity].
  now rewrite Hno.
Qed.

Lemma fill_first_input_passive (answer : string) (ins : list nat) :
  forall w,
    exists w',
      fill_first_input react answer ins w
      = (Normal (some_found (List.find (accepts (page w))
                               (List.filter (tried (page w)) ins))), w') /\
      storage w' = storage w /\ answers w' = answers w /\
      page w' = filled_page answer (page w)
                  (List.find (accepts (page w)) (List.filter (tried (page w)) ins)).
Proof.
  induction ins as [|i ins IH]; intros w.
  - exists w. auto.
  - cbn [List.filter]. destruct (tried (page w) i) eqn:Htried.
    + destruct (tried_element _ _ Htried) as (el & Hel & Hin & Hfill).
      destruct (attempt_passive answer i w el Hel Hin) as (w1 & Hrun & Hs & Ha & Hp).
      cbn [fill_first_input]. rewrite bind_run. unfold element_at. rewrite Hel, Hin, Hfill.
      cbn [andb]. rewrite bind_run, Hrun. cbn [List.find]. unfold accepts at 1 3. rewrite Hel.
      destruct (el_rejects el); cbn [negb].
      * destruct (IH w1) as (w' & Hrest & Hs' & Ha' & Hp').
        rewrite Hp in Hrest, Hp'. exists w'. rewrite Hrest.
        split; [reflexivity|]. split; [congruence|]. split; [congruence|]. exact Hp'.
      * exists w1. cbn [some_found filled_page]. rewrite Hel. auto.
    + rewrite fill_first_input_skip by exact Htried. apply IH.
Qed.

Lemma find_app_first {A : Type} (f : A -> bool) (xs ys : list A) :
  List.find f (xs ++ ys)%list
  = match List.find f xs with Some x => Some x | None => List.find f ys end.
Proof.
  induction xs as [|x xs IH]; cbn [app List.find]; [reflexivity|].
  destruct (f x); [reflexivity | exact IH].
Qed.

Lemma fill_in_containers_passive (answer : string) (ks : list nat) :
  forall w,
    exists w',
      fill_in_containers react answer ks w
      = (Normal (some_found
                   (List.find (accepts (page w))
                      (flat_map (fun k => box_candidates (page w) (containers (page w) !! k))
                                ks))), w') /\
      storage w' = storage w /\ answers w' = answers w /\
      page w' = filled_page answer (page w)
                  (List.find (accepts (page w))
                     (flat_map (fun k => box_candidates (page w) (containers (page w) !! k))
                               ks)).
Proof.
  induction ks as [|k ks IH]; intros w; cbn [fill_in_containers flat_map].
  - exists w. auto.
  - rewrite bind_run. cbn [get_world].
    destruct (containers (page w) !! k) as [c|] eqn:Hc; cbn [box_candidates app];
      [|apply IH].
    fold (fill_box c). destruct (fill_box c) eqn:Hbox; cbn [app]; [|apply IH].
    destruct (fill_first_input_passive answer (c_controls c) w)
      as (w1 & Hrun & Hs & Ha & Hp).
    rewrite bind_run, Hrun. rewrite find_app_first.
    destruct (List.find (accepts (page w)) (List.filter (tried (page w)) (c_controls c)))
      as [i|].
    + exists w1. auto.
    + destruct (IH w1) as (w' & Hrest & Hs' & Ha' & Hp').
      cbn [some_found filled_page] in Hp. rewrite Hp in Hrest, Hp'.
      exists w'. cbn [some_found]. rewrite Hrest.
      split; [reflexivity|]. split; [congruence|]. split; [congruence|]. exact Hp'.
Qed.

Lemma flat_map_seq_lookup {A B} (g : option A -> list B) (l : list A) :
  forall pre,
    flat_map (fun k => g ((pre ++ l)%list !! k)) (seq (length pre) (length l))
    = flat_map (fun c => g (Some c)) l.
Proof.
  induction l as [|c l IH]; intros pre; [reflexivity|].
  cbn [length seq flat_map]. f_equal.
  - rewrite lookup_app_r by lia. now rewrite Nat.sub_diag.
  - specialize (IH (pre ++ [c])%list). rewrite <- app_assoc in IH. cbn [app] in IH.
    rewrite length_app in IH. cbn [length] in IH.
    replace (length pre + 1) with (S (length pre)) in IH by lia. exact IH.
Qed.


End PanelFill.

Section PanelFillExample.
Import Dom Store Run Content Spec Props.

Lemma still_passive : passive still.
Proof. intros ev p. reflexivity. Qed.


End PanelFillExample.

(* ===================================================================== *)
(** ** The standard fill pass: what it counts *)
(* ===================================================================== *)

Section Tally.
Import Dom Store Run Content Spec Props Auto.
Variable quota : Storage -> bool.
Variables resume0 coverLetter0 : option Asset.

Ltac open_step :=
  unfold fill_field, selectBestOption, choose, fill_text, attach,
    storage_set_qaMemory, storage_set, set_value, set_files, prompt, alert,
    dispatchEvent, note, element_at, try_catch, supplied,
    mbind, M_bind, bind, mret, M_ret, ret, throw;
  cbv beta zeta.

Ltac settle_world :=
  cbn [fst snd page storage answers log with_log with_page with_storage with_answers
       qaMemory Store.resume Store.coverLetter with_qaMemory
       l_qaMemory l_filledCount l_askedCount filled] in *.

(** The test on which the evaluation of a term waits. *)
Ltac blocker t :=
  lazymatch t with
  | match ?x with _ => _ end => blocker x
  | (match ?x with _ => _ end) _ => blocker x
  | _ => t
  end.

Ltac split_step :=
  lazymatch goal with
  | |- ?t = _ -> _ =>
      let b := blocker t in
      lazymatch b with
      | (_, _) => fail
      | _ => first [ match goal with H : b = _ |- _ => rewrite H end
                   | destruct b eqn:? ]
      end
  end.

(** Every path through one step of the loop, each with the tests passed
    on the way as hypotheses and the result of the step in the goal. *)
Ltac run_step r :=
  let Hr := fresh "Hr" in
  match goal with
  | r := ?t |- _ => assert (Hr : t = r) by reflexivity
  end;
  clearbody r; revert Hr; open_step; settle_world;
  repeat (split_step; settle_world);
  intros <-; settle_world.

Ltac recall_tests :=
  unfold needs, value_of;
  repeat match goal with
         | H : elements _ !! _ = _ |- _ => rewrite H
         | H : answers _ = _ |- _ => rewrite H
         | H : JS.truthy _ = _ |- _ => rewrite H
         | H : f_required _ = _ |- _ => rewrite H
         end.

Lemma fill_field_tally (field : Field) (st : Locals) (w : World) :
  let r := fill_field quota resume0 coverLetter0 field st w in
  count_prompts (log w) <= count_prompts (log (snd r))
    <= (if needs (page w) field then 1 else 0) + count_prompts (log w) /\
  count_sets (log w) <= count_sets (log (snd r)) /\
  count_sets (log (snd r)) + count_prompts (log w)
    <= count_sets (log w) + count_prompts (log (snd r)) /\
  count_sets (log (snd r)) + length (answers (snd r))
    <= count_sets (log w) + length (answers w) /\
  length (answers (snd r)) <= length (answers w) /\
  match fst r with
  | Normal st' =>
      l_filledCount st <= l_filledCount st' <= S (l_filledCount st) /\
      l_askedCount st' + count_sets (log w) = l_askedCount st + count_sets (log (snd r)) /\
      l_askedCount st' + l_filledCount st <= l_askedCount st + l_filledCount st'
  | Throw _ => True
  end.
Proof.
  intros r. run_step r.
  all: recall_tests; cbn [count_prompts count_sets length andb negb];
    try destruct (needs _ _); lia.
Qed.

Lemma fill_field_memory (field : Field) (st : Locals) (w : World) :
  let r := fill_field quota resume0 coverLetter0 field st w in
  same_assets (storage w) (storage (snd r)) /\
  ((qaMemory (storage (snd r)) = qaMemory (storage w) /\
    forall st', fst r = Normal st' -> l_qaMemory st' = l_qaMemory st) \/
   (exists a,
      JS.truthy a = true /\ f_required field = true /\
      recall (l_qaMemory st) (question_of field) = None /\
      qaMemory (storage (snd r)) = <[question_of field := a]> (l_qaMemory st) /\
      exists st', fst r = Normal st' /\
                  l_qaMemory st' = <[question_of field := a]> (l_qaMemory st))).
Proof.
  intros r. run_step r.
  all: split; [split; reflexivity|].
  all: first [ left; split; [reflexivity|]; intros st' Hst;
               first [ discriminate Hst | injection Hst as <-; reflexivity ]
             | match goal with
               | |- context [<[_ := ?a]> _] =>
                   right; exists a; repeat split; try assumption;
                   eexists; split; reflexivity
               end ].
Qed.

Lemma fill_field_returns (field : Field) (st : Locals) (w : World) :
  (forall s, quota s = true) ->
  (forall el, elements (page w) !! f_element field = Some el -> el_rejects el = false) ->
  exists st', fst (fill_field quota resume0 coverLetter0 field st w) = Normal st'.
Proof.
  intros Hquota Hassign.
  set (r := fill_field quota resume0 coverLetter0 field st w). run_step r.
  all: try (eexists; reflexivity).
  all: try match goal with
           | H : quota _ = false |- _ => rewrite Hquota in H; discriminate H
           end.
  all: match goal with
       | H : el_rejects ?el = true |- _ =>
           rewrite (Hassign el eq_refl) in H; discriminate H
       end.
Qed.

Lemma for_of_invariant {A St} (body : A -> St -> M St)
    (I : nat -> St -> World -> Prop) (J : World -> Prop) (xs : list A) :
  (forall n x s w, In x xs -> I n s w ->
     match body x s w with
     | (Normal s', w') => I (S n) s' w'
     | (Throw _, w') => J w'
     end) ->
  forall n s w, I n s w ->
    match for_of xs body s w with
    | (Normal s', w') => I (length xs + n) s' w'
    | (Throw _, w') => J w'
    end.
Proof.
  induction xs as [|x xs IH]; intros Hstep n s w HI; cbn [for_of length].
  - exact HI.
  - unfold bind. specialize (Hstep n x s w (or_introl eq_refl) HI) as Hx.
    destruct (body x s w) as [[s1|err] w1]; [|exact Hx].
    replace (S (length xs) + n) with (length xs + S n) by lia.
    apply IH; [|exact Hx].
    intros n' x' s' w' Hin. apply Hstep. now right.
Qed.

Lemma needs_elsewhere (i : nat) (p p' : Page) (field : Field) :
  modifies_only i p p' -> f_element field <> i -> needs p' field = needs p field.
Proof.
  intros (els & -> & _ & Hother & _) Hne. unfold needs, value_of.
  cbn [elements with_elements]. now rewrite Hother.
Qed.

Lemma for_of_asks (fields : list Field) :
  List.NoDup (map f_element fields) ->
  forall st w,
    let w' := snd (for_of fields (fill_field quota resume0 coverLetter0) st w) in
    count_prompts (log w) <= count_prompts (log w')
      <= length (List.filter (needs (page w)) fields) + count_prompts (log w) /\
    count_sets (log w) <= count_sets (log w') /\
    count_sets (log w') + count_prompts (log w)
      <= count_sets (log w) + count_prompts (log w').
Proof.
  induction fields as [|field fields IH]; intros Hnd st w; cbn [for_of List.filter].
  - cbn. lia.
  - cbn [map] in Hnd. apply NoDup_cons_iff in Hnd as [Hfresh Hnd].
    unfold bind.
    pose proof (fill_field_tally field st w) as Hstep. cbv zeta in Hstep.
    pose proof (confined_fill_field quota resume0 coverLetter0 field st w) as Hpage.
    destruct (fill_field quota resume0 coverLetter0 field st w) as [[st1|err] w1];
      cbn [fst snd] in Hstep, Hpage |- *.
    + specialize (IH Hnd st1 w1). cbv zeta in IH.
      replace (List.filter (needs (page w1)) fields)
        with (List.filter (needs (page w)) fields) in IH.
      * destruct (needs (page w) field); cbn [length]; lia.
      * apply filter_ext_in. intros f Hin. symmetry.
        apply (needs_elsewhere (f_element field)); [exact Hpage|].
        intros Heq. apply Hfresh. rewrite <- Heq. now apply in_map.
    + destruct (needs (page w) field); cbn [length]; lia.
Qed.

Lemma recall_Some (m : gmap string string) (q v : string) :
  recall m q = Some v <-> m !! q = Some v /\ JS.truthy v = true.
Proof.
  unfold recall. destruct (m !! q) as [x|]; [|split; [discriminate | intros [? _]; discriminate]].
  destruct (JS.truthy x) eqn:Hx; split.
  - intros [= <-]. auto.
  - intros [[= <-] _]. reflexivity.
  - discriminate.
  - intros [[= <-] Hv]. congruence.
Qed.

Lemma grown_from_refl (fields : list Field) (m : gmap string string) :
  grown_from fields m m.
Proof.
  split; [|auto]. intros q v Hq. now apply recall_Some in Hq.
Qed.

Lemma grown_from_insert (fields : list Field) (m0 m : gmap string string)
    (field : Field) (a : string) :
  grown_from fields m0 m ->
  recall m (question_of field) = None ->
  JS.truthy a = true -> In field fields -> f_required field = true ->
  grown_from fields m0 (<[question_of field := a]> m).
Proof.
  intros [Hkept Hnew] Hnone Ha Hin Hreq.
  assert (Hfree : recall m0 (question_of field) = None).
  { destruct (recall m0 (question_of field)) as [v|] eqn:Hv; [|reflexivity].
    pose proof (Hkept _ _ Hv) as Hm. apply recall_Some in Hv as [_ Htruthy].
    assert (recall m (question_of field) = Some v) as Hsome
      by (apply recall_Some; auto).
    congruence. }
  split.
  - intros q v Hq. destruct (decide (q = question_of field)) as [->|Hne].
    + congruence.
    + rewrite lookup_insert_ne by congruence. auto.
  - intros q x Hq. destruct (decide (q = question_of field)) as [->|Hne].
    + rewrite lookup_insert_eq in Hq. injection Hq as <-. right. eauto 10.
    + rewrite lookup_insert_ne in Hq by congruence. auto.
Qed.

Lemma assignable_same_controls (p p' : Page) :
  same_controls p p' -> assignable p -> assignable p'.
Proof.
  intros (els & -> & Hall) Hp. unfold assignable in *. cbn [elements with_elements].
  induction Hall as [|e e' l l' He _ IH]; [constructor|].
  inversion Hp as [|? ? Hhead Htail]; subst. constructor; [|now apply IH].
  unfold same_control in He. rewrite He. exact Hhead.
Qed.

Lemma filter_sublist {A} (f g : A -> bool) (l : list A) :
  (forall x, In x l -> f x = true -> g x = true) ->
  sublist (List.filter f l) (List.filter g l).
Proof.
  induction l as [|x l IH]; intros Himp; cbn [List.filter]; [constructor|].
  assert (sublist (List.filter f l) (List.filter g l)) as Hrest
    by (apply IH; intros y Hy; apply Himp; now right).
  destruct (f x) eqn:Hf.
  - rewrite (Himp x (or_introl eq_refl) Hf). now constructor.
  - destruct (g x); [now constructor | exact Hrest].
Qed.

End Tally.

Section Pass.
Import Dom Store Run Content Spec Props Auto.
Variable quota : Storage -> bool.

(** X6. A pass that returns reports consistent counts: [askedCount] is at
    most [filledCount], which is at most [totalFields], the number of
    fields found; [askedCount] is the number of writes of the memory
    made by the pass, each after a dialog of its own, and the human
    gave at least that many replies. *)
Theorem fillFormWithMemory_counts (w w' : World) (r : FillResult) :
  fillFormWithMemory quota w = (Normal r, w') ->
  success r = true /\
  totalFields r = length (findAllFields (page w)) /\
  askedCount r <= filledCount r <= totalFields r /\
  count_sets (log w') = askedCount r + count_sets (log w) /\
  askedCount r + count_prompts (log w) <= count_prompts (log w') /\
  askedCount r + length (answers w') <= length (answers w).
Proof.
  unfold fillFormWithMemory. rewrite bind_run.
  pose proof (for_of_invariant
    (fill_field quota (Store.resume (storage w)) (Store.coverLetter (storage w)))
    (fun n st w1 =>
       l_askedCount st <= l_filledCount st <= n /\
       count_sets (log w1) = l_askedCount st + count_sets (log w) /\
       l_askedCount st + count_prompts (log w) <= count_prompts (log w1) /\
       l_askedCount st + length (answers w1) <= length (answers w))
    (fun _ => True) (findAllFields (page w))) as Hloop.
  cbv beta in Hloop.
  specialize (Hloop
    ltac:(intros n field st w1 _ Hinv;
          pose proof (fill_field_tally quota (Store.resume (storage w))
                        (Store.coverLetter (storage w)) field st w1) as Hstep;
          cbv zeta in Hstep;
          destruct (fill_field _ _ _ field st w1) as [[st1|err] w2];
          cbn [fst snd] in Hstep; [lia | exact I])
    0 (entry w) w ltac:(cbn; lia)).
  fold (entry w). destruct (for_of _ _ (entry w) w) as [[st1|err] w1]; [|discriminate].
  cbn [mret M_ret ret]. intros [= <- <-]. cbn [success totalFields askedCount filledCount].
  rewrite Nat.add_0_r in Hloop. repeat split; lia.
Qed.

(** X7. The human is asked at most once for each required field that is
    empty when the pass begins, and the memory is written at most once
    for each dialog shown; this holds however the pass ends. *)
Theorem fillFormWithMemory_asks_empty_required (w : World) :
  let w' := snd (fillFormWithMemory quota w) in
  count_prompts (log w')
    <= length (findEmptyRequiredFields (page w)) + count_prompts (log w) /\
  count_sets (log w') + count_prompts (log w)
    <= count_sets (log w) + count_prompts (log w').
Proof.
  cbv zeta. rewrite fill_pass_world.
  pose proof (for_of_asks quota (Store.resume (storage w)) (Store.coverLetter (storage w))
                (findAllFields (page w)) (collect_fields_NoDup _ _ _)
                {| l_qaMemory := qaMemory (storage w);
                   l_filledCount := 0; l_askedCount := 0 |} w) as Hloop.
  cbv zeta in Hloop. unfold findEmptyRequiredFields.
  change (fun f => f_required f && negb (JS.truthy (value_of (page w) f)))
    with (needs (page w)).
  lia.
Qed.

(** X8. The pass never touches the stored files, never changes or drops
    an answer the memory holds, and adds answers only under the
    questions of required fields of the page that the memory did not
    answer; this holds however the pass ends. *)
Theorem fillFormWithMemory_keeps_memory (w : World) :
  let w' := snd (fillFormWithMemory quota w) in
  same_assets (storage w) (storage w') /\
  grown_from (findAllFields (page w)) (qaMemory (storage w)) (qaMemory (storage w')).
Proof.
  cbv zeta. rewrite fill_pass_world.
  pose proof (for_of_invariant
    (fill_field quota (Store.resume (storage w)) (Store.coverLetter (storage w)))
    (fun _ st w1 =>
       qaMemory (storage w1) = l_qaMemory st /\
       same_assets (storage w) (storage w1) /\
       grown_from (findAllFields (page w)) (qaMemory (storage w)) (qaMemory (storage w1)))
    (fun w1 =>
       same_assets (storage w) (storage w1) /\
       grown_from (findAllFields (page w)) (qaMemory (storage w)) (qaMemory (storage w1)))
    (findAllFields (page w))) as Hloop.
  cbv beta in Hloop.
  assert (Hstep : forall (n : nat) field st w1,
             In field (findAllFields (page w)) ->
             qaMemory (storage w1) = l_qaMemory st /\
             same_assets (storage w) (storage w1) /\
             grown_from (findAllFields (page w)) (qaMemory (storage w))
               (qaMemory (storage w1)) ->
             match fill_field quota (Store.resume (storage w))
                     (Store.coverLetter (storage w)) field st w1 with
             | (Normal st', w2) =>
                 qaMemory (storage w2) = l_qaMemory st' /\
                 same_assets (storage w) (storage w2) /\
                 grown_from (findAllFields (page w)) (qaMemory (storage w))
                   (qaMemory (storage w2))
             | (Throw _, w2) =>
                 same_assets (storage w) (storage w2) /\
                 grown_from (findAllFields (page w)) (qaMemory (storage w))
                   (qaMemory (storage w2))
             end).
  { intros _ field st w1 Hin (Hlocal & [Hres Hcov] & Hgrown).
    pose proof (fill_field_memory quota (Store.resume (storage w))
                  (Store.coverLetter (storage w)) field st w1) as Hmem.
    cbv zeta in Hmem.
    destruct (fill_field _ _ _ field st w1) as [[st1|err] w2]; cbn [fst snd] in Hmem.
    - destruct Hmem
        as ([Hres' Hcov'] &
            [[Hsame Hst] | (a & Ha & Hreq & Hnone & Hput & st' & [= <-] & Hst)]).
      + rewrite Hsame, (Hst st1 eq_refl). repeat split; try congruence; apply Hgrown.
      + rewrite Hput, Hst. split; [reflexivity|]. split; [split; congruence|].
        apply grown_from_insert; auto. now rewrite <- Hlocal.
    - destruct Hmem as ([Hres' Hcov'] & [[Hsame _] | (a & _ & _ & _ & _ & st' & Hno & _)]);
        [|discriminate Hno].
      rewrite Hsame. split; [split; congruence | exact Hgrown]. }
  specialize (Hloop Hstep 0
    {| l_qaMemory := qaMemory (storage w); l_filledCount := 0; l_askedCount := 0 |} w
    ltac:(split; [reflexivity | split; [split; reflexivity | apply grown_from_refl]])).
  destruct (for_of _ _ _ w) as [[st1|err] w1]; cbn [snd]; tauto.
Qed.


(** X10. The required fields left empty by a pass are among those that were
    empty before it, in the same order: a pass never adds to the list
    that [findEmptyRequiredFields] returns. *)
Theorem findEmptyRequiredFields_shrinks (w : World) :
  sublist (findEmptyRequiredFields (page (snd (fillFormWithMemory quota w))))
          (findEmptyRequiredFields (page w)).
Proof.
  rewrite fill_pass_world. unfold findEmptyRequiredFields.
  set (run := for_of _ _ _ w).
  rewrite (findAllFields_same_controls (page w) (page (snd run)))
    by apply for_of_same_controls.
  apply filter_sublist. intros field _ Hneeds.
  apply andb_true_iff in Hneeds as [Hreq Hempty]. rewrite Hreq. cbn [andb].
  unfold value_of in *.
  destruct (elements (page w) !! f_element field) as [el|] eqn:Hel; [|reflexivity].
  destruct (el_value el) as [|c v] eqn:Hv; [reflexivity|].
  assert (Hkept : elements (page (snd run)) !! f_element field = Some el).
  { apply (for_of_preserves_filled quota _ _ _ _ w (f_element field) el Hel).
    rewrite Hv. discriminate. }
  rewrite Hkept, Hv in Hempty. discriminate Hempty.
Qed.

End Pass.

Section TallyExample.
Import Dom Store Run Content Spec Props Auto.

Lemma fillFormWithMemory_counts_witness :
  count_sets (log (snd (fillFormWithMemory unlimited two_field_world))) = 2 /\
  count_prompts (log (snd (fillFormWithMemory unlimited two_field_world))) >= 2.
Proof.
  destruct (fillFormWithMemory_counts unlimited two_field_world
              (snd (fillFormWithMemory unlimited two_field_world)) (fill_result 2 2 2))
    as (_ & _ & _ & Hsets & Hprompts & _).
  - vm_compute. reflexivity.
  - cbn [askedCount fill_result] in Hsets, Hprompts.
    cbn [log two_field_world world_of count_sets count_prompts] in Hsets, Hprompts.
    split; lia.
Defined.


End TallyExample.

(* ===================================================================== *)
(** ** The automatic pass over a page *)
(* ===================================================================== *)

Section AutoPass.
Import Dom Store Run Content Spec Props Auto.
Variable quota : Storage -> bool.
Variable react : Event -> Page -> Page.
Variable confirm : bool.

Lemma submitForm_found (w : World) (b : nat) :
  first_button is_submit_control 0 (buttons (page w)) = Some b ->
  exists ok,
    submitForm react w
    = (Normal {| s_success := ok; s_clicked := true |}, after_click react 3000 b w).
Proof.
  intros Hb. unfold submitForm. rewrite bind_run. cbn [get_world]. rewrite Hb.
  eexists. reflexivity.
Qed.

Lemma submitForm_missing (w : World) :
  first_button is_submit_control 0 (buttons (page w)) = None ->
  submitForm react w = (Normal {| s_success := false; s_clicked := false |}, w).
Proof.
  intros Hb. unfold submitForm. rewrite bind_run. cbn [get_world]. now rewrite Hb.
Qed.


End AutoPass.

Section AutoPassExample.
Import Dom Store Run Content Spec Props Auto.


End AutoPassExample.

(* ===================================================================== *)
(** ** The panel loop: memory, dialogs and failures *)
(* ===================================================================== *)

Section PanelMemory.
Import Dom Store Run Content Spec Props.
Variable quota : Storage -> bool.
Variable react : Event -> Page -> Page.

Lemma silent_refl (w : World) : silent w w.
Proof. repeat split. Qed.

Lemma silent_trans (w1 w2 w3 : World) : silent w1 w2 -> silent w2 w3 -> silent w1 w3.
Proof. unfold silent. intros (? & ? & ? & ?) (? & ? & ? & ?). repeat split; congruence. Qed.

Lemma silent_ret {A} (a : A) : moves silent (mret a).
Proof. intros w. apply silent_refl. Qed.

Lemma silent_bind {A B} (m : M A) (k : A -> M B) :
  moves silent m -> (forall a, moves silent (k a)) -> moves silent (m ≫= k).
Proof.
  intros Hm Hk w. rewrite bind_run. specialize (Hm w).
  destruct (m w) as [[a|err] w1]; cbn [snd] in *; [|exact Hm].
  eapply silent_trans; [exact Hm | apply Hk].
Qed.

Lemma silent_try_catch {A} (m : M A) (h : string -> M A) :
  moves silent m -> (forall err, moves silent (h err)) -> moves silent (try_catch m h).
Proof.
  intros Hm Hh w. unfold try_catch. specialize (Hm w).
  destruct (m w) as [[a|err] w1]; cbn [snd] in *; [exact Hm|].
  eapply silent_trans; [exact Hm | apply Hh].
Qed.

Lemma silent_emit (ev : Event) : plain ev -> moves silent (emit react ev).
Proof. intros Hev w. destruct ev; try destruct Hev; repeat split. Qed.

Lemma silent_note (ev : Event) : plain ev -> moves silent (note ev).
Proof. intros Hev w. destruct ev; try destruct Hev; repeat split. Qed.

Lemma silent_get_world : moves silent get_world.
Proof. intros w. apply silent_refl. Qed.

Lemma silent_element_at (i : nat) : moves silent (element_at i).
Proof. intros w. apply silent_refl. Qed.

Lemma silent_set_value (i : nat) (v : string) : moves silent (set_value i v).
Proof.
  intros w. unfold set_value.
  destruct (elements (page w) !! i) as [el|]; [|apply silent_refl].
  destruct (el_rejects el); repeat split.
Qed.

Ltac silence :=
  repeat first
    [ apply silent_ret
    | apply silent_get_world
    | apply silent_element_at
    | apply silent_set_value
    | apply silent_emit; exact I
    | apply silent_note; exact I
    | apply silent_bind
    | apply silent_try_catch
    | progress intros
    | match goal with
      | |- moves silent (match ?x with _ => _ end) => destruct x
      end ].

Lemma silent_fill_first_input (answer : string) (ins : list nat) :
  moves silent (fill_first_input react answer ins).
Proof.
  induction ins as [|i ins IH]; cbn [fill_first_input]; [apply silent_ret|].
  unfold sleep. silence; exact IH.
Qed.

Lemma silent_fill_in_containers (answer : string) (ks : list nat) :
  moves silent (fill_in_containers react answer ks).
Proof.
  induction ks as [|k ks IH]; cbn [fill_in_containers]; [apply silent_ret|].
  silence; first [exact IH | apply silent_fill_first_input].
Qed.

Lemma silent_fillNaukriInput (answer : string) :
  moves silent (fillNaukriInput react answer).
Proof. unfold fillNaukriInput. silence. apply silent_fill_in_containers. Qed.

Lemma silent_clickNaukriSaveButton : moves silent (clickNaukriSaveButton react).
Proof. unfold clickNaukriSaveButton. silence. Qed.

Lemma silent_sleep (ms : Z) : moves silent (sleep react ms).
Proof. unfold sleep. silence. Qed.

Lemma silent_clickApplyButton : moves silent (clickApplyButton react).
Proof. unfold clickApplyButton, sleep. silence. Qed.

Lemma returns_ret {A} (a : A) : returns (mret a).
Proof. intros w. eexists _, _. reflexivity. Qed.

Lemma returns_bind {A B} (m : M A) (k : A -> M B) :
  returns m -> (forall a, returns (k a)) -> returns (m ≫= k).
Proof.
  intros Hm Hk w. rewrite bind_run. destruct (Hm w) as (a & w1 & ->). apply Hk.
Qed.

Lemma returns_try_catch {A} (m : M A) (h : string -> M A) :
  (forall err, returns (h err)) -> returns (try_catch m h).
Proof.
  intros Hh w. unfold try_catch. destruct (m w) as [[a|err] w1]; [|apply Hh].
  eexists _, _. reflexivity.
Qed.

Lemma returns_emit (ev : Event) : returns (emit react ev).
Proof. intros w. eexists _, _. reflexivity. Qed.

Lemma returns_note (ev : Event) : returns (note ev).
Proof. intros w. eexists _, _. reflexivity. Qed.

Lemma returns_get_world : returns get_world.
Proof. intros w. eexists _, _. reflexivity. Qed.

Lemma returns_element_at (i : nat) : returns (element_at i).
Proof. intros w. eexists _, _. reflexivity. Qed.

Lemma returns_prompt (message : string) : returns (prompt message).
Proof. intros w. unfold prompt. destruct (answers w); eexists _, _; reflexivity. Qed.

Ltac settle_returns :=
  repeat first
    [ apply returns_ret
    | apply returns_get_world
    | apply returns_element_at
    | apply returns_emit
    | apply returns_note
    | apply returns_prompt
    | apply returns_try_catch
    | apply returns_bind
    | progress intros
    | match goal with
      | |- returns (match ?x with _ => _ end) => destruct x
      end ].

Lemma returns_fill_first_input (answer : string) (ins : list nat) :
  returns (fill_first_input react answer ins).
Proof.
  induction ins as [|i ins IH]; cbn [fill_first_input]; [apply returns_ret|].
  settle_returns; exact IH.
Qed.

Lemma returns_fill_in_containers (answer : string) (ks : list nat) :
  returns (fill_in_containers react answer ks).
Proof.
  induction ks as [|k ks IH]; cbn [fill_in_containers]; [apply returns_ret|].
  settle_returns; first [exact IH | apply returns_fill_first_input].
Qed.

Lemma returns_fillNaukriInput (answer : string) : returns (fillNaukriInput react answer).
Proof. unfold fillNaukriInput. settle_returns. apply returns_fill_in_containers. Qed.

Lemma returns_clickApplyButton : returns (clickApplyButton react).
Proof. unfold clickApplyButton, sleep. settle_returns. Qed.

Lemma returns_clickNaukriSaveButton : returns (clickNaukriSaveButton react).
Proof. unfold clickNaukriSaveButton. settle_returns. Qed.

Lemma kept_refl (m : gmap string string) : kept m m.
Proof. intros q v Hq. unfold recall in Hq. destruct (m !! q) as [x|]; [|discriminate].
  destruct (JS.truthy x); congruence. Qed.

Lemma kept_insert (m m' : gmap string string) (q a : string) :
  recall m q = None -> kept (<[q := a]> m) m' -> kept m m'.
Proof.
  intros Hnone Hkept q' v Hq'. apply Hkept.
  destruct (decide (q' = q)) as [->|Hne]; [congruence|].
  unfold recall in *. now rewrite lookup_insert_ne by congruence.
Qed.

Lemma panel_effect_stay (n : nat) (m : gmap string string) (w w' : World) :
  qaMemory (storage w) = m -> silent w w' -> panel_effect n m w w'.
Proof.
  intros <- (Hs & Ha & Hp & Hw). unfold panel_effect, same_assets.
  rewrite Hs, Ha, Hp, Hw. repeat split; try lia. apply kept_refl.
Qed.

Lemma panel_effect_after (n : nat) (m : gmap string string) (w w1 w' : World) :
  silent w w1 -> panel_effect n m w1 w' -> panel_effect n m w w'.
Proof.
  intros (Hs & Ha & Hp & Hw). unfold panel_effect, same_assets.
  rewrite Hs, Ha, Hp, Hw. auto.
Qed.

Lemma panel_effect_more (n : nat) (m : gmap string string) (w w' : World) :
  panel_effect n m w w' -> panel_effect (S n) m w w'.
Proof.
  unfold panel_effect. intros (? & ? & ? & ? & ? & ?).
  split; [assumption|]. split; [assumption|]. repeat split; try assumption; lia.
Qed.

Lemma sidebar_loop_effect (remaining : nat) :
  forall attempt memory w,
    qaMemory (storage w) = memory ->
    panel_effect remaining memory w
      (snd (sidebar_loop quota react remaining attempt memory w)).
Proof.
  induction remaining as [|remaining IH]; intros attempt memory w Hmem;
    cbn [sidebar_loop].
  { apply panel_effect_stay; [exact Hmem | apply silent_refl]. }
  cbv zeta. rewrite bind_run.
  pose proof (silent_sleep 1000 w) as Hpause.
  destruct (sleep react 1000 w) as [[[]|err] w1] eqn:Hsleep; cbn [snd] in Hpause;
    [|discriminate Hsleep].
  eapply panel_effect_after; [exact Hpause|].
  assert (Hmem1 : qaMemory (storage w1) = memory)
    by (destruct Hpause as (-> & _); exact Hmem).
  clear Hsleep Hpause Hmem w.
  rewrite bind_run. cbn [get_world].
  assert (Hexit : forall exit, panel_effect (S remaining) memory w1
                                 (snd ((mret (exit, S attempt) : M (Exit * nat)) w1)))
    by (intros exit; apply panel_effect_stay; [exact Hmem1 | apply silent_refl]).
  destruct (negb (found (findNaukriSidebar (page w1)))); [apply Hexit|].
  destruct (questions (findNaukriSidebar (page w1))) as [|question qs]; [apply Hexit|].
  destruct (inputs (findNaukriSidebar (page w1))) as [|input ins]; [apply Hexit|].
  clear Hexit.
  assert (Htail : forall answer memory' wa,
             qaMemory (storage wa) = memory' ->
             panel_effect remaining memory' wa
               (snd ((filled ← fillNaukriInput react answer;
                      if negb filled then mret (FillFailed, S attempt) else
                      clicked ← clickNaukriSaveButton react;
                      if negb clicked then mret (NoSaveButton, S attempt) else
                      sleep react 2000;;
                      sidebar_loop quota react remaining (S attempt) memory') wa))).
  { intros answer memory' wa Hwa. rewrite bind_run.
    pose proof (silent_fillNaukriInput answer wa) as Hfill.
    destruct (fillNaukriInput react answer wa) as [[filled|err] wb]; cbn [snd] in Hfill;
      [|now apply panel_effect_stay].
    destruct (negb filled); [now apply panel_effect_stay|].
    rewrite bind_run.
    pose proof (silent_clickNaukriSaveButton wb) as Hclick.
    destruct (clickNaukriSaveButton react wb) as [[clicked|err] wc]; cbn [snd] in Hclick;
      [|apply panel_effect_stay; eauto using silent_trans].
    destruct (negb clicked); [apply panel_effect_stay; eauto using silent_trans|].
    rewrite bind_run.
    pose proof (silent_sleep 2000 wc) as Hwait.
    destruct (sleep react 2000 wc) as [[[]|err] wd]; cbn [snd] in Hwait;
      [|apply panel_effect_stay; eauto using silent_trans].
    apply (panel_effect_after _ _ wa wd); [eauto using silent_trans|].
    apply IH. destruct Hfill as (Hf & _), Hclick as (Hc & _), Hwait as (Hd & _).
    congruence. }
  rewrite bind_run.
  destruct (recall memory (JS.trim (JS.toLowerCase question))) as [answer|] eqn:Hrecall.
  - cbn [mret M_ret ret]. apply panel_effect_more. now apply Htail.
  - rewrite bind_run. unfold prompt at 1.
    set (asked := with_log w1 (EvPrompt ("Naukri Question: " ++ question) :: log w1)).
    assert (Hdeclined : forall wx : World,
               storage wx = storage w1 -> log wx = log asked ->
               length (answers wx) <= length (answers w1) ->
               panel_effect (S remaining) memory w1 wx).
    { intros wx Hs Hl Ha. unfold panel_effect, same_assets. rewrite Hs, Hl, Hmem1.
      cbn [log asked with_log count_prompts count_sets].
      repeat split; try lia. apply kept_refl. }
    destruct (answers w1) as [|reply later] eqn:Hanswers.
    + cbn [supplied].
      apply Hdeclined; [reflexivity | reflexivity | cbn; rewrite ?Hanswers; cbn; lia].
    + destruct (supplied reply) as [answer|] eqn:Hreply;
        [|apply Hdeclined; [reflexivity | reflexivity | cbn; rewrite ?Hanswers; cbn; lia]].
      rewrite bind_run. unfold storage_set_qaMemory, storage_set.
      cbn [storage with_answers with_log asked].
      destruct (quota _) eqn:Hquota;
        [|apply Hdeclined; [reflexivity | reflexivity | cbn; rewrite ?Hanswers; cbn; lia]].
      cbn [mret M_ret ret].
      set (stored := with_log _ _).
      specialize (Htail answer (<[JS.trim (JS.toLowerCase question) := answer]> memory)
                    stored eq_refl).
      match type of Htail with
      | panel_effect _ _ _ ?x =>
          change (panel_effect (S remaining) memory w1 x);
          set (final := x) in *; clearbody final
      end.
      destruct Htail as ([Hres Hcov] & Hkept & Hprompts & Hsets & Hpairs & Hreplies).
      cbn [storage log answers stored with_log with_storage with_answers asked
           Store.resume Store.coverLetter with_qaMemory count_prompts count_sets length]
        in Hres, Hcov, Hprompts, Hsets, Hpairs, Hreplies.
      unfold panel_effect, same_assets. rewrite ?Hanswers. cbn [length].
      split; [split; assumption|].
      split; [exact (kept_insert _ _ _ _ Hrecall Hkept)|].
      repeat split; lia.
Qed.


(** X13. However the panel loop ends, it has shown at most twenty dialogs,
    has written the memory at most once for each dialog answered, has
    left the stored files alone and holds every answer the memory held
    when it began. *)
Theorem handleNaukriSidebar_keeps_memory (w : World) :
  let w' := snd (handleNaukriSidebar quota react w) in
  same_assets (storage w) (storage w') /\
  kept (qaMemory (storage w)) (qaMemory (storage w')) /\
  count_prompts (log w') <= 20 + count_prompts (log w) /\
  count_sets (log w') + count_prompts (log w)
    <= count_sets (log w) + count_prompts (log w') /\
  count_sets (log w') + length (answers w') <= count_sets (log w) + length (answers w).
Proof.
  cbv zeta. unfold handleNaukriSidebar. rewrite bind_run. cbn [get_world].
  pose proof (sidebar_loop_effect maxAttempts 0 (qaMemory (storage w)) w eq_refl)
    as Heffect.
  set (final := snd (sidebar_loop quota react maxAttempts 0 (qaMemory (storage w)) w))
    in *.
  clearbody final.
  destruct Heffect as (Hassets & Hkept & Hprompts & _ & Hpairs & Hreplies).
  unfold maxAttempts in Hprompts. repeat split; try assumption; try apply Hassets; lia.
Qed.

End PanelMemory.

Section PanelMemoryExample.
Import Dom Store Run Content Spec Props.


End PanelMemoryExample.

(* ===================================================================== *)
(** ** The automatic pass over a job-board page *)
(* ===================================================================== *)

Section AutoPanel.
Import Dom Store Run Content Spec Props Auto.
Variable quota : Storage -> bool.
Variable react : Event -> Page -> Page.

Lemma panel_effect_then (n : nat) (m : gmap string string) (w w1 w' : World) :
  panel_effect n m w w1 -> silent w1 w' -> panel_effect n m w w'.
Proof.
  intros Heffect (Hs & Ha & Hp & Hw). unfold panel_effect, same_assets in *.
  rewrite Hs, Ha, Hp, Hw. exact Heffect.
Qed.


End AutoPanel.

Section AutoPanelExample.
Import Dom Store Run Content Spec Props Auto.


End AutoPanelExample.

(* ===================================================================== *)
(** ** The popup: failures of import and upload *)
(* ===================================================================== *)

Section PopupFailures.
Import Dom Store Run Content Popup Spec Props.
Variable quota : Storage -> bool.
Variable JSON_parse : string -> option (gmap string string).


(** X16. Importing the same file a second time changes nothing in the
    memory: under a host that accepts the writes, the memory after two
    imports of a text is the memory after one. *)
Theorem importMemory_idempotent (text : string) (w : World) :
  (forall s, quota s = true) ->
  qaMemory (storage (snd (importMemory quota JSON_parse text
                            (snd (importMemory quota JSON_parse text w)))))
  = qaMemory (storage (snd (importMemory quota JSON_parse text w))).
Proof.
  intros Hq. destruct (JSON_parse text) as [imported|] eqn:Hparse.
  - rewrite (importMemory_merges quota JSON_parse w text imported Hparse (Hq _)).
    cbn [snd].
    rewrite (importMemory_merges quota JSON_parse _ text imported Hparse (Hq _)).
    cbn. unfold spread_merge. rewrite (assoc (∪)). now rewrite (idemp (∪) imported).
  - unfold importMemory, try_catch. rewrite !Hparse. reflexivity.
Qed.

(** X17. An upload is two writes and is not undone when the second is
    refused: the new file is then stored, the memory still names what it
    named before, the handler ends in a rejection and no dialog is
    shown. When the first write is refused nothing is stored at all. *)
Theorem uploadResume_not_atomic (name data type : string) (size : Z) (w : World) :
  let s1 := with_resume (storage w) (asset_of name data type size) in
  (quota s1 = false ->
   exists err, uploadResume quota name data type size w = (Throw err, w)) /\
  (quota s1 = true ->
   quota (with_qaMemory s1 (assign_all resumeKeys name (qaMemory (storage w)))) = false ->
   exists err w',
     uploadResume quota name data type size w = (Throw err, w') /\
     Store.resume (storage w') = Some (asset_of name data type size) /\
     qaMemory (storage w') = qaMemory (storage w) /\
     log w' = EvStorageSet "resume" :: log w).
Proof.
  cbv zeta. unfold uploadResume. split.
  - intros Hno. rewrite bind_run, (storage_set_refused _ _ _ _ Hno). eauto.
  - intros Hyes Hno. rewrite bind_run, (storage_set_accepted _ _ _ _ Hyes).
    rewrite bind_run. cbn [get_storage]. rewrite bind_run.
    erewrite storage_set_refused; [|exact Hno].
    eexists _, _. split; [reflexivity|]. cbn. auto.
Qed.

Lemma upload_keys (name data type : string) (size : Z) (w : World) :
  let s1 := with_resume (storage w) (asset_of name data type size) in
  quota s1 = true ->
  quota (with_qaMemory s1 (assign_all resumeKeys name (qaMemory (storage w)))) = true ->
  exists w',
    uploadResume quota name data type size w = (Normal tt, w') /\
    (forall k, In k resumeKeys -> qaMemory (storage w') !! k = Some name) /\
    page w' = page w /\
    Store.resume (storage w') = Some (asset_of name data type size).
Proof.
  cbv zeta. intros Hfirst Hsecond. unfold uploadResume.
  rewrite bind_run, (storage_set_accepted _ _ _ _ Hfirst).
  rewrite bind_run. cbn [get_storage]. rewrite bind_run.
  erewrite storage_set_accepted; [|exact Hsecond].
  eexists. split; [reflexivity|]. split; [|split; reflexivity].
  intros k Hk. cbn [storage with_log with_storage qaMemory with_qaMemory].
  now apply assign_all_member.
Qed.

End PopupFailures.

Section PopupFailuresExample.
Import Dom Store Run Content Popup Spec Props.

Lemma importMemory_idempotent_witness :
  qaMemory (storage (snd (importMemory unlimited Json.parse (Json.stringify sample_memory)
                            (snd (importMemory unlimited Json.parse
                                    (Json.stringify sample_memory)
                                    (popup_world empty_storage))))))
  = sample_memory.
Proof.
  rewrite (importMemory_idempotent unlimited Json.parse (Json.stringify sample_memory)
             (popup_world empty_storage)).
  - vm_compute. reflexivity.
  - intros s. reflexivity.
Defined.

Lemma uploadResume_not_atomic_witness :
  exists err w',
    uploadResume tight "cv-2024.pdf" "data:application/pdf;base64,JVBERi0="
      "application/pdf" 9 (popup_world sample_storage) = (Throw err, w') /\
    Store.resume (storage w') = Some stored_resume /\
    qaMemory (storage w') !! "resume" = Some "old.pdf".
Proof.
  destruct (proj2 (uploadResume_not_atomic tight "cv-2024.pdf"
                     "data:application/pdf;base64,JVBERi0=" "application/pdf" 9
                     (popup_world sample_storage)))
    as (err & w' & Hrun & Hfile & Hmemory & _).
  - vm_compute. reflexivity.
  - vm_compute. reflexivity.
  - exists err, w'. split; [exact Hrun|]. split; [exact Hfile|].
    rewrite Hmemory. reflexivity.
Defined.

End PopupFailuresExample.

(* ===================================================================== *)
(** ** From an upload to the fields that ask for the file *)
(* ===================================================================== *)

Section UploadFill.
Import Dom Store Run Content Popup Spec Props.
Variable quota : Storage -> bool.
Variables resume0 coverLetter0 : option Asset.
Hypothesis accepting : forall s, quota s = true.

Lemma resumeKeys_name_resume (key : string) :
  In key resumeKeys ->
  JS.truthy key = true /\
  JS.includes key "resume" || JS.includes key "cv" = true.
Proof.
  intros Hin. unfold resumeKeys in Hin. cbn [In] in Hin.
  repeat (destruct Hin as [<-|Hin]; [split; reflexivity|]). destruct Hin.
Qed.

Lemma fill_field_resume (field : Field) (st : Locals) (w : World)
    (el : Element) (r : Asset) :
  elements (page w) !! f_element field = Some el ->
  el_value el = EmptyString -> el_rejects el = false ->
  f_type field = JS.or_else (el_type el) "text" ->
  In (question_of field) resumeKeys ->
  resume0 = Some r ->
  recall (l_qaMemory st) (question_of field) = Some (a_name r) ->
  exists w',
    fill_field quota resume0 coverLetter0 field st w = (Normal (filled st), w') /\
    elements (page w') !! f_element field = Some (resume_given el (a_name r)) /\
    length (elements (page w')) = length (elements (page w)) /\
    storage w' = storage w.
Proof.
  intros Hel Hempty Hassign Htype Hkey Hres Hrecall.
  destruct (resumeKeys_name_resume _ Hkey) as [Hq Hnames].
  unfold fill_field, resume_given. rewrite bind_run. unfold element_at at 1.
  rewrite Hel, Hempty, Hq, Hnames, Hres, Hrecall, Htype. cbn [JS.truthy negb].
  destruct (String.eqb (JS.or_else (el_type el) "text") "file").
  - unfold try_catch, attach. rewrite !bind_run. unfold set_files.
    rewrite Hel, Hassign. cbn.
    eexists. split; [reflexivity|]. cbn.
    rewrite list_lookup_insert_eq by (now apply lookup_lt_Some in Hel).
    rewrite length_insert. auto.
  - unfold fill_text. rewrite !bind_run. unfold set_value.
    rewrite Hel, Hassign. cbn.
    eexists. split; [reflexivity|]. cbn.
    rewrite list_lookup_insert_eq by (now apply lookup_lt_Some in Hel).
    rewrite length_insert. auto.
Qed.

Lemma for_of_elsewhere (fields : list Field) (i : nat) :
  ~ In i (map f_element fields) ->
  forall st w,
    elements (page (snd (for_of fields (fill_field quota resume0 coverLetter0) st w))) !! i
    = elements (page w) !! i.
Proof.
  induction fields as [|field fields IH]; intros Hfresh st w; [reflexivity|].
  cbn [for_of]. unfold bind.
  pose proof (confined_fill_field quota resume0 coverLetter0 field st w) as Hpage.
  destruct (fill_field quota resume0 coverLetter0 field st w) as [[st1|err] w1];
    cbn [snd] in *.
  - rewrite IH by (intros Hin; apply Hfresh; now right).
    destruct Hpage as (els & -> & _ & Hother & _). cbn [elements with_elements].
    apply Hother. intros ->. apply Hfresh. now left.
  - destruct Hpage as (els & -> & _ & Hother & _). cbn [elements with_elements].
    apply Hother. intros ->. apply Hfresh. now left.
Qed.

Lemma for_of_returns (fields : list Field) :
  forall st w,
    assignable (page w) ->
    exists st' w',
      for_of fields (fill_field quota resume0 coverLetter0) st w = (Normal st', w').
Proof.
  induction fields as [|field fields IH]; intros st w Hpage; cbn [for_of].
  - eexists _, _. reflexivity.
  - unfold bind.
    destruct (fill_field_returns quota resume0 coverLetter0 field st w accepting)
      as [st1 Hst1].
    { intros el Hel. apply (proj1 (Forall_lookup _ _) Hpage _ _ Hel). }
    pose proof (modifies_only_same_controls _ _ _
                  (confined_fill_field quota resume0 coverLetter0 field st w)) as Hsame.
    destruct (fill_field quota resume0 coverLetter0 field st w) as [[st2|err] w1];
      cbn [fst snd] in *; [|discriminate Hst1].
    apply IH. eapply assignable_same_controls; eauto.
Qed.

Lemma for_of_reaches (fields : list Field) (field : Field) (el : Element) (r : Asset) :
  List.NoDup (map f_element fields) ->
  In field fields ->
  el_value el = EmptyString -> 
  f_type field = JS.or_else (el_type el) "text" ->
  In (question_of field) resumeKeys ->
  resume0 = Some r ->
  forall st w,
    assignable (page w) ->
    elements (page w) !! f_element field = Some el ->
    recall (l_qaMemory st) (question_of field) = Some (a_name r) ->
    exists st' w',
      for_of fields (fill_field quota resume0 coverLetter0) st w = (Normal st', w') /\
      elements (page w') !! f_element field = Some (resume_given el (a_name r)).
Proof.
  intros Hnd Hin Hempty Htype Hkey Hres.
  induction fields as [|field0 fields IH]; intros st w Hpage Hel Hrecall; [destruct Hin|].
  cbn [map] in Hnd. apply NoDup_cons_iff in Hnd as [Hfresh Hnd].
  cbn [for_of]. unfold bind. destruct Hin as [->|Hin].
  - assert (Hassign : el_rejects el = false)
      by (apply (proj1 (Forall_lookup _ _) Hpage _ _ Hel)).
    destruct (fill_field_resume field st w el r Hel Hempty Hassign Htype Hkey Hres Hrecall)
      as (w1 & Hrun & Hel1 & _ & _).
    pose proof (modifies_only_same_controls _ _ _
                  (confined_fill_field quota resume0 coverLetter0 field st w)) as Hsame.
    rewrite Hrun in Hsame |- *. cbn [snd] in Hsame.
    destruct (for_of_returns fields (filled st) w1) as (st' & w' & Hrest).
    { eapply assignable_same_controls; eauto. }
    exists st', w'. split; [exact Hrest|].
    pose proof (for_of_elsewhere fields (f_element field) Hfresh (filled st) w1) as Hkeep.
    rewrite Hrest in Hkeep. cbn [snd] in Hkeep. now rewrite Hkeep.
  - assert (Hne : f_element field <> f_element field0).
    { intros Heq. apply Hfresh. rewrite <- Heq. now apply in_map. }
    destruct (fill_field_returns quota resume0 coverLetter0 field0 st w accepting)
      as [st1 Hst1].
    { intros e He. apply (proj1 (Forall_lookup _ _) Hpage _ _ He). }
    pose proof (confined_fill_field quota resume0 coverLetter0 field0 st w) as Hconf.
    pose proof (fill_field_memory quota resume0 coverLetter0 field0 st w) as Hmem.
    cbv zeta in Hmem.
    destruct (fill_field quota resume0 coverLetter0 field0 st w) as [[st2|err] w1];
      cbn [fst snd] in *; [|discriminate Hst1].
    apply (IH Hnd Hin).
    + eapply assignable_same_controls; [|exact Hpage].
      eapply modifies_only_same_controls; eauto.
    + destruct Hconf as (els & -> & _ & Hother & _). cbn [elements with_elements].
      rewrite Hother by exact Hne. exact Hel.
    + destruct Hmem as (_ & [[_ Hst] | (a & _ & _ & Hnone & _ & st' & [= <-] & Hst)]).
      * now rewrite (Hst st2 eq_refl).
      * rewrite Hst. unfold recall in *.
        destruct (decide (question_of field0 = question_of field)) as [Heq|Hq].
        -- rewrite Heq in Hnone. congruence.
        -- now rewrite lookup_insert_ne.
Qed.

End UploadFill.

Section UploadThenFill.
Import Dom Store Run Content Popup Spec Props.
Variable quota : Storage -> bool.


End UploadThenFill.

Section UploadThenFillExample.
Import Dom Store Run Content Popup Spec Props.


End UploadThenFillExample.

(* ===================================================================== *)
(** ** The job queue of the popup *)
(* ===================================================================== *)

Section QueueFacts.
Import JS Queue Props.
Variable valid_url : string -> bool.
Variable quota : list Job -> nat -> bool -> bool.

Lemma all_chars_app (f : ascii -> bool) (a b : string) :
  all_chars f (a ++ b) = all_chars f a && all_chars f b.
Proof.
  induction a as [|c a IH]; [reflexivity|].
  change (String c a ++ b) with (String c (a ++ b)). cbn [all_chars].
  now rewrite IH, andb_assoc.
Qed.

Lemma url_chars_all (s : string) : all_chars is_url_char (url_chars s) = true.
Proof.
  induction s as [|c s IH]; [reflexivity|]. cbn [url_chars].
  destruct (is_url_char c) eqn:Hc; [|reflexivity]. cbn [all_chars]. now rewrite Hc.
Qed.

Lemma with_scheme_shaped (scheme s url : string) :
  all_chars is_url_char scheme = true ->
  with_scheme scheme s = Some url ->
  String.prefix scheme url = true /\ all_chars is_url_char url = true.
Proof.
  intros Hscheme. unfold with_scheme. destruct (String.prefix scheme s); [|discriminate].
  pose proof (url_chars_all (skip (String.length scheme) s)) as Hrest.
  destruct (url_chars (skip (String.length scheme) s)) as [|c rest]; [discriminate|].
  intros [= <-]. split; [apply prefix_app; eauto|].
  now rewrite all_chars_app, Hscheme, Hrest.
Qed.

Lemma url_here_shaped (s url : string) : url_here s = Some url -> url_shaped url.
Proof.
  unfold url_here, url_shaped.
  destruct (with_scheme "https://" s) as [u|] eqn:Hsecure.
  - intros [= <-]. apply with_scheme_shaped in Hsecure as [Hp Hall]; [|reflexivity]. auto.
  - intros Hplain. apply with_scheme_shaped in Hplain as [Hp Hall]; [|reflexivity]. auto.
Qed.

Lemma match_url_shaped (s url : string) : match_url s = Some url -> url_shaped url.
Proof.
  induction s as [|c s IH]; cbn [match_url].
  - destruct (url_here EmptyString) eqn:Hhere; [|discriminate].
    intros [= <-]. now apply url_here_shaped in Hhere.
  - destruct (url_here (String c s)) eqn:Hhere; [|exact IH].
    intros [= <-]. now apply url_here_shaped in Hhere.
Qed.

Lemma split_slash_head (c : ascii) (s : string) :
  Ascii.eqb c "/"%char = false ->
  exists segment rest, split_slash (String c s) = String c segment :: rest.
Proof.
  intros Hc. cbn [split_slash]. rewrite Hc.
  destruct (split_slash s) as [|segment rest]; eauto.
Qed.

Lemma last_filter {A} (f : A -> bool) (l : list A) (x : A) :
  f x = true -> In x l -> exists y, last (List.filter f l) = Some y /\ f y = true.
Proof.
  intros Hx Hin.
  assert (Hne : List.filter f l <> []).
  { intros Hnil. assert (In x (List.filter f l)) as H by (apply filter_In; auto).
    rewrite Hnil in H. destruct H. }
  destruct (last (List.filter f l)) as [y|] eqn:Hlast.
  - exists y. split; [reflexivity|].
    apply last_Some in Hlast as [l' Hl'].
    assert (In y (List.filter f l)) as Hy by (rewrite Hl'; apply in_or_app; right; now left).
    now apply filter_In in Hy.
  - apply last_None in Hlast. contradiction.
Qed.

Lemma last_segment_shaped (url : string) :
  url_shaped url -> exists segment, last_segment url = Some segment /\ truthy segment = true.
Proof.
  intros [Hprefix _]. unfold last_segment.
  assert (exists t, url = String "h" t) as [t ->].
  { destruct Hprefix as [H|H]; destruct url as [|c t]; try discriminate H;
      cbn [String.prefix] in H;
      destruct (ascii_dec "h" c) as [<-|]; try discriminate H; eauto. }
  destruct (split_slash_head "h" t eq_refl) as (segment & rest & Hsplit).
  rewrite Hsplit. apply (last_filter truthy _ (String "h" segment)); [reflexivity | now left].
Qed.

Lemma or_else_truthy (a b : string) : truthy b = true -> truthy (or_else a b) = true.
Proof. intros Hb. unfold or_else. destruct (truthy a) eqn:Ha; assumption. Qed.

Lemma name_of_truthy (line url : string) (i count : nat) :
  url_shaped url -> truthy (name_of line url i count) = true.
Proof.
  intros Hurl. unfold name_of. cbv zeta.
  set (name := trim (strip_trailing (trim _))).
  destruct (truthy name) eqn:Hname.
  - unfold or_else. now rewrite Hname.
  - destruct (last_segment_shaped url Hurl) as (segment & -> & Hsegment).
    unfold or_else at 2. rewrite Hsegment. unfold or_else. now rewrite Hsegment.
Qed.


Lemma read_line_loaded (i : nat) (line : string) (parsedJobs : list Job) :
  Forall (loaded_job valid_url) parsedJobs ->
  Forall (loaded_job valid_url) (read_line valid_url i line parsedJobs) /\
  length (read_line valid_url i line parsedJobs) <= S (length parsedJobs).
Proof.
  intros Hall. unfold read_line. cbv zeta.
  destruct (negb (truthy (trim line))); [split; [exact Hall | lia]|].
  destruct (match_url (trim line)) as [url|] eqn:Hurl; [|split; [exact Hall | lia]].
  destruct (valid_url url) eqn:Hvalid; [|split; [exact Hall | lia]].
  apply match_url_shaped in Hurl. split.
  - apply Forall_app. split; [exact Hall|]. constructor; [|constructor].
    unfold loaded_job. cbn [j_status j_name j_url].
    split; [reflexivity|]. split; [now apply name_of_truthy|]. auto.
  - rewrite length_app. cbn [length]. lia.
Qed.

Lemma read_lines_loaded (lines : list string) :
  forall i parsedJobs,
    Forall (loaded_job valid_url) parsedJobs ->
    Forall (loaded_job valid_url) (read_lines valid_url i lines parsedJobs) /\
    length (read_lines valid_url i lines parsedJobs) <= length lines + length parsedJobs.
Proof.
  induction lines as [|line lines IH]; intros i parsedJobs Hall; cbn [read_lines length].
  - split; [exact Hall | lia].
  - destruct (read_line_loaded i line parsedJobs Hall) as [Hall' Hlen].
    destruct (IH (S i) _ Hall') as [Hfinal Hbound]. split; [exact Hfinal | lia].
Qed.


Lemma ordered_pending (js : list Job) :
  Forall (loaded_job valid_url) js -> ordered js 0.
Proof.
  intros Hall k job Hk. split; [|lia].
  intros Hdone. apply (proj1 (Forall_lookup _ _) Hall) in Hk as (Hpending & _).
  rewrite Hpending in Hdone. discriminate Hdone.
Qed.

Lemma ordered_nil (i : nat) : ordered [] i.
Proof. intros k job Hk. rewrite lookup_nil in Hk. discriminate Hk. Qed.

Lemma ordered_next (js : list Job) (i : nat) :
  ordered js i -> ordered (alter complete i js) (S i).
Proof.
  intros Hord k job Hk. destruct (decide (k = i)) as [->|Hne].
  - rewrite list_lookup_alter_eq in Hk.
    destruct (js !! i) as [old|]; [|discriminate Hk]. injection Hk as <-.
    cbn [j_status complete]. split; [lia | reflexivity].
  - rewrite list_lookup_alter_ne in Hk by congruence.
    rewrite (Hord k job Hk). lia.
Qed.

Lemma ordered_count (js : list Job) :
  forall i, ordered js i ->
    length (List.filter (fun job => String.eqb (j_status job) "completed") js)
    = Nat.min i (length js).
Proof.
  induction js as [|job js IH]; intros i Hord; cbn [List.filter length].
  - now rewrite Nat.min_0_r.
  - pose proof (Hord 0 job eq_refl) as Hhead. destruct i as [|i].
    + destruct (String.eqb (j_status job) "completed") eqn:Hdone.
      * apply String.eqb_eq in Hdone. apply Hhead in Hdone. lia.
      * rewrite (IH 0); [reflexivity|].
        intros k job' Hk. pose proof (Hord (S k) job' Hk) as Hk'. split; [|lia].
        intros Hd. apply Hk' in Hd. lia.
    + assert (String.eqb (j_status job) "completed" = true) as ->
        by (apply String.eqb_eq, Hhead; lia).
      cbn [length]. rewrite (IH i); [reflexivity|].
      intros k job' Hk. pose proof (Hord (S k) job' Hk) as Hk'. split.
      * intros Hd. apply Hk' in Hd. lia.
      * intros Hlt. apply Hk'. lia.
Qed.

Lemma parse_csv_all_loaded (csv : string) (parsedJobs : list Job) :
  parse_csv valid_url csv = Some parsedJobs -> Forall (loaded_job valid_url) parsedJobs.
Proof.
  unfold parse_csv. cbv zeta.
  destruct (List.filter _ (split_lines csv)) as [|first lines]; [discriminate|].
  intros [= <-]. apply read_lines_loaded. constructor.
Qed.

Lemma parse_csv_ordered (csv : string) (parsedJobs : list Job) :
  parse_csv valid_url csv = Some parsedJobs -> ordered parsedJobs 0.
Proof.
  unfold parse_csv. cbv zeta.
  destruct (List.filter _ (split_lines csv)) as [|first lines]; [discriminate|].
  intros [= <-]. apply ordered_pending.
  apply read_lines_loaded. constructor.
Qed.

Lemma reachable_ordered (s : State) :
  reachable valid_url quota s -> well_ordered s.
Proof.
  induction 1 as [|input s _ IH|s _ IH|s _ IH|s _ IH|s _ IH|s _ IH].
  - split; apply ordered_nil.
  - unfold loadJobs. cbv zeta.
    destruct (negb (truthy (trim input))); [exact IH|].
    destruct (parse_csv valid_url (trim input)) as [parsedJobs|] eqn:Hparse; [|exact IH].
    apply parse_csv_ordered in Hparse.
    destruct parsedJobs as [|job parsedJobs]; [exact IH|].
    unfold save_queue. cbn [jobs currentJobIndex with_queue saved_running].
    destruct IH as [Hmem Hsaved].
    destruct (quota _ _ _); split; cbn; assumption.
  - unfold startApplying. destruct (jobs s) as [|job js] eqn:Hjobs; [exact IH|].
    destruct (length (job :: js) <=? currentJobIndex s)%nat; [exact IH|].
    unfold save_running. cbn [with_running saved_jobs saved_index isRunning].
    destruct (quota _ _ _); [|exact IH].
    unfold navigateToCurrentJob.
    match goal with
    | |- context [match ?x with _ => _ end] => destruct x
    end; exact IH.
  - unfold stopApplying, save_running.
    cbn [with_running saved_jobs saved_index isRunning].
    destruct (quota _ _ _); exact IH.
  - unfold nextJob. destruct (jobs s) as [|job js] eqn:Hjobs; [exact IH|].
    rewrite <- Hjobs. destruct IH as [Hmem Hsaved].
    pose proof (ordered_next _ _ Hmem) as Hnext.
    unfold save_queue. cbn [with_queue jobs currentJobIndex saved_running].
    destruct (quota _ _ _); [|split; cbn; assumption].
    match goal with
    | |- context [if ?x then _ else _] => destruct x
    end.
    + unfold navigateToCurrentJob.
      match goal with
      | |- context [match ?x with _ => _ end] => destruct x
      end; split; cbn; assumption.
    + split; cbn; assumption.
  - unfold loadState. cbv zeta. destruct IH as [Hmem Hsaved].
    destruct (saved_running s); [|split; cbn; assumption].
    destruct (saved_jobs s !! saved_index s); split; cbn; assumption.
  - unfold handleJobCompletion. cbv zeta.
    destruct (negb (saved_running s)); [exact IH|].
    destruct IH as [Hmem Hsaved]. pose proof (ordered_next _ _ Hsaved) as Hnext.
    destruct (quota _ _ (saved_running s)); [|split; assumption].
    destruct (alter complete (saved_index s) (saved_jobs s) !! S (saved_index s));
      [split; cbn; assumption|].
    destruct (quota _ _ false); split; cbn; assumption.
Qed.

(** X20. In every state the popup and the background worker can reach,
    the completed jobs are exactly the jobs before the current index,
    in the script and in the storage alike; the number shown as applied
    is therefore the stored index, or the number of jobs once the index
    has passed the last of them. *)
Theorem queue_ordered (s : State) :
  reachable valid_url quota s ->
  ordered (jobs s) (currentJobIndex s) /\
  ordered (saved_jobs s) (saved_index s) /\
  appliedCount s = Nat.min (saved_index s) (length (saved_jobs s)).
Proof.
  intros Hreach. destruct (reachable_ordered s Hreach) as [Hmem Hsaved].
  split; [exact Hmem|]. split; [exact Hsaved|].
  unfold appliedCount. now apply ordered_count.
Qed.

End QueueFacts.

Section QueueRuns.
Import JS Queue Props.
Variable quota : list Job -> nat -> bool -> bool.
Hypothesis accepting : forall js i running, quota js i running = true.

Lemma nextJob_accepted (s : State) :
  jobs s <> [] ->
  exists s',
    nextJob quota s = Done s' /\
    jobs s' = alter complete (currentJobIndex s) (jobs s) /\
    currentJobIndex s' = S (currentJobIndex s) /\
    saved_jobs s' = jobs s' /\ saved_index s' = currentJobIndex s' /\
    (forall job, jobs s' !! currentJobIndex s' = Some job ->
                 tab_url s' = Some (j_url job)).
Proof.
  intros Hjobs. unfold nextJob. destruct (jobs s) as [|job js] eqn:Hlist; [now destruct Hjobs|].
  rewrite <- Hlist. unfold save_queue. rewrite accepting.
  cbn [jobs currentJobIndex with_queue].
  destruct (S (currentJobIndex s) <? length (alter complete (currentJobIndex s) (jobs s)))%nat
    eqn:Hmore.
  - unfold navigateToCurrentJob. cbn [jobs currentJobIndex].
    destruct (alter complete (currentJobIndex s) (jobs s) !! S (currentJobIndex s))
      as [next|] eqn:Hnext.
    + eexists. split; [reflexivity|]. cbn. repeat split. rewrite Hnext. now intros ? [= <-].
    + eexists. split; [reflexivity|]. cbn. repeat split. rewrite Hnext. discriminate.
  - eexists. split; [reflexivity|]. cbn. repeat split.
    intros next Hjob. apply lookup_lt_Some in Hjob. apply Nat.ltb_ge in Hmore. lia.
Qed.

Lemma url_after_complete (js : list Job) (i k : nat) :
  j_url <$> alter complete i js !! k = j_url <$> js !! k.
Proof.
  destruct (decide (i = k)) as [->|Hne].
  - rewrite list_lookup_alter_eq. destruct (js !! k); reflexivity.
  - now rewrite list_lookup_alter_ne.
Qed.

(** X21. From a queue of pending jobs at index 0, under a host that
    accepts every write, the next button pressed [n] times leaves the
    index at [n], however large [n] is; the jobs before it are the
    completed ones, the storage holds what the script holds, the number
    shown as applied is [n] or the number of jobs when [n] has passed
    it, and as long as a job is left the tab is on the address of job
    [n]. *)
Theorem nextJob_presses (n : nat) (s : State) :
  jobs s <> [] -> currentJobIndex s = 0 -> ordered (jobs s) 0 ->
  exists s',
    presses quota n s = Done s' /\
    currentJobIndex s' = n /\
    ordered (jobs s') n /\
    (forall k, j_url <$> jobs s' !! k = j_url <$> jobs s !! k) /\
    (0 < n ->
     saved_jobs s' = jobs s' /\ saved_index s' = n /\
     appliedCount s' = Nat.min n (length (jobs s)) /\
     (n < length (jobs s) -> tab_url s' = j_url <$> jobs s !! n)).
Proof.
  intros Hjobs Hzero Hpending. induction n as [|n IH]; cbn [presses].
  - exists s. split; [reflexivity|]. split; [exact Hzero|]. split; [exact Hpending|].
    split; [reflexivity | lia].
  - destruct IH as (s1 & -> & Hindex & Hord & Hurls & _).
    assert (Hlen : length (jobs s1) = length (jobs s)).
    { apply Nat.le_antisymm; apply Nat.nlt_ge; intros Hlt.
      - pose proof (Hurls (length (jobs s))) as Hk.
        rewrite (lookup_ge_None_2 (jobs s)) in Hk by lia.
        destruct (lookup_lt_is_Some_2 (jobs s1) (length (jobs s)) Hlt) as [x Hx].
        rewrite Hx in Hk. discriminate Hk.
      - pose proof (Hurls (length (jobs s1))) as Hk.
        rewrite (lookup_ge_None_2 (jobs s1)) in Hk by lia.
        destruct (lookup_lt_is_Some_2 (jobs s) (length (jobs s1)) Hlt) as [x Hx].
        rewrite Hx in Hk. discriminate Hk. }
    destruct (nextJob_accepted s1) as (s2 & Hrun & Hjobs2 & Hindex2 & Hsaved & Hsavedi & Htab).
    { intros Hnil. rewrite Hnil in Hlen. destruct (jobs s); [now apply Hjobs | discriminate]. }
    exists s2. split; [exact Hrun|]. rewrite Hindex in *.
    split; [exact Hindex2|].
    assert (Hord2 : ordered (jobs s2) (S n))
      by (rewrite Hjobs2; now apply ordered_next).
    split; [exact Hord2|].
    assert (Hurls2 : forall k, j_url <$> jobs s2 !! k = j_url <$> jobs s !! k)
      by (intros k; rewrite Hjobs2, url_after_complete; apply Hurls).
    split; [exact Hurls2|]. intros _.
    split; [exact Hsaved|]. split; [congruence|]. split.
    + unfold appliedCount. rewrite Hsaved.
      rewrite (ordered_count _ _ Hord2). rewrite Hjobs2, length_alter, Hlen. reflexivity.
    + intros Hleft. rewrite <- Hurls2.
      destruct (lookup_lt_is_Some_2 (jobs s2) (S n)) as [job Hjob].
      { rewrite Hjobs2, length_alter, Hlen. exact Hleft. }
      rewrite Hjob. cbn [fmap option_fmap option_map]. apply Htab.
      now rewrite Hindex2.
Qed.

End QueueRuns.

Section QueueExample.
Import JS Queue Props.



Lemma queue_ordered_witness :
  appliedCount (state_of (nextJob roomy (state_of (loadJobs any_url roomy pasted fresh))))
  = 1.
Proof.
  destruct (queue_ordered any_url roomy _
              (reach_nextJob _ _ _ (reach_loadJobs _ _ pasted _ (reach_fresh _ _))))
    as (_ & _ & Hcount).
  rewrite Hcount. vm_compute. reflexivity.
Defined.

Lemma nextJob_presses_witness :
  exists s',
    presses roomy 3 (state_of (loadJobs any_url roomy pasted fresh)) = Done s' /\
    currentJobIndex s' = 3 /\ appliedCount s' = 2.
Proof.
  destruct (nextJob_presses roomy (fun _ _ _ => eq_refl) 3
              (state_of (loadJobs any_url roomy pasted fresh)))
    as (s' & Hrun & Hindex & _ & _ & Hlater).
  - vm_compute. discriminate.
  - vm_compute. reflexivity.
  - intros k job Hk. split; [|lia]. intros Hdone.
    destruct k as [|[|k]]; vm_compute in Hk; try discriminate Hk;
      injection Hk as <-; vm_compute in Hdone; discriminate Hdone.
  - exists s'. split; [exact Hrun|]. split; [exact Hindex|].
    destruct (Hlater ltac:(lia)) as (_ & _ & Hcount & _). rewrite Hcount.
    vm_compute. reflexivity.
Defined.

End QueueExample.

Section WorkerRuns.
Import JS Queue Props.
Variable quota : list Job -> nat -> bool -> bool.
Hypothesis accepting : forall js i running, quota js i running = true.

(** X22. From a stored queue of pending jobs at index 0 in running mode,
    under a host that accepts every write, [n] completion messages leave
    the stored index at [n] as long as jobs are left and at the number
    of jobs from then on: the worker leaves running mode with the last
    job and ignores what follows. The completed jobs are those before
    the index, the tab is on the address of job [n] while one is left,
    and the globals of an open popup are never touched. *)
Theorem handleJobCompletion_messages (n : nat) (s : State) :
  saved_jobs s <> [] ->
  saved_running s = true -> saved_index s = 0 -> ordered (saved_jobs s) 0 ->
  exists s',
    messages quota n s = Done s' /\
    saved_index s' = Nat.min n (length (saved_jobs s)) /\
    saved_running s' = (n <? length (saved_jobs s))%nat /\
    ordered (saved_jobs s') (saved_index s') /\
    appliedCount s' = Nat.min n (length (saved_jobs s)) /\
    (forall k, j_url <$> saved_jobs s' !! k = j_url <$> saved_jobs s !! k) /\
    (0 < n < length (saved_jobs s) -> tab_url s' = j_url <$> saved_jobs s !! n) /\
    jobs s' = jobs s /\ currentJobIndex s' = currentJobIndex s /\ isRunning s' = isRunning s.
Proof.
  intros Hjobs Hrunning Hzero Hpending. induction n as [|n IH]; cbn [messages].
  - exists s. split; [reflexivity|]. rewrite Hzero, Hrunning. cbn [Nat.min].
    split; [reflexivity|]. split.
    { destruct (saved_jobs s) as [|job js]; [now destruct Hjobs | reflexivity]. }
    split; [exact Hpending|]. split.
    { unfold appliedCount. now rewrite (ordered_count _ _ Hpending). }
    split; [reflexivity|]. split; [lia|]. auto.
  - destruct IH as (s1 & -> & Hindex & Hrun & Hord & Hcount & Hurls & _ & Hj & Hi & Hr).
    assert (Hlen : length (saved_jobs s1) = length (saved_jobs s)).
    { apply Nat.le_antisymm; apply Nat.nlt_ge; intros Hlt.
      - pose proof (Hurls (length (saved_jobs s))) as Hk.
        rewrite (lookup_ge_None_2 (saved_jobs s)) in Hk by lia.
        destruct (lookup_lt_is_Some_2 (saved_jobs s1) (length (saved_jobs s)) Hlt)
          as [x Hx].
        rewrite Hx in Hk. discriminate Hk.
      - pose proof (Hurls (length (saved_jobs s1))) as Hk.
        rewrite (lookup_ge_None_2 (saved_jobs s1)) in Hk by lia.
        destruct (lookup_lt_is_Some_2 (saved_jobs s) (length (saved_jobs s1)) Hlt)
          as [x Hx].
        rewrite Hx in Hk. discriminate Hk. }
    unfold handleJobCompletion. cbv zeta. rewrite Hrun.
    destruct (n <? length (saved_jobs s))%nat eqn:Hleft; cbn [negb].
    + apply Nat.ltb_lt in Hleft. rewrite !accepting.
      rewrite Nat.min_l in Hindex by lia. rewrite Hindex in *.
      pose proof (ordered_next _ _ Hord) as Hnext.
      assert (Hurls2 : forall k, j_url <$> alter complete n (saved_jobs s1) !! k
                                 = j_url <$> saved_jobs s !! k)
        by (intros k; rewrite url_after_complete; apply Hurls).
      destruct (alter complete n (saved_jobs s1) !! S n) as [nextJob|] eqn:Hlookup.
      * assert (S n < length (saved_jobs s)) as Hmore.
        { apply lookup_lt_Some in Hlookup. rewrite length_alter, Hlen in Hlookup. lia. }
        eexists. split; [reflexivity|].
        cbn [saved_index saved_running saved_jobs with_tab with_saved tab_url jobs
             currentJobIndex isRunning].
        rewrite Nat.min_l by lia.
        split; [reflexivity|]. split; [symmetry; now apply Nat.ltb_lt|].
        split; [exact Hnext|]. split.
        { unfold appliedCount. cbn [saved_jobs with_saved with_tab].
          rewrite (ordered_count _ _ Hnext), length_alter, Hlen. lia. }
        split; [exact Hurls2|]. split; [|auto].
        intros _. rewrite <- Hurls2, Hlookup. reflexivity.
      * assert (length (saved_jobs s) <= S n) as Hlast.
        { apply lookup_ge_None_1 in Hlookup. rewrite length_alter, Hlen in Hlookup. lia. }
        eexists. split; [reflexivity|].
        cbn [saved_index saved_running saved_jobs with_saved tab_url jobs
             currentJobIndex isRunning].
        rewrite Nat.min_r by lia.
        split; [lia|]. split; [symmetry; apply Nat.ltb_ge; lia|].
        split; [exact Hnext|]. split.
        { unfold appliedCount. cbn [saved_jobs with_saved with_tab].
          rewrite (ordered_count _ _ Hnext), length_alter, Hlen. lia. }
        split; [exact Hurls2|]. split; [lia | auto].
    + apply Nat.ltb_ge in Hleft. exists s1. split; [reflexivity|].
      rewrite Nat.min_r in Hindex, Hcount by lia. rewrite Nat.min_r by lia.
      split; [exact Hindex|]. split; [rewrite Hrun; symmetry; apply Nat.ltb_ge; lia|].
      split; [exact Hord|]. split; [exact Hcount|]. split; [exact Hurls|].
      split; [lia | auto].
Qed.

End WorkerRuns.

Section WorkerExample.
Import JS Queue Props.

Lemma handleJobCompletion_messages_witness :
  exists s',
    messages roomy 5
      (state_of (startApplying roomy (state_of (loadJobs any_url roomy pasted fresh))))
    = Done s' /\
    saved_index s' = 2 /\ saved_running s' = false /\ appliedCount s' = 2.
Proof.
  destruct (handleJobCompletion_messages roomy (fun _ _ _ => eq_refl) 5
              (state_of (startApplying roomy
                           (state_of (loadJobs any_url roomy pasted fresh)))))
    as (s' & Hrun & Hindex & Hrunning & _ & Hcount & _).
  - vm_compute. discriminate.
  - vm_compute. reflexivity.
  - vm_compute. reflexivity.
  - intros k job Hk. split; [|lia]. intros Hdone.
    destruct k as [|[|k]]; vm_compute in Hk; try discriminate Hk;
      injection Hk as <-; vm_compute in Hdone; discriminate Hdone.
  - exists s'. split; [exact Hrun|].
    rewrite Hindex, Hrunning, Hcount. vm_compute. auto.
Defined.

End WorkerExample.

Section LoadJobs.
Import JS Queue Props.
Variable valid_url : string -> bool.
Variable quota : list Job -> nat -> bool -> bool.

Lemma truthy_trimEnd (s : string) : truthy (trimEnd s) = has_ink s.
Proof.
  induction s as [|c s IH]; [reflexivity|]. cbn [trimEnd has_ink].
  destruct (trimEnd s) as [|d t]; cbn [truthy] in *; rewrite <- IH.
  - destruct (is_space c); reflexivity.
  - now rewrite orb_true_r.
Qed.

Lemma has_ink_trimEnd (s : string) : has_ink (trimEnd s) = has_ink s.
Proof.
  induction s as [|c s IH]; [reflexivity|]. cbn [trimEnd has_ink].
  pose proof (truthy_trimEnd s) as Htruthy.
  destruct (trimEnd s) as [|d t]; cbn [truthy] in Htruthy; rewrite <- Htruthy.
  - destruct (is_space c) eqn:Hc; cbn [has_ink]; rewrite ?Hc; reflexivity.
  - cbn [has_ink] in *. rewrite IH, <- Htruthy. now rewrite !orb_true_r.
Qed.

Lemma has_ink_trimStart (s : string) : has_ink (trimStart s) = has_ink s.
Proof.
  induction s as [|c s IH]; [reflexivity|]. cbn [trimStart has_ink].
  destruct (is_space c) eqn:Hc; cbn [has_ink negb orb]; rewrite ?Hc; cbn [negb orb];
    [exact IH | reflexivity].
Qed.

Lemma truthy_trim (s : string) : truthy (trim s) = has_ink s.
Proof. unfold trim. now rewrite truthy_trimEnd, has_ink_trimStart. Qed.

Lemma has_ink_trim (s : string) : has_ink (trim s) = has_ink s.
Proof. unfold trim. now rewrite has_ink_trimEnd, has_ink_trimStart. Qed.

Lemma has_ink_rev_app (a b : string) :
  has_ink (String.rev_app a b) = has_ink a || has_ink b.
Proof.
  revert b. induction a as [|c a IH]; intros b; [reflexivity|].
  cbn [String.rev_app has_ink]. rewrite IH. cbn [has_ink].
  destruct (is_space c), (has_ink a), (has_ink b); reflexivity.
Qed.

Lemma split_lines_aux_ink (s : string) :
  forall cur,
    existsb has_ink (split_lines_aux cur s) = has_ink cur || has_ink s.
Proof.
  induction s as [|c s IH]; intros cur; cbn [split_lines_aux existsb has_ink].
  - unfold String.rev. rewrite has_ink_rev_app. cbn [has_ink].
    now rewrite !orb_false_r.
  - destruct (Ascii.eqb c "010"%char) eqn:Hc.
    + apply Ascii.eqb_eq in Hc as ->. cbn [existsb]. rewrite IH.
      unfold String.rev. rewrite has_ink_rev_app. cbn.
      now rewrite !orb_false_r.
    + rewrite IH. cbn [has_ink].
      destruct (is_space c), (has_ink cur), (has_ink s); reflexivity.
Qed.

(** The pasted text, once found not to be blank, has a first line: the
    read of [lines[0]] does not fail. *)
Lemma parse_csv_reads (csv : string) :
  has_ink csv = true -> exists parsedJobs, parse_csv valid_url csv = Some parsedJobs.
Proof.
  intros Hink. unfold parse_csv. cbv zeta.
  destruct (List.filter (fun line => truthy (trim line)) (split_lines csv))
    as [|first lines] eqn:Hlines; [|eauto].
  exfalso. unfold split_lines in Hlines.
  pose proof (split_lines_aux_ink csv EmptyString) as Hsome.
  rewrite Hink in Hsome. cbn [has_ink orb] in Hsome.
  apply existsb_exists in Hsome as (line & Hin & Hline).
  assert (In line (List.filter (fun line => truthy (trim line))
                     (split_lines_aux EmptyString csv))) as Hkept
    by (apply filter_In; split; [exact Hin | now rewrite truthy_trim]).
  rewrite Hlines in Hkept. destruct Hkept.
Qed.

(** X23. [loadJobs] ends in a rejection only when the host refuses the
    write of the new queue; the script then holds the new queue at index
    0 while the storage still holds the old one. When it returns, either
    nothing was loaded and one dialog was shown, or the script and the
    storage hold the same new queue of pending jobs at index 0. The
    running flag is never changed. *)
Theorem loadJobs_outcomes (input : string) (s : State) :
  match loadJobs valid_url quota input s with
  | Done s' =>
      isRunning s' = isRunning s /\ saved_running s' = saved_running s /\
      ((jobs s' = jobs s /\ currentJobIndex s' = currentJobIndex s /\
        saved_jobs s' = saved_jobs s /\ saved_index s' = saved_index s /\
        exists message, dialogs s' = message :: dialogs s) \/
       (jobs s' <> [] /\ Forall (loaded_job valid_url) (jobs s') /\
        currentJobIndex s' = 0 /\
        saved_jobs s' = jobs s' /\ saved_index s' = 0))
  | Rejected s' =>
      quota (jobs s') 0 (saved_running s) = false /\
      jobs s' <> [] /\ Forall (loaded_job valid_url) (jobs s') /\
      currentJobIndex s' = 0 /\ isRunning s' = isRunning s /\
      saved_jobs s' = saved_jobs s /\ saved_index s' = saved_index s /\
      saved_running s' = saved_running s
  end.
Proof.
  unfold loadJobs. cbv zeta. rewrite truthy_trim.
  destruct (has_ink input) eqn:Hink; cbn [negb].
  - destruct (parse_csv_reads (trim input)) as [parsedJobs Hparse];
      [now rewrite has_ink_trim|].
    rewrite Hparse. apply parse_csv_all_loaded in Hparse as Hall.
    destruct parsedJobs as [|job parsedJobs].
    + cbn. split; [reflexivity|]. split; [reflexivity|]. left. repeat split. eauto.
    + unfold save_queue. cbn [jobs currentJobIndex with_queue saved_running].
      destruct (quota _ _ _) eqn:Hquota.
      * cbn. split; [reflexivity|]. split; [reflexivity|]. right.
        repeat split; try assumption. discriminate.
      * cbn. repeat split; try assumption. discriminate.
  - cbn. split; [reflexivity|]. split; [reflexivity|]. left. repeat split. eauto.
Qed.

End LoadJobs.

(* ===================================================================== *)
(** ** A dropdown answered with a text that matches no option *)
(* ===================================================================== *)

Section Unmatched.
Import Dom Store Run Content Spec Props.
Variable quota : Storage -> bool.
Variables resume0 coverLetter0 : option Asset.

Lemma selectBestOption_unmatched (i : nat) (answer : string) (w : World) (el : Element) :
  elements (page w) !! i = Some el -> unmatched el answer ->
  selectBestOption i answer w = (Normal false, w).
Proof.
  intros Hel [Hexact Hpartial]. unfold selectBestOption. rewrite bind_run.
  unfold element_at. now rewrite Hel, Hexact, Hpartial.
Qed.


End Unmatched.

Section UnmatchedExample.
Import Dom Store Run Content Spec Props.


End UnmatchedExample.

Section StopAndWorker.
Import JS Queue Props.
Variable quota : list Job -> nat -> bool -> bool.

Lemma worker_sees_storage (s1 s2 : State) :
  saved_jobs s1 = saved_jobs s2 -> saved_index s1 = saved_index s2 ->
  saved_running s1 = saved_running s2 -> tab_url s1 = tab_url s2 ->
  let after1 := state_of (handleJobCompletion quota s1) in
  let after2 := state_of (handleJobCompletion quota s2) in
  saved_jobs after1 = saved_jobs after2 /\ saved_index after1 = saved_index after2 /\
  saved_running after1 = saved_running after2 /\ tab_url after1 = tab_url after2.
Proof.
  intros Hjobs Hindex Hrunning Htab. cbv zeta. unfold handleJobCompletion. cbv zeta.
  rewrite Hjobs, Hindex, Hrunning.
  destruct (negb (saved_running s2)); [cbn; auto|].
  destruct (quota (alter complete (saved_index s2) (saved_jobs s2)) (S (saved_index s2))
              (saved_running s2)); [|cbn; auto].
  destruct (alter complete (saved_index s2) (saved_jobs s2) !! S (saved_index s2));
    [cbn; auto|].
  destruct (quota (alter complete (saved_index s2) (saved_jobs s2)) (S (saved_index s2))
              false); cbn; auto.
Qed.

(** X25. Stopping reaches the background worker through the storage
    alone. When [stopApplying] returns, the stored flag is off and a
    following completion message changes nothing. When the host refuses
    its write, the script holds the flag off while the storage holds
    what it held, so the worker goes on as before: a completion message
    then does to the storage and the tab exactly what it would have done
    had the button not been pressed. *)
Theorem stopApplying_reaches_worker (s : State) :
  match stopApplying quota s with
  | Done s' =>
      isRunning s' = false /\ saved_running s' = false /\
      handleJobCompletion quota s' = Done s'
  | Rejected s' =>
      isRunning s' = false /\
      saved_jobs s' = saved_jobs s /\ saved_index s' = saved_index s /\
      saved_running s' = saved_running s /\ tab_url s' = tab_url s /\
      let after := state_of (handleJobCompletion quota s') in
      let before := state_of (handleJobCompletion quota s) in
      saved_jobs after = saved_jobs before /\ saved_index after = saved_index before /\
      saved_running after = saved_running before /\ tab_url after = tab_url before
  end.
Proof.
  unfold stopApplying, save_running.
  cbn [with_running saved_jobs saved_index isRunning].
  destruct (quota (saved_jobs s) (saved_index s) false) eqn:Hquota.
  - cbn [isRunning saved_running updateStatus]. split; [reflexivity|].
    split; [reflexivity|]. reflexivity.
  - cbn [isRunning saved_jobs saved_index saved_running tab_url with_running].
    repeat (split; [reflexivity|]).
    apply worker_sees_storage; reflexivity.
Qed.

End StopAndWorker.

(* ===================================================================== *)
(** ** The size of a stored file, as shown *)
(* ===================================================================== *)

Section FileSize.
Import Display Props.

Lemma toFixed1_nearest (num den : Z) :
  (0 < den)%Z -> (den mod 2 = 0)%Z ->
  exists n,
    toFixed1 num den = tenths n /\ nearest_tenth num den n /\
    n = ((10 * num + den / 2) / den)%Z.
Proof.
  intros Hden Heven. exists ((10 * num + den / 2) / den)%Z.
  split; [reflexivity|]. split; [|reflexivity]. unfold nearest_tenth.
  pose proof (Z.div_mod (10 * num + den / 2) den ltac:(lia)) as Hdiv.
  pose proof (Z.mod_pos_bound (10 * num + den / 2) den Hden) as Hrem.
  pose proof (Z.div_mod den 2 ltac:(lia)) as Hhalf.
  rewrite Heven in Hhalf. lia.
Qed.

(** X27. The size shown for a stored file of [bytes] bytes is the number
    of bytes below 1024, the number of units of 1024 bytes with one
    decimal from there to below 1024 * 1024, and from there on the
    number of units of 1024 * 1024 bytes with one decimal. The decimal
    figure is the nearest tenth, upwards from the middle, and is at
    least 1.0; in units of 1024 bytes it is at most 1024.0, which is
    what sizes just below 1024 * 1024 are shown as. *)
Theorem formatFileSize_nearest_tenth (bytes : Z) :
  (0 <= bytes < 2 ^ 53)%Z ->
  ((bytes < 1024)%Z /\ formatFileSize bytes = pretty bytes ++ " B") \/
  ((1024 <= bytes < 1024 * 1024)%Z /\
   exists n, formatFileSize bytes = tenths n ++ " KB" /\
             nearest_tenth bytes 1024 n /\ (10 <= n <= 10240)%Z) \/
  ((1024 * 1024 <= bytes)%Z /\
   exists n, formatFileSize bytes = tenths n ++ " MB" /\
             nearest_tenth bytes (1024 * 1024) n /\ (10 <= n)%Z).
Proof.
  intros Hsize. unfold formatFileSize.
  destruct (bytes <? 1024)%Z eqn:Hsmall.
  - left. apply Z.ltb_lt in Hsmall. auto.
  - apply Z.ltb_ge in Hsmall. right.
    destruct (bytes <? 1024 * 1024)%Z eqn:Hmiddle.
    + left. apply Z.ltb_lt in Hmiddle. split; [lia|].
      destruct (toFixed1_nearest bytes 1024) as (n & -> & Hnear & _);
        [lia | reflexivity |].
      exists n. split; [reflexivity|]. split; [exact Hnear|].
      unfold nearest_tenth in Hnear. lia.
    + right. apply Z.ltb_ge in Hmiddle. split; [lia|].
      destruct (toFixed1_nearest bytes (1024 * 1024)) as (n & -> & Hnear & _);
        [lia | reflexivity |].
      exists n. split; [reflexivity|]. split; [exact Hnear|].
      unfold nearest_tenth in Hnear. lia.
Qed.

Lemma formatFileSize_nearest_tenth_witness :
  formatFileSize 1048575 = "1024.0 KB" /\ nearest_tenth 1048575 1024 10240.
Proof.
  destruct (formatFileSize_nearest_tenth 1048575)
    as [[Hsmall _] | [(_ & n & Htext & Hnear & Hrange) | [Hlarge _]]].
  - lia.
  - lia.
  - assert (n = 10240%Z) as -> by (unfold nearest_tenth in Hnear; lia).
    split; [reflexivity | exact Hnear].
  - lia.
Defined.

End FileSize.
